(** * Zyzzyva word engine: a shallow embedding of [WordEngine.cpp]

    The development follows [src/libzyzzyva/WordEngine.cpp].  Strings are
    [string] (one [ascii] per character: the model covers the ASCII part of
    [QString]), C++ [int] values are [Z], [std::set<QString>] is
    [gset string] enumerated in ascending order, [QMap] and [std::map] are
    [gmap], and a [std::multimap] is a key-sorted association list.

    The collaborators of the engine whose code is not part of
    [WordEngine.cpp] ([Auxil], [LetterBag], [SearchSpec::optimize],
    [WordGraph::search], [WordGraph::importDawgFile]) are interfaces: type
    classes whose methods the engine calls. *)

From Stdlib Require Import ZArith String Ascii List Bool Lia DecimalString.
From stdpp Require Import gmap strings list sorting.

Local Open Scope string_scope.
Local Open Scope Z_scope.

(** ** Strings, as the code uses [QString] *)

Module QStr.

(** [QChar::isSpace] on ASCII: space and the control characters 9 to 13. *)
Definition isSpace (c : ascii) : bool :=
  let n := nat_of_ascii c in
  ((n =? 32) || ((9 <=? n) && (n <=? 13)))%nat.

(** A character a regular expression's [\w] matches: letter, digit or
    underscore. *)
Definition isWordChar (c : ascii) : bool :=
  let n := nat_of_ascii c in
  (((65 <=? n) && (n <=? 90)) || ((97 <=? n) && (n <=? 122))
   || ((48 <=? n) && (n <=? 57)) || (n =? 95))%nat.

Definition upperChar (c : ascii) : ascii :=
  let n := nat_of_ascii c in
  if ((97 <=? n) && (n <=? 122))%nat then ascii_of_nat (n - 32) else c.

(** [QString::toUpper]. *)
Fixpoint toUpper (s : string) : string :=
  match s with
  | EmptyString => EmptyString
  | String c s' => String (upperChar c) (toUpper s')
  end.

Fixpoint rev_string (acc s : string) : string :=
  match s with
  | EmptyString => acc
  | String c s' => rev_string (String c acc) s'
  end.

(** The whitespace-separated tokens of a string; [cur] is the token being
    read, reversed. *)
Fixpoint tokens_aux (cur : string) (s : string) : list string :=
  match s with
  | EmptyString =>
      match cur with EmptyString => [] | _ => [rev_string "" cur] end
  | String c s' =>
      if isSpace c then
        match cur with
        | EmptyString => tokens_aux "" s'
        | _ => rev_string "" cur :: tokens_aux "" s'
        end
      else tokens_aux (String c cur) s'
  end.

(** [QString::simplified]: whitespace stripped at both ends, every inner
    run of whitespace replaced by one space. *)
Definition simplified (s : string) : string :=
  String.concat " " (tokens_aux "" s).

(** [QString::split (sep)] with the default [KeepEmptyParts], for a
    separator that is not empty.  [skip] counts the characters of a
    separator still to be passed over. *)
Fixpoint split_aux (sep : string) (skip : nat) (cur : string) (s : string)
  : list string :=
  match s with
  | EmptyString => [rev_string "" cur]
  | String c s' =>
      match skip with
      | S k => split_aux sep k cur s'
      | O =>
          if String.prefix sep s
          then rev_string "" cur
               :: split_aux sep (String.length sep - 1) "" s'
          else split_aux sep 0 (String c cur) s'
      end
  end.

Definition split (sep s : string) : list string := split_aux sep 0 "" s.

(** [line.section (' ', 0, 0)]: the text before the first space. *)
Fixpoint sectionFirst (s : string) : string :=
  match s with
  | EmptyString => EmptyString
  | String c s' => if Ascii.eqb c " " then EmptyString
                   else String c (sectionFirst s')
  end.

(** [line.section (' ', 1)]: the text after the first space. *)
Fixpoint sectionRest (s : string) : string :=
  match s with
  | EmptyString => EmptyString
  | String c s' => if Ascii.eqb c " " then s' else sectionRest s'
  end.

Definition size (s : string) : Z := Z.of_nat (String.length s).

(** [QString::left (n)]: the whole string when [n] is negative or not
    smaller than the size. *)
Definition left (n : Z) (s : string) : string :=
  if (n <? 0) || (size s <=? n) then s
  else String.substring 0 (Z.to_nat n) s.

(** [QString::right (n)], with the same convention. *)
Definition right (n : Z) (s : string) : string :=
  if (n <? 0) || (size s <=? n) then s
  else String.substring (String.length s - Z.to_nat n) (Z.to_nat n) s.

(** [QString::indexOf (needle)], -1 when there is no occurrence. *)
Definition indexOf (needle s : string) : Z :=
  match String.index 0 needle s with
  | Some i => Z.of_nat i
  | None => -1
  end.

(** [QString::replace (index, len, after)]. *)
Definition replace (index len : nat) (after s : string) : string :=
  (String.substring 0 index s +:+ after
   +:+ String.substring (index + len) (String.length s - (index + len)) s)%nat.

(** The longest prefix made of [\w] characters. *)
Fixpoint takeWord (s : string) : string :=
  match s with
  | EmptyString => EmptyString
  | String c s' => if isWordChar c then String c (takeWord s')
                   else EmptyString
  end.

Fixpoint dropn (n : nat) (s : string) : string :=
  match n, s with
  | O, _ => s
  | S k, String _ s' => dropn k s'
  | S _, EmptyString => EmptyString
  end.

Definition startsWith (c : ascii) (s : string) : bool :=
  match s with
  | String d _ => Ascii.eqb c d
  | EmptyString => false
  end.

Definition lowerChar (c : ascii) : ascii :=
  let n := nat_of_ascii c in
  if ((65 <=? n) && (n <=? 90))%nat then ascii_of_nat (n + 32) else c.

Fixpoint dropSpaces (s : string) : string :=
  match s with
  | EmptyString => EmptyString
  | String c s' => if isSpace c then dropSpaces s' else s
  end.

(** White space stripped at both ends. *)
Definition trimmed (s : string) : string :=
  rev_string "" (dropSpaces (rev_string "" (dropSpaces s))).

Definition isDigit (c : ascii) : bool :=
  let n := nat_of_ascii c in ((48 <=? n) && (n <=? 57))%nat.

(** The value of a run of decimal digits, [None] at any other character. *)
Fixpoint digitsValue (acc : Z) (s : string) : option Z :=
  match s with
  | EmptyString => Some acc
  | String c s' =>
      if isDigit c
      then digitsValue (10 * acc + Z.of_nat (nat_of_ascii c - 48)) s'
      else None
  end.

(** [QString::toInt ()]: white space around the number is passed over, a
    sign may come first, at least one digit follows and nothing else; the
    result is 0 when the text is not such a number or the number is not
    an [int]. *)
Definition toInt (s : string) : Z :=
  let t := trimmed s in
  let '(negative, body) :=
    match t with
    | String c r =>
        if Ascii.eqb c "-" then (true, r)
        else if Ascii.eqb c "+" then (false, r)
        else (false, t)
    | EmptyString => (false, t)
    end in
  match body with
  | EmptyString => 0
  | _ =>
      match digitsValue 0 body with
      | None => 0
      | Some v =>
          let v := if negative then - v else v in
          if (-2147483648 <=? v) && (v <=? 2147483647) then v else 0
      end
  end.

(** The last character, [None] for the empty string. *)
Fixpoint lastChar (s : string) : option ascii :=
  match s with
  | EmptyString => None
  | String c EmptyString => Some c
  | String _ s' => lastChar s'
  end.

End QStr.

(** A text file as [QFile::readLine] delivers it: [None] when the file
    cannot be opened, otherwise its lines in order. *)
Abbreviation File := (option (list string)).

(** ** Search specifications *)

(** The condition kinds [WordEngine.cpp] names; [OtherSearchType] stands
    for every kind it only reaches through a [default:] branch. *)
Inductive SearchType :=
| PatternMatch | Prefix | Suffix | BelongToGroup | InWordList
| NumAnagrams | ProbabilityOrder | OtherSearchType.

Inductive SearchSet :=
| SetHookWords | SetFrontHooks | SetBackHooks | SetTypeOneSevens
| SetTypeOneEights | SetEightsFromSevenLetterStems | SetNewInOwl2
| UnknownSearchSet.

Record SearchCondition := {
  type : SearchType;
  stringValue : string;
  minValue : Z;
  maxValue : Z;
  negated : bool }.

Record SearchSpec := {
  conditions : list SearchCondition;
  conjunction : bool }.

#[global] Instance SearchType_eq_dec : EqDecision SearchType.
Proof. solve_decision. Defined.
#[global] Instance SearchSet_eq_dec : EqDecision SearchSet.
Proof. solve_decision. Defined.

(** ** The engine state *)

(** Modelled from the spec: [WordGraph] (its source is not part of
    [WordEngine.cpp]) is the set of words it accepts; [containsWord] is exact
    membership and [addWord] an idempotent insertion. *)
Abbreviation WordGraph := (gset string).

Definition containsWord (g : WordGraph) (word : string) : bool :=
  bool_decide (word ∈ g).

Definition addWord (g : WordGraph) (word : string) : WordGraph :=
  {[ word ]} ∪ g.

Record WordEngine := {
  graph : WordGraph;
  numAnagramsMap : gmap string Z;
  stems : gmap Z (list string);
  stemAlphagrams : gmap Z (gset string);
  definitions : gmap string (list (string * string));
  lexiconName : string }.

Definition emptyEngine : WordEngine :=
  {| graph := ∅; numAnagramsMap := ∅; stems := ∅; stemAlphagrams := ∅;
     definitions := ∅; lexiconName := "" |}.

(** ** The collaborators *)

Class Auxil := {
  getAlphagram : string → string;
  stringToSearchSet : string → SearchSet;
  (** the lines of [getWordsDir() + "/north-american/owl2-new-words.txt"] *)
  owl2NewWordsFile : File }.

Class LetterBag := {
  (** [LetterBag::getNumCombinations]; the count is a whole number *)
  getNumCombinations : string → Z }.

Class GraphOps := {
  (** [WordGraph::search] *)
  graphSearch : WordGraph → SearchSpec → list string;
  (** [WordGraph::importDawgFile]: success flag and the graph afterwards *)
  graphImportDawgFile : WordGraph → string → bool → bool * WordGraph }.

Class SpecOps := {
  (** [SearchSpec::optimize] *)
  optimize : SearchSpec → SearchSpec }.

Class RegExpOps := {
  (** [text.contains (QRegExp (pattern))] for a pattern that holds
      operators; [QRegExp] is Qt's *)
  regexContains : string → string → bool }.

(** ** Containers of the C++ standard library and of Qt *)

Definition string_le (a b : string) : Prop := String.leb a b = true.

#[global] Instance string_le_dec : RelDecision string_le.
Proof. intros a b. unfold string_le. apply _. Defined.

(** The elements of a [std::set<QString>] in iteration order. *)
Definition setToList (s : gset string) : list string :=
  merge_sort string_le (elements s).

(** The loop that inserts every element of [from] into [into]. *)
Definition insertAll (from into : gset string) : gset string :=
  foldl (λ acc w, {[ w ]} ∪ acc) into (setToList from).

(** [std::multimap::insert]: after the entries whose key is not greater. *)
Fixpoint mmInsert (k v : string) (m : list (string * string))
  : list (string * string) :=
  match m with
  | [] => [(k, v)]
  | (k', v') :: m' =>
      if String.ltb k k' then (k, v) :: m
      else (k', v') :: mmInsert k v m'
  end.

(** [std::multimap::find]: the first entry with the key. *)
Fixpoint mmFind (k : string) (m : list (string * string)) : option string :=
  match m with
  | [] => None
  | (k', v') :: m' => if String.eqb k k' then Some v' else mmFind k m'
  end.

(** [std::map::insert]: an existing entry is kept. *)
Definition mapInsertNew `{Countable K} {V} (k : K) (v : V) (m : gmap K V)
  : gmap K V :=
  match m !! k with
  | Some _ => m
  | None => <[ k := v ]> m
  end.

(** [QMap::insert]: the entries stay in ascending key order, the value of
    an existing key is replaced. *)
Fixpoint qmapInsert (k v : string) (m : list (string * string))
  : list (string * string) :=
  match m with
  | [] => [(k, v)]
  | (k', v') :: m' =>
      if String.ltb k k' then (k, v) :: m
      else if String.eqb k k' then (k, v) :: m'
      else (k', v') :: qmapInsert k v m'
  end.

(** [QList::mid (pos, alength)] for [0 <= pos]: a negative [alength] means
    everything from [pos] on. *)
Definition mid {A} (pos alength : Z) (l : list A) : list A :=
  let size := Z.of_nat (length l) in
  let alength := if alength <? 0 then size - pos else alength in
  let alength := if size <? pos + alength then size - pos else alength in
  take (Z.to_nat alength) (drop (Z.to_nat pos) l).

(** ** Imports *)

Section Engine.
Context `{!Auxil} {regExp : RegExpOps}.

(** [posRegex.indexIn (def, 0)] followed by [posRegex.cap (1)] for the
    expression [\[(\w+)]: the word after the first bracket that has one. *)
Fixpoint posTag (def : string) : option string :=
  match def with
  | EmptyString => None
  | String c def' =>
      if Ascii.eqb c "["
      then match QStr.takeWord def' with
           | EmptyString => posTag def'
           | w => Some w
           end
      else posTag def'
  end.

Definition addDefinition (word definition : string) (e : WordEngine)
  : WordEngine :=
  if (QStr.size word =? 0) || (QStr.size definition =? 0) then e
  else
    let defs := QStr.split " / " definition in
    let defMap :=
      foldl (λ m def,
               let pos := match posTag def with Some p => p | None => "" end in
               mmInsert pos def m) [] defs in
    {| graph := graph e; numAnagramsMap := numAnagramsMap e;
       stems := stems e; stemAlphagrams := stemAlphagrams e;
       definitions := mapInsertNew word defMap (definitions e);
       lexiconName := lexiconName e |}.

(** A line the import loops skip: empty once simplified, or a comment. *)
Definition skipLine (line : string) : bool :=
  (QStr.size line =? 0) || QStr.startsWith "#" line.

(** One iteration of the loop of [importTextFile]. *)
Definition importTextLine (loadDefinitions : bool) (st : Z * WordEngine)
  (buffer : string) : Z * WordEngine :=
  let '(imported, e) := st in
  let line := QStr.simplified buffer in
  if skipLine line then st
  else
    let word := QStr.toUpper (QStr.sectionFirst line) in
    let counts :=
      if negb (containsWord (graph e) word)
      then
        let alpha := getAlphagram word in
        <[ alpha := default 0 (numAnagramsMap e !! alpha) + 1 ]>
          (numAnagramsMap e)
      else numAnagramsMap e in
    let e1 :=
      {| graph := addWord (graph e) word; numAnagramsMap := counts;
         stems := stems e; stemAlphagrams := stemAlphagrams e;
         definitions := definitions e; lexiconName := lexiconName e |} in
    let e2 :=
      if loadDefinitions
      then addDefinition word (QStr.sectionRest line) e1
      else e1 in
    (imported + 1, e2).

Definition importTextFile (file : File) (lexName : string)
  (loadDefinitions : bool) (e : WordEngine) : Z * WordEngine :=
  match file with
  | None => (0, e)
  | Some lines =>
      let '(imported, e') :=
        foldl (importTextLine loadDefinitions) (0, e) lines in
      (imported,
       {| graph := graph e'; numAnagramsMap := numAnagramsMap e';
          stems := stems e'; stemAlphagrams := stemAlphagrams e';
          definitions := definitions e'; lexiconName := lexName |})
  end.

Definition importDawgFile `{!GraphOps} (filename lexName : string)
  (reverse : bool) (e : WordEngine) : bool * WordEngine :=
  let '(ok, g) := graphImportDawgFile (graph e) filename reverse in
  let e' :=
    {| graph := g; numAnagramsMap := numAnagramsMap e;
       stems := stems e; stemAlphagrams := stemAlphagrams e;
       definitions := definitions e; lexiconName := lexiconName e |} in
  if negb ok then (false, e')
  else if reverse then (true, e')
  else
    (true,
     {| graph := g; numAnagramsMap := numAnagramsMap e;
        stems := stems e; stemAlphagrams := stemAlphagrams e;
        definitions := definitions e; lexiconName := lexName |}).

(** The state of the loop of [importStems]. *)
Record StemScan := {
  scWords : list string;
  scAlphagrams : gset string;
  scImported : Z;
  scLength : Z }.

Definition importStemLine (st : StemScan) (buffer : string) : StemScan :=
  let line := QStr.simplified buffer in
  if skipLine line then st
  else
    let word := QStr.sectionFirst line in
    let length := if scLength st =? 0 then QStr.size word else scLength st in
    if negb (length =? QStr.size word)
    then {| scWords := scWords st; scAlphagrams := scAlphagrams st;
            scImported := scImported st; scLength := length |}
    else {| scWords := (scWords st ++ [word])%list;
            scAlphagrams := {[ getAlphagram word ]} ∪ scAlphagrams st;
            scImported := scImported st + 1; scLength := length |}.

Definition scanStems (lines : list string) : StemScan :=
  foldl importStemLine
        {| scWords := []; scAlphagrams := ∅; scImported := 0; scLength := 0 |}
        lines.

(** [importStems].  In the branch that appends to an existing stem list the
    code dereferences [stemAlphagrams.find (length)] unchecked; the two maps
    receive their keys together, and the model leaves [stemAlphagrams] as it
    is in the case the code does not define. *)
Definition importStems (file : File) (e : WordEngine) : Z * WordEngine :=
  match file with
  | None => (-1, e)
  | Some lines =>
      let sc := scanStems lines in
      let length := scLength sc in
      let '(stems', stemAlphagrams') :=
        match stems e !! length with
        | None =>
            (<[ length := scWords sc ]> (stems e),
             mapInsertNew length (scAlphagrams sc) (stemAlphagrams e))
        | Some old =>
            (<[ length := (old ++ scWords sc)%list ]> (stems e),
             match stemAlphagrams e !! length with
             | Some olda =>
                 <[ length := insertAll (scAlphagrams sc) olda ]>
                   (stemAlphagrams e)
             | None => stemAlphagrams e
             end)
        end in
      (scImported sc,
       {| graph := graph e; numAnagramsMap := numAnagramsMap e;
          stems := stems'; stemAlphagrams := stemAlphagrams';
          definitions := definitions e; lexiconName := lexiconName e |})
  end.

(** [getNewInOwl2String]: [QString::null] when the file cannot be opened. *)
Definition getNewInOwl2String : string :=
  match owl2NewWordsFile with
  | None => ""
  | Some lines =>
      String.concat " "
        (foldl (λ words buffer,
                  let line := QStr.simplified buffer in
                  if skipLine line then words
                  else (words ++ [QStr.sectionFirst line])%list) [] lines)
  end.

(** ** Look-ups *)

Definition isAcceptable (e : WordEngine) (word : string) : bool :=
  containsWord (graph e) word.

Definition numAnagrams (e : WordEngine) (word : string) : Z :=
  let alpha := getAlphagram word in
  match numAnagramsMap e !! alpha with
  | Some n => n
  | None => 0
  end.

(** The loop of the [SetTypeOneSevens] and [SetEightsFromSevenLetterStems]
    cases: some [i] below the length of [agram] whose letter, once deleted,
    leaves a member of [alphaset]. *)
Definition oneLetterDeleted (alphaset : gset string) (agram : string) : bool :=
  existsb
    (λ i, bool_decide
            (QStr.left i agram +:+ QStr.right (QStr.size agram - i - 1) agram
             ∈ alphaset))
    (seqZ 0 (QStr.size agram)).

(** The inner loop of the [SetTypeOneEights] case, from index [i] of
    [agram] on: [agramRest] is [agram] from [i], [saRest] is [setAlphagram]
    from [saIndex]; the result is [missing] when the loop is left. *)
Fixpoint missingLetters (agramRest saRest : string) (missing : Z) : Z :=
  match agramRest, saRest with
  | String a agramRest', String b saRest' =>
      if Ascii.eqb a b
      then missingLetters agramRest' saRest' missing
      else
        let missing := missing + 1 in
        if 2 <? missing then missing
        else missingLetters agramRest' saRest missing
  | _, _ => missing
  end.

Definition isSetMember (e : WordEngine) (word : string) (ss : SearchSet)
  : bool :=
  match ss with
  | SetHookWords =>
      isAcceptable e (QStr.left (QStr.size word - 1) word)
      || isAcceptable e (QStr.right (QStr.size word - 1) word)
  | SetFrontHooks => isAcceptable e (QStr.right (QStr.size word - 1) word)
  | SetBackHooks => isAcceptable e (QStr.left (QStr.size word - 1) word)
  | SetTypeOneSevens =>
      if negb (QStr.size word =? 7) then false
      else
        match stemAlphagrams e !! (QStr.size word - 1) with
        | None => false
        | Some alphaset => oneLetterDeleted alphaset (getAlphagram word)
        end
  | SetTypeOneEights =>
      if negb (QStr.size word =? 8) then false
      else
        match stemAlphagrams e !! (QStr.size word - 2) with
        | None => false
        | Some alphaset =>
            let agram := getAlphagram word in
            existsb (λ setAlphagram,
                       missingLetters agram setAlphagram 0 <=? 2)
                    (setToList alphaset)
        end
  | SetEightsFromSevenLetterStems =>
      if negb (QStr.size word =? 8) then false
      else
        match stemAlphagrams e !! (QStr.size word - 1) with
        | None => false
        | Some alphaset => oneLetterDeleted alphaset (getAlphagram word)
        end
  | _ => false
  end.

(** ** The set-algebra search *)

Definition MAX_ANAGRAMS : Z := 65535.

(** The words of an [InWordList] condition that are acceptable. *)
Definition acceptableWords (e : WordEngine) (stringValue : string)
  : gset string :=
  foldl (λ wordSet w, if isAcceptable e w then {[ w ]} ∪ wordSet else wordSet)
        ∅ (QStr.split " " stringValue).

(** What the condition loop of [nonGraphSearch] hands on. *)
Record Narrowed := {
  finalWordSet : gset string;
  minAnagrams : Z;
  maxAnagrams : Z }.

(** The condition loop of [nonGraphSearch]; [None] is one of its early
    [return wordList] with the list still empty. *)
Fixpoint nonGraphLoop (e : WordEngine) (conj : bool)
  (conds : list SearchCondition) (finalWordSet : gset string)
  (conditionNum : Z) (minAnagrams maxAnagrams : Z) : option Narrowed :=
  match conds with
  | [] => Some {| finalWordSet := finalWordSet;
                  minAnagrams := minAnagrams; maxAnagrams := maxAnagrams |}
  | condition :: rest =>
      let range :=
        if decide (type condition = NumAnagrams)
        then
          if (maxAnagrams <? minValue condition)
             || (maxValue condition <? minAnagrams)
          then None
          else Some (minValue condition, maxValue condition)
        else Some (minAnagrams, maxAnagrams) in
      match range with
      | None => None
      | Some (minAnagrams, maxAnagrams) =>
          if negb (bool_decide (type condition = InWordList))
          then nonGraphLoop e conj rest finalWordSet conditionNum
                            minAnagrams maxAnagrams
          else
            let wordSet := acceptableWords e (stringValue condition) in
            if conditionNum =? 0
            then nonGraphLoop e conj rest wordSet (conditionNum + 1)
                              minAnagrams maxAnagrams
            else if conj
            then
              let conjunctionSet :=
                filter (λ w, w ∈ finalWordSet) wordSet in
              if decide (conjunctionSet = ∅) then None
              else nonGraphLoop e conj rest conjunctionSet (conditionNum + 1)
                                minAnagrams maxAnagrams
            else nonGraphLoop e conj rest (insertAll wordSet finalWordSet)
                              (conditionNum + 1) minAnagrams maxAnagrams
      end
  end.

Definition nonGraphSearch (e : WordEngine) (spec : SearchSpec)
  : list string :=
  match nonGraphLoop e (conjunction spec) (conditions spec) ∅ 0
                     0 MAX_ANAGRAMS with
  | None => []
  | Some n =>
      let final :=
        if negb (bool_decide (finalWordSet n = ∅))
           && ((0 <? minAnagrams n) || (maxAnagrams n <? MAX_ANAGRAMS))
        then
          filter (λ w,
                    let numAnagrams :=
                      default 0 (numAnagramsMap e !! getAlphagram w) in
                    minAnagrams n ≤ numAnagrams ∧ numAnagrams ≤ maxAnagrams n)
                 (finalWordSet n)
        else finalWordSet n in
      setToList final
  end.

(** ** The graph search and its post-conditions *)

(** A word boundary between a character of class [prevIsWord] and the
    start of [s]. *)
Definition boundaryAt (prevIsWord : bool) (s : string) : bool :=
  xorb prevIsWord
       (match s with String c _ => QStr.isWordChar c | EmptyString => false end).

Fixpoint lastIsWord (prevIsWord : bool) (w : string) : bool :=
  match w with
  | EmptyString => prevIsWord
  | String c w' => lastIsWord (QStr.isWordChar c) w'
  end.

(** The search for [w] as a whole word of [s]: an occurrence of [w] with
    a word boundary on either side. *)
Fixpoint containsWholeWord_from (w : string) (prevIsWord : bool) (s : string)
  : bool :=
  (String.prefix w s && boundaryAt prevIsWord s
   && boundaryAt (lastIsWord prevIsWord w) (QStr.dropn (String.length w) s))
  || match s with
     | EmptyString => false
     | String c s' => containsWholeWord_from w (QStr.isWordChar c) s'
     end.

Definition containsWholeWord (w s : string) : bool :=
  containsWholeWord_from w false s.

(** A word that stands for itself when it is pasted into a regular
    expression: not empty, and made of [\w] characters, none of which is
    an operator. *)
Fixpoint allWordChars (w : string) : bool :=
  match w with
  | EmptyString => true
  | String c w' => QStr.isWordChar c && allWordChars w'
  end.

Definition isLiteralWord (w : string) : bool :=
  negb (QStr.size w =? 0) && allWordChars w.

(** [s.contains (QRegExp ("\\b" + wordUpper + "\\b"))]: the word is pasted
    into the expression as it is.  For a literal word the expression
    asks for the word between two boundaries; any other word is read as
    an expression of its own, which is left to [QRegExp]. *)
Definition containsWordExpression (wordUpper s : string) : bool :=
  if isLiteralWord wordUpper then containsWholeWord wordUpper s
  else regexContains ("\b" +:+ wordUpper +:+ "\b") s.

(** The loop of [matchesConditions], [wordUpper] being [word.toUpper()]. *)
Fixpoint matchesLoop (e : WordEngine) (wordUpper : string)
  (conds : list SearchCondition) : bool :=
  match conds with
  | [] => true
  | condition :: rest =>
      match type condition with
      | Prefix =>
          if xorb (negb (isAcceptable e (stringValue condition +:+ wordUpper)))
                  (negated condition)
          then false else matchesLoop e wordUpper rest
      | Suffix =>
          if xorb (negb (isAcceptable e (wordUpper +:+ stringValue condition)))
                  (negated condition)
          then false else matchesLoop e wordUpper rest
      | BelongToGroup =>
          let searchSet := stringToSearchSet (stringValue condition) in
          if decide (searchSet = UnknownSearchSet)
          then matchesLoop e wordUpper rest
          else if xorb (negb (isSetMember e wordUpper searchSet))
                       (negated condition)
          then false else matchesLoop e wordUpper rest
      | InWordList =>
          if xorb (negb (containsWordExpression wordUpper
                                                (stringValue condition)))
                  (negated condition)
          then false else matchesLoop e wordUpper rest
      | NumAnagrams =>
          let num := numAnagrams e wordUpper in
          if (num <? minValue condition) || (maxValue condition <? num)
          then false else matchesLoop e wordUpper rest
      | _ => matchesLoop e wordUpper rest
      end
  end.

Definition matchesConditions (e : WordEngine) (word : string)
  (conds : list SearchCondition) : bool :=
  matchesLoop e (QStr.toUpper word) conds.

(** The state of the classifying loop of [search]. *)
Record Classified := {
  mustSearchGraph : bool;
  wordListCondition : bool;
  probRangeMin : Z;
  probRangeMax : Z;
  clIndex : nat;
  clConditions : list SearchCondition }.

Definition classify (st : Classified) (condition : SearchCondition)
  : Classified :=
  let next m w pmin pmax conds :=
    {| mustSearchGraph := m; wordListCondition := w; probRangeMin := pmin;
       probRangeMax := pmax; clIndex := S (clIndex st);
       clConditions := conds |} in
  match type condition with
  | InWordList =>
      next (if negated condition then true else mustSearchGraph st) true
           (probRangeMin st) (probRangeMax st) (clConditions st)
  | NumAnagrams =>
      next (mustSearchGraph st) (wordListCondition st)
           (probRangeMin st) (probRangeMax st) (clConditions st)
  | BelongToGroup =>
      if decide (stringToSearchSet (stringValue condition) = SetNewInOwl2)
      then
        let condition' :=
          {| type := InWordList; stringValue := getNewInOwl2String;
             minValue := minValue condition; maxValue := maxValue condition;
             negated := negated condition |} in
        next (mustSearchGraph st) true (probRangeMin st) (probRangeMax st)
             (<[ clIndex st := condition' ]> (clConditions st))
      else
        next true (wordListCondition st) (probRangeMin st) (probRangeMax st)
             (clConditions st)
  | ProbabilityOrder =>
      next (mustSearchGraph st) (wordListCondition st)
           (minValue condition) (maxValue condition) (clConditions st)
  | _ =>
      next true (wordListCondition st) (probRangeMin st) (probRangeMax st)
           (clConditions st)
  end.

Definition classifyAll (conds : list SearchCondition) : Classified :=
  foldl classify
        {| mustSearchGraph := false; wordListCondition := false;
           probRangeMin := 0; probRangeMax := 0; clIndex := 0%nat;
           clConditions := conds |}
        conds.

(** [radix.sprintf ("%09.0f", v)] for a whole number [v]: at least nine
    characters, zeros on the left, the sign counted in the width. *)
Definition padZeros (width : nat) (digits : string) : string :=
  string_of_list_ascii (repeat "0"%char (width - String.length digits))
  +:+ digits.

Definition sprintf_09_0f (v : Z) : string :=
  if v <? 0
  then "-" +:+ padZeros 8 (NilZero.string_of_uint (N.to_uint (Z.to_N (- v))))
  else padZeros 9 (NilZero.string_of_uint (N.to_uint (Z.to_N v))).

Definition radixOf `{!LetterBag} (word : string) : string :=
  sprintf_09_0f (1000000000 - 1 - getNumCombinations (QStr.toUpper word))
  +:+ QStr.toUpper word.

(** The map [probMap] once every word of the list is inserted. *)
Definition probMapOf `{!LetterBag} (wordList : list string)
  : list (string * string) :=
  foldl (λ probMap word, qmapInsert (radixOf word) word probMap) [] wordList.

(** The part of [search] after the graph search: post-conditions,
    probability order range, capitals. *)
Definition afterGraphSearch `{!LetterBag} (e : WordEngine)
  (conds : list SearchCondition) (probRangeMin probRangeMax : Z)
  (allCaps : bool) (wordList : list string) : list string :=
  let wordList := List.filter (λ w, matchesConditions e w conds) wordList in
  if (0 <? probRangeMax) && (Z.of_nat (length wordList) <? probRangeMin)
  then []
  else
    let wordList :=
      if 0 <? probRangeMax
      then
        let probRangeMin := if probRangeMin <=? 0 then 1 else probRangeMin in
        mid (probRangeMin - 1) (probRangeMax - probRangeMin + 1)
            (map snd (probMapOf wordList))
      else wordList in
    if allCaps then map QStr.toUpper wordList else wordList.

Definition search `{!GraphOps, !SpecOps, !LetterBag} (e : WordEngine)
  (spec : SearchSpec) (allCaps : bool) : list string :=
  let optimizedSpec := optimize spec in
  let cl := classifyAll (conditions optimizedSpec) in
  let optimizedSpec :=
    {| conditions := clConditions cl;
       conjunction := conjunction optimizedSpec |} in
  if wordListCondition cl && negb (mustSearchGraph cl)
  then nonGraphSearch e optimizedSpec
  else
    afterGraphSearch e (conditions optimizedSpec)
                     (probRangeMin cl) (probRangeMax cl) allCaps
                     (graphSearch (graph e) optimizedSpec).

(** ** Definitions *)

Definition MAX_DEFINITION_LINKS : nat := 3.

Definition getSubDefinition (e : WordEngine) (word pos : string) : string :=
  match definitions e !! word with
  | None => ""
  | Some mmap =>
      match mmFind pos mmap with
      | None => ""
      | Some d => QStr.left (QStr.indexOf " [" d) d
      end
  end.

(** A match of a link expression: where, how long, the two captures. *)
Record LinkMatch := {
  lmIndex : nat;
  lmLength : nat;
  lmWord : string;
  lmPos : string }.

(** A match of [opening (\w+) = (\w+) closing] at the start of [s]; neither
    [=] nor a closing character is a [\w] character, so each capture is the
    whole run of [\w] characters. *)
Definition linkHere (opening closing : ascii) (index : nat) (s : string)
  : option LinkMatch :=
  match s with
  | String c s1 =>
      if Ascii.eqb c opening
      then
        let word := QStr.takeWord s1 in
        match word, QStr.dropn (String.length word) s1 with
        | String _ _, String sign s2 =>
            if Ascii.eqb sign "="
            then
              let pos := QStr.takeWord s2 in
              match pos, QStr.dropn (String.length pos) s2 with
              | String _ _, String d _ =>
                  if Ascii.eqb d closing
                  then Some {| lmIndex := index;
                               lmLength := String.length word
                                           + String.length pos + 3;
                               lmWord := word; lmPos := pos |}
                  else None
              | _, _ => None
              end
            else None
        | _, _ => None
        end
      else None
  | EmptyString => None
  end.

(** [regex.indexIn (s, 0)]: the leftmost match. *)
Fixpoint linkIndexIn (opening closing : ascii) (index : nat) (s : string)
  : option LinkMatch :=
  match linkHere opening closing index s with
  | Some m => Some m
  | None =>
      match s with
      | EmptyString => None
      | String _ s' => linkIndexIn opening closing (S index) s'
      end
  end.

(** One execution of [modified.replace]: with the sub-definition of the
    linked word, or, the depth used up, with the word alone. *)
Inductive LinkStep :=
| Expanded (word : string)
| Stripped (word : string).

(** [replaceDefinitionLinks], with the list of the replacements it makes.
    [maxDepth] is a [nat]: the code starts at [MAX_DEFINITION_LINKS] and
    calls itself with [maxDepth - 1] only when [maxDepth] is not zero. *)
Fixpoint replaceLinks (e : WordEngine) (maxDepth : nat) (definition : string)
  (useFollow : bool) : string * list LinkStep :=
  let followMatch := linkIndexIn "{" "}" 0 definition in
  let '(matched, isFollow, useFollow) :=
    match followMatch with
    | Some m => (Some m, true, true)
    | None => (linkIndexIn "<" ">" 0 definition, false, useFollow)
    end in
  match matched with
  | None => (definition, [])
  | Some m =>
      let word := lmWord m in
      let pos := lmPos m in
      let replacement :=
        match maxDepth with
        | O => word
        | S _ =>
            let upper := QStr.toUpper word in
            if useFollow
            then if isFollow
                 then word +:+ " (" +:+ getSubDefinition e upper pos +:+ ")"
                 else getSubDefinition e upper pos
            else upper +:+ ", " +:+ getSubDefinition e upper pos
        end in
      let modified := QStr.replace (lmIndex m) (lmLength m) replacement
                                   definition in
      match maxDepth with
      | O => (modified, [Stripped word])
      | S maxDepth' =>
          let '(result, steps) := replaceLinks e maxDepth' modified useFollow in
          (result, Expanded word :: steps)
      end
  end.

Definition replaceDefinitionLinks (e : WordEngine) (definition : string)
  (maxDepth : nat) (useFollow : bool) : string :=
  fst (replaceLinks e maxDepth definition useFollow).

(** [getDefinition]; [useFollow] starts as [false]. *)
Definition getDefinition (e : WordEngine) (word : string) : string :=
  match definitions e !! word with
  | None => ""
  | Some mmap =>
      foldl (λ definition entry,
               (if negb (QStr.size definition =? 0)
                then definition +:+ " / " else definition)
               +:+ replaceDefinitionLinks e (snd entry)
                                          MAX_DEFINITION_LINKS false)
            "" mmap
  end.

(** ** The remaining operations *)

(** One iteration of the loop of [importNumAnagrams]. *)
Definition importNumAnagramsLine (counts : gmap string Z) (buffer : string)
  : gmap string Z :=
  let line := QStr.simplified buffer in
  if skipLine line then counts
  else
    let alphagram := QStr.toUpper (QStr.sectionFirst line) in
    let count := QStr.toInt (QStr.sectionRest line) in
    <[ alphagram := count ]> counts.

Definition importNumAnagrams (file : File) (e : WordEngine) : WordEngine :=
  match file with
  | None => e
  | Some lines =>
      {| graph := graph e;
         numAnagramsMap := foldl importNumAnagramsLine (numAnagramsMap e) lines;
         stems := stems e; stemAlphagrams := stemAlphagrams e;
         definitions := definitions e; lexiconName := lexiconName e |}
  end.

(** [importNumWords]: only the first line is read, and it is not tested
    for being a comment. *)
Definition importNumWords (file : File) : Z :=
  match file with
  | None => 0
  | Some [] => 0
  | Some (buffer :: _) =>
      QStr.toInt (QStr.sectionFirst (QStr.simplified buffer))
  end.

(** [alphagrams]: through a [std::set], which removes the duplicates. *)
Definition alphagrams (strings : list string) : list string :=
  setToList (foldl (λ seen w, {[ getAlphagram w ]} ∪ seen) ∅ strings).

(** [std::set<QChar>::insert] on the letters in ascending order. *)
Fixpoint letterInsert (c : ascii) (letters : string) : string :=
  match letters with
  | EmptyString => String c EmptyString
  | String d letters' =>
      if (nat_of_ascii c <? nat_of_ascii d)%nat then String c letters
      else if Ascii.eqb c d then letters
      else String d (letterInsert c letters')
  end.

(** The spec a hook-letter query builds: one [PatternMatch] condition in a
    spec and a condition that are otherwise as their constructors leave
    them. *)
Definition patternSpec (pattern : string) : SearchSpec :=
  {| conditions := [ {| type := PatternMatch; stringValue := pattern;
                        minValue := 0; maxValue := 0; negated := false |} ];
     conjunction := true |}.

(** The loop over the words found: the letter [pick] takes from each word,
    in lower case, goes into the set.  [None] when a word has no such
    letter, where the code reads outside the word. *)
Fixpoint hookLetters (pick : string → option ascii) (words : list string)
  (letters : string) : option string :=
  match words with
  | [] => Some letters
  | w :: words' =>
      match pick w with
      | None => None
      | Some c => hookLetters pick words' (letterInsert (QStr.lowerChar c)
                                                         letters)
      end
  end.

Definition firstChar (w : string) : option ascii :=
  match w with
  | String c _ => Some c
  | EmptyString => None
  end.

Definition getFrontHookLetters `{!GraphOps, !SpecOps, !LetterBag}
  (e : WordEngine) (word : string) : option string :=
  hookLetters firstChar (search e (patternSpec ("?" +:+ word)) true) "".

Definition getBackHookLetters `{!GraphOps, !SpecOps, !LetterBag}
  (e : WordEngine) (word : string) : option string :=
  hookLetters QStr.lastChar (search e (patternSpec (word +:+ "?")) true) "".

(** [definitionsLoaded]: the table the loading thread built replaces the
    table of the engine. *)
Definition definitionsLoaded
  (loaded : gmap string (list (string * string))) (e : WordEngine)
  : WordEngine :=
  {| graph := graph e; numAnagramsMap := numAnagramsMap e;
     stems := stems e; stemAlphagrams := stemAlphagrams e;
     definitions := loaded; lexiconName := lexiconName e |}.

End Engine.

(** ** Concrete collaborators *)

(** Modelled from the spec: [Auxil::getAlphagram] is not part of
    [WordEngine.cpp]; the alphagram is the letters of the word sorted into
    ascending order. *)
Fixpoint insertLetter (c : ascii) (s : string) : string :=
  match s with
  | EmptyString => String c EmptyString
  | String d s' =>
      if (nat_of_ascii c <=? nat_of_ascii d)%nat then String c s
      else String d (insertLetter c s')
  end.

Fixpoint sortLetters (s : string) : string :=
  match s with
  | EmptyString => EmptyString
  | String c s' => insertLetter c (sortLetters s')
  end.

(** [Auxil::stringToSearchSet] is not part of [WordEngine.cpp] either;
    these names stand in for it, and no property below depends on them. *)
Definition searchSetOfName (name : string) : SearchSet :=
  if String.eqb name "Hook Words" then SetHookWords
  else if String.eqb name "Front Hooks" then SetFrontHooks
  else if String.eqb name "Back Hooks" then SetBackHooks
  else if String.eqb name "Type I Sevens" then SetTypeOneSevens
  else if String.eqb name "Type I Eights" then SetTypeOneEights
  else if String.eqb name "Eights From Top 7-Letter Stems"
       then SetEightsFromSevenLetterStems
  else if String.eqb name "New in OWL2" then SetNewInOwl2
  else UnknownSearchSet.

Definition plainAuxil : Auxil :=
  {| getAlphagram := sortLetters;
     stringToSearchSet := searchSetOfName;
     owl2NewWordsFile := None |}.

(** The same with a file of new OWL2 words that can be read. *)
Definition owl2Auxil : Auxil :=
  {| getAlphagram := sortLetters;
     stringToSearchSet := searchSetOfName;
     owl2NewWordsFile := Some ["# new words"; "qi a life force"; "ZA"] |}.

(** A graph search that embeds no condition: every word of the graph, the
    post-conditions being left to the engine. *)
Definition wholeGraph : GraphOps :=
  {| graphSearch := λ g _, setToList g;
     graphImportDawgFile := λ g _ _, (false, g) |}.

Definition noRewrite : SpecOps := {| optimize := λ spec, spec |}.

(** A stand-in for [QRegExp] on the words that are not literal; the
    words of the lexicons below are all literal, and the literal case does
    not consult it. *)
Definition noOperators : RegExpOps := {| regexContains := λ _ _, false |}.

(** A bag in which every word can be drawn in one way. *)
Definition flatBag : LetterBag := {| getNumCombinations := λ _, 1 |}.

Definition wordList (s : string) (neg : bool) : SearchCondition :=
  {| type := InWordList; stringValue := s; minValue := 0; maxValue := 0;
     negated := neg |}.

Definition rangeCondition (t : SearchType) (lo hi : Z) : SearchCondition :=
  {| type := t; stringValue := ""; minValue := lo; maxValue := hi;
     negated := false |}.

Definition lexicon (words : list string) : WordEngine :=
  snd (@importTextFile plainAuxil (Some words) "lexicon" false emptyEngine).

(** ** Specification-side definitions *)

(** The word without its first letter, and without its last. *)
Definition removeFirst (w : string) : string :=
  match w with
  | EmptyString => EmptyString
  | String _ w' => w'
  end.

Fixpoint removeLast (w : string) : string :=
  match w with
  | EmptyString => EmptyString
  | String _ EmptyString => EmptyString
  | String c w' => String c (removeLast w')
  end.

(** The word a line of a word list contributes, if any. *)
Definition lineWord (buffer : string) : option string :=
  let line := QStr.simplified buffer in
  if skipLine line then None
  else Some (QStr.toUpper (QStr.sectionFirst line)).

Definition wordsOfFile (file : File) : list string :=
  match file with
  | None => []
  | Some lines => omap lineWord lines
  end.

(** The distinct words of a sequence of word-list files. *)
Definition importedWords (files : list File) : gset string :=
  list_to_set (concat (map wordsOfFile files)).

(** One call of [importTextFile]: the file, the lexicon name, whether to
    load definitions. *)
Record TextImport := {
  tiFile : File;
  tiLexName : string;
  tiLoadDefinitions : bool }.

Definition runImports `{!Auxil} (imports : list TextImport) (e : WordEngine)
  : WordEngine :=
  foldl (λ e i, snd (importTextFile (tiFile i) (tiLexName i)
                                    (tiLoadDefinitions i) e))
        e imports.

(** The words of [W] that have the alphagram [alpha]. *)
Definition withAlphagram `{!Auxil} (alpha : string) (W : gset string)
  : gset string :=
  filter (λ u, getAlphagram u = alpha) W.

(** The anagram index counts, for every alphagram, the words of the graph
    that have it. *)
Definition countsGraph `{!Auxil} (e : WordEngine) : Prop :=
  ∀ alpha, default 0 (numAnagramsMap e !! alpha)
           = Z.of_nat (size (withAlphagram alpha (graph e))).

(** The acceptable words listed in the payload of an [InWordList]
    condition. *)
Definition listedAcceptable (e : WordEngine) (payload : string)
  : gset string :=
  filter (λ w, w ∈ graph e) (list_to_set (QStr.split " " payload)).

(** A condition that does not make [search] go to the graph: a word list
    that is not negated, an anagram-count range, a probability-order
    range. *)
Definition keepsOffGraph (c : SearchCondition) : Prop :=
  (type c = InWordList ∧ negated c = false)
  ∨ type c = NumAnagrams
  ∨ type c = ProbabilityOrder.

(** A condition the set-algebra search serves: a word list that is not
    negated, an anagram-count range. *)
Definition setAlgebraCondition (c : SearchCondition) : Prop :=
  (type c = InWordList ∧ negated c = false) ∨ type c = NumAnagrams.

(** The two maps of the stem index have the same keys. *)
Definition stemKeysAgree (e : WordEngine) : Prop :=
  ∀ L, is_Some (stems e !! L) ↔ is_Some (stemAlphagrams e !! L).

(** The alignment of an alphagram against a stem alphagram: both are
    walked from the left, equal letters advance the stem, any other letter
    of the alphagram counts as missing.  The result is what is left of the
    stem and the count. *)
Fixpoint alignment (agram stem : string) (missing : Z) : string * Z :=
  match agram, stem with
  | String a agram', String b stem' =>
      if Ascii.eqb a b then alignment agram' stem' missing
      else alignment agram' stem (missing + 1)
  | _, _ => (stem, missing)
  end.

(** The stem is walked to its end with at most two letters missing. *)
Definition alignsWithinTwo (agram stem : string) : Prop :=
  fst (alignment agram stem 0) = "" ∧ snd (alignment agram stem 0) ≤ 2.

(** Every alphagram of the bucket of length [L] has length [L]. *)
Definition stemBucketsSized (e : WordEngine) : Prop :=
  ∀ L alphaset a,
    stemAlphagrams e !! L = Some alphaset → a ∈ alphaset → QStr.size a = L.

(** The replacements that splice a sub-definition in. *)
Definition expansions (steps : list LinkStep) : nat :=
  length (List.filter (λ st, match st with Expanded _ => true
                                         | Stripped _ => false end) steps).

(** The word a line of a stem file gives, if the line is kept: the first
    word, as it is written. *)
Definition stemLineWord (buffer : string) : option string :=
  let line := QStr.simplified buffer in
  if skipLine line then None else Some (QStr.sectionFirst line).

(** The stems a file gives: the first of its words, and the words after it
    that are as long. *)
Definition stemsOfFile (lines : list string) : list string :=
  match omap stemLineWord lines with
  | [] => []
  | first :: others =>
      first :: List.filter (λ u, QStr.size u =? QStr.size first) others
  end.

(** The length of the stems of a file, 0 when it has none. *)
Definition stemLengthOfFile (lines : list string) : Z :=
  match omap stemLineWord lines with
  | [] => 0
  | first :: _ => QStr.size first
  end.

Definition alphagramSet `{!Auxil} (words : list string) : gset string :=
  list_to_set (map getAlphagram words).

(** The replacements that put the bare word for the link. *)
Definition strips (steps : list LinkStep) : nat :=
  length (List.filter (λ st, match st with Expanded _ => false
                                         | Stripped _ => true end) steps).

(** The replacements a resolution of depth [maxDepth] can make: at most
    [maxDepth] that splice a sub-definition in, then, only after
    [maxDepth] of those, one that puts the bare word. *)
Definition spendsDepth (maxDepth : nat) (steps : list LinkStep) : Prop :=
  ∃ words : list string,
    (steps = map Expanded words ∧ (length words ≤ maxDepth)%nat)
    ∨ (∃ word, steps = (map Expanded words ++ [Stripped word])%list
               ∧ length words = maxDepth).

(** Two words whose definitions refer to each other. *)
Definition cyclicDefinitions : WordEngine :=
  @addDefinition "BA" "to {AB=v} [v]"
    (@addDefinition "AB" "to {BA=v} [v]" emptyEngine).

(** A string that starts with a character that is not white space. *)
Definition startsSolid (s : string) : Prop :=
  match s with
  | String c _ => QStr.isSpace c = false
  | EmptyString => False
  end.

(** A string without white space. *)
Fixpoint allSolid (s : string) : Prop :=
  match s with
  | String c s' => QStr.isSpace c = false ∧ allSolid s'
  | EmptyString => True
  end.

(** The order of the keys of a [QMap<QString, QString>]. *)
Definition keyLt (a b : string) : Prop := String.ltb a b = true.

(** Every stem of the bucket of length [L] has length [L]. *)
Definition stemWordsSized (e : WordEngine) : Prop :=
  ∀ L ws w, stems e !! L = Some ws → w ∈ ws → QStr.size w = L.

(** The alphagram set of a bucket holds the alphagrams of the stems of the
    bucket, and nothing else. *)
Definition stemAlphagramsOfStems `{!Auxil} (e : WordEngine) : Prop :=
  ∀ L a,
    (∃ alphaset, stemAlphagrams e !! L = Some alphaset ∧ a ∈ alphaset)
    ↔ (∃ ws w, stems e !! L = Some ws ∧ w ∈ ws ∧ a = getAlphagram w).

(** What the loop of [importStems] keeps true of its variables. *)
Definition scanConsistent `{!Auxil} (st : StemScan) : Prop :=
  scImported st = Z.of_nat (length (scWords st))
  ∧ Forall (λ w, QStr.size w = scLength st) (scWords st)
  ∧ (scLength st = 0 → scWords st = [] ∧ scAlphagrams st = ∅)
  ∧ (∀ a, a ∈ scAlphagrams st ↔ ∃ w, w ∈ scWords st ∧ a = getAlphagram w).

Definition runStemImports `{!Auxil} (files : list File) (e : WordEngine)
  : WordEngine :=
  foldl (λ e file, snd (importStems file e)) e files.

(** The alphagram and the count a line of an anagram-count table gives,
    if the line is kept. *)
Definition countLine (buffer : string) : option (string * Z) :=
  let line := QStr.simplified buffer in
  if skipLine line then None
  else Some (QStr.toUpper (QStr.sectionFirst line),
             QStr.toInt (QStr.sectionRest line)).

(** The word is an acceptable word of every word list among the
    conditions, of some word list among them. *)
Definition inEveryList (e : WordEngine) (conds : list SearchCondition)
  (w : string) : Prop :=
  ∀ c, c ∈ conds → type c = InWordList →
       w ∈ listedAcceptable e (stringValue c).

Definition inSomeList (e : WordEngine) (conds : list SearchCondition)
  (w : string) : Prop :=
  ∃ c, c ∈ conds ∧ type c = InWordList
       ∧ w ∈ listedAcceptable e (stringValue c).

(** What the word lists of a spec ask for: all of them under conjunction,
    one of them otherwise. *)
Definition inWordLists (e : WordEngine) (spec : SearchSpec) (w : string)
  : Prop :=
  if conjunction spec then inEveryList e (conditions spec) w
  else inSomeList e (conditions spec) w.

(** A condition that sends [search] to the graph: a negated word list, a
    group other than the new OWL2 words, any kind the classifying loop does
    not name. *)
Definition forcesGraph `{!Auxil} (c : SearchCondition) : Prop :=
  match type c with
  | InWordList => negated c = true
  | NumAnagrams | ProbabilityOrder => False
  | BelongToGroup => stringToSearchSet (stringValue c) ≠ SetNewInOwl2
  | _ => True
  end.

(** A condition that counts as a word list: a word list, or the group of
    the new OWL2 words. *)
Definition countsAsWordList `{!Auxil} (c : SearchCondition) : Prop :=
  type c = InWordList
  ∨ (type c = BelongToGroup
     ∧ stringToSearchSet (stringValue c) = SetNewInOwl2).

(** A condition [matchesConditions] tests. *)
Definition isTested `{!Auxil} (c : SearchCondition) : bool :=
  match type c with
  | Prefix | Suffix | InWordList | NumAnagrams => true
  | BelongToGroup =>
      negb (bool_decide (stringToSearchSet (stringValue c)
                         = UnknownSearchSet))
  | _ => false
  end.

(** The string without its character at index [i]. *)
Fixpoint deleteAt (i : nat) (s : string) : string :=
  match s, i with
  | EmptyString, _ => EmptyString
  | String _ s', O => s'
  | String c s', S i' => String c (deleteAt i' s')
  end.

(** The word has [n] letters, and its alphagram with one letter deleted is
    the alphagram of a stem of [n - 1] letters. *)
Definition oneOffStem `{!Auxil} (e : WordEngine) (n : Z) (word : string)
  : Prop :=
  QStr.size word = n
  ∧ ∃ ws stem i,
      stems e !! (n - 1) = Some ws ∧ stem ∈ ws
      ∧ (i < String.length (getAlphagram word))%nat
      ∧ deleteAt i (getAlphagram word) = getAlphagram stem.

(** The character does not occur in the string. *)
Fixpoint lacks (c : ascii) (s : string) : Prop :=
  match s with
  | EmptyString => True
  | String d s' => d ≠ c ∧ lacks c s'
  end.

(** The order of a [std::set<QChar>]. *)
Definition charLt (a b : ascii) : Prop :=
  (nat_of_ascii a < nat_of_ascii b)%nat.

(** The key [addDefinition] files a sense under: the word after its first
    bracket, the empty string when it has none. *)
Definition senseKey (def : string) : string :=
  match posTag def with Some p => p | None => "" end.

(** The order a [std::multimap] keeps its keys in: equal keys may follow
    each other. *)
Definition keyLe (a b : string) : Prop := String.ltb b a = false.

(** ** Properties *)

Section Properties.
Context `{!Auxil} {regExp : RegExpOps}.

(** *** Ordered sets *)

Lemma setToList_perm (s : gset string) : setToList s ≡ₚ elements s.
Proof. apply merge_sort_Permutation. Qed.

Lemma elem_of_setToList (s : gset string) (w : string) :
  w ∈ setToList s ↔ w ∈ s.
Proof. rewrite setToList_perm. apply elem_of_elements. Qed.

#[local] Instance string_le_total : Total string_le.
Proof. intros a b. apply String.leb_total. Qed.

Lemma setToList_sorted (s : gset string) : Sorted string_le (setToList s).
Proof. apply Sorted_merge_sort, _. Qed.

Lemma NoDup_setToList (s : gset string) : NoDup (setToList s).
Proof. rewrite setToList_perm. apply NoDup_elements. Qed.

Lemma list_to_set_setToList (s : gset string) :
  list_to_set (setToList s) = s.
Proof.
  apply set_eq. intros w.
  rewrite elem_of_list_to_set. apply elem_of_setToList.
Qed.

Lemma foldl_insert_union (l : list string) (into : gset string) :
  foldl (λ acc w, {[ w ]} ∪ acc) into l = list_to_set l ∪ into.
Proof.
  revert into. induction l as [|w l IH]; intros into; simpl.
  - set_solver.
  - rewrite IH. set_solver.
Qed.

Lemma insertAll_union (from into : gset string) :
  insertAll from into = from ∪ into.
Proof.
  unfold insertAll. rewrite foldl_insert_union.
  by rewrite list_to_set_setToList.
Qed.

(** *** Importing a compiled graph *)

(** C9: [importDawgFile] returns what the graph import returns, and the
    lexicon name afterwards is the supplied name exactly when the graph
    import succeeded and [reverse] is false; otherwise it is the name the
    engine had. *)
Theorem importDawgFile_lexiconName `{!GraphOps}
  (filename lexName : string) (reverse : bool) (e : WordEngine) :
  let ok := fst (graphImportDawgFile (graph e) filename reverse) in
  fst (importDawgFile filename lexName reverse e) = ok
  ∧ lexiconName (snd (importDawgFile filename lexName reverse e))
    = if ok && negb reverse then lexName else lexiconName e.
Proof.
  unfold importDawgFile.
  destruct (graphImportDawgFile (graph e) filename reverse) as [ok g].
  destruct ok, reverse; simpl; split; reflexivity.
Qed.

(** *** Importing stems *)

Lemma importStemLine_length_fixed (st : StemScan) (buffer : string) :
  scLength st ≠ 0 → scLength (importStemLine st buffer) = scLength st.
Proof.
  intros Hne. unfold importStemLine.
  destruct (skipLine _); [done|].
  destruct (Z.eqb_spec (scLength st) 0) as [|_]; [done|].
  by destruct (negb _).
Qed.


(** The branch of [importStems] that appends finds its alphagram set:
    the two maps keep the same keys. *)
Lemma importStems_stemKeysAgree (file : File) (e : WordEngine) :
  stemKeysAgree e → stemKeysAgree (snd (importStems file e)).
Proof.
  intros Hkeys. destruct file as [lines|]; [|done].
  unfold importStems. set (sc := scanStems lines). intros L.
  destruct (stems e !! scLength sc) as [old|] eqn:Hold;
    cbn [snd stems stemAlphagrams].
  - destruct (proj1 (Hkeys (scLength sc))) as [olda Holda]; [by eexists|].
    rewrite Holda.
    destruct (decide (L = scLength sc)) as [->|Hne].
    + rewrite !lookup_insert_eq. split; by eexists.
    + rewrite !lookup_insert_ne by done. apply Hkeys.
  - unfold mapInsertNew.
    destruct (stemAlphagrams e !! scLength sc) as [olda|] eqn:Holda.
    + destruct (proj2 (Hkeys (scLength sc))) as [old Hold']; [by eexists|].
      congruence.
    + destruct (decide (L = scLength sc)) as [->|Hne].
      * rewrite !lookup_insert_eq. split; by eexists.
      * rewrite !lookup_insert_ne by done. apply Hkeys.
Qed.

(** *** Hook words *)

Lemma substring_all (s : string) : String.substring 0 (String.length s) s = s.
Proof.
  induction s as [|c s IH]; simpl; [done|]. by rewrite IH.
Qed.

Lemma substring_tail (n : nat) (c : ascii) (s : string) :
  String.substring (S n) (String.length s - n) (String c s)
  = String.substring n (String.length s - n) s.
Proof. reflexivity. Qed.

Lemma right_removeFirst (w : string) :
  QStr.right (QStr.size w - 1) w = removeFirst w.
Proof.
  unfold QStr.right, QStr.size. destruct w as [|c w]; [done|].
  cbn [String.length removeFirst].
  destruct (Z.ltb_spec (Z.of_nat (S (String.length w)) - 1) 0); [lia|].
  destruct (Z.leb_spec (Z.of_nat (S (String.length w)))
                       (Z.of_nat (S (String.length w)) - 1)); [lia|].
  simpl orb. cbv iota.
  replace (Z.to_nat (Z.of_nat (S (String.length w)) - 1))
    with (String.length w) by lia.
  replace (S (String.length w) - String.length w)%nat with 1%nat by lia.
  simpl. apply substring_all.
Qed.

Lemma substring_removeLast (c : ascii) (w : string) :
  String.substring 0 (String.length w) (String c w) = removeLast (String c w).
Proof.
  revert c. induction w as [|d w IH]; intros c; [done|].
  cbn [String.length]. change (removeLast (String c (String d w)))
    with (String c (removeLast (String d w))).
  rewrite <- IH. reflexivity.
Qed.

Lemma left_removeLast (w : string) :
  QStr.left (QStr.size w - 1) w = removeLast w.
Proof.
  unfold QStr.left, QStr.size. destruct w as [|c w]; [done|].
  cbn [String.length].
  destruct (Z.ltb_spec (Z.of_nat (S (String.length w)) - 1) 0); [lia|].
  destruct (Z.leb_spec (Z.of_nat (S (String.length w)))
                       (Z.of_nat (S (String.length w)) - 1)); [lia|].
  simpl orb. cbv iota.
  replace (Z.to_nat (Z.of_nat (S (String.length w)) - 1))
    with (String.length w) by lia.
  apply substring_removeLast.
Qed.

(** C6, as the code has it: a word is in [SetFrontHooks] iff the word
    without its first letter is acceptable, in [SetBackHooks] iff the word
    without its last letter is acceptable, and in [SetHookWords] iff one of
    the two holds. *)
Theorem isSetMember_hooks (e : WordEngine) (w : string) :
  (isSetMember e w SetFrontHooks = true
   ↔ isAcceptable e (removeFirst w) = true)
  ∧ (isSetMember e w SetBackHooks = true
     ↔ isAcceptable e (removeLast w) = true)
  ∧ (isSetMember e w SetHookWords = true
     ↔ isSetMember e w SetFrontHooks = true
       ∨ isSetMember e w SetBackHooks = true).
Proof.
  unfold isSetMember. rewrite right_removeFirst, left_removeLast.
  repeat split; try done.
  - rewrite orb_true_iff. tauto.
  - rewrite orb_true_iff. tauto.
Qed.

(** *** The anagram index *)

Lemma addDefinition_graph (word definition : string) (e : WordEngine) :
  graph (addDefinition word definition e) = graph e
  ∧ numAnagramsMap (addDefinition word definition e) = numAnagramsMap e.
Proof. unfold addDefinition. by destruct (_ || _). Qed.

Lemma withAlphagram_add_new (alpha word : string) (g : gset string) :
  word ∉ g →
  size (withAlphagram alpha (addWord g word))
  = if decide (getAlphagram word = alpha)
    then S (size (withAlphagram alpha g))
    else size (withAlphagram alpha g).
Proof.
  intros Hnew. unfold withAlphagram, addWord.
  destruct (decide (getAlphagram word = alpha)) as [Heq|Hne].
  - assert (Hf : filter (λ u, getAlphagram u = alpha) ({[ word ]} ∪ g)
                 = {[ word ]} ∪ filter (λ u, getAlphagram u = alpha) g)
      by set_solver.
    rewrite Hf, size_union by set_solver.
    by rewrite size_singleton.
  - assert (Hf : filter (λ u, getAlphagram u = alpha) ({[ word ]} ∪ g)
                 = filter (λ u, getAlphagram u = alpha) g)
      by set_solver.
    by rewrite Hf.
Qed.

Lemma importTextLine_graph (ld : bool) (n : Z) (e : WordEngine)
  (buffer : string) :
  graph (snd (importTextLine ld (n, e) buffer))
  = match lineWord buffer with
    | Some word => addWord (graph e) word
    | None => graph e
    end.
Proof.
  unfold importTextLine, lineWord.
  destruct (skipLine _); [done|].
  destruct ld; simpl; [|done].
  by rewrite (proj1 (addDefinition_graph _ _ _)).
Qed.

Lemma importTextLine_counts (ld : bool) (n : Z) (e : WordEngine)
  (buffer : string) :
  countsGraph e → countsGraph (snd (importTextLine ld (n, e) buffer)).
Proof.
  intros Hinv alpha. unfold importTextLine.
  destruct (skipLine _); [apply Hinv|].
  set (word := QStr.toUpper _).
  assert (Hgoal : ∀ e',
    graph e' = addWord (graph e) word →
    numAnagramsMap e'
    = (if negb (containsWord (graph e) word)
       then <[ getAlphagram word :=
                 default 0 (numAnagramsMap e !! getAlphagram word) + 1 ]>
              (numAnagramsMap e)
       else numAnagramsMap e) →
    default 0 (numAnagramsMap e' !! alpha)
    = Z.of_nat (size (withAlphagram alpha (graph e')))).
  { intros e' -> ->. unfold containsWord.
    destruct (bool_decide_reflect (word ∈ graph e)) as [Hin|Hnew]; simpl.
    - replace (addWord (graph e) word) with (graph e)
        by (unfold addWord; set_solver).
      apply Hinv.
    - rewrite withAlphagram_add_new by done.
      destruct (decide (getAlphagram word = alpha)) as [<-|Hne].
      + rewrite lookup_insert_eq. simpl. rewrite Hinv. lia.
      + rewrite lookup_insert_ne by done. apply Hinv. }
  destruct ld; cbn [snd].
  - apply Hgoal.
    + by rewrite (proj1 (addDefinition_graph _ _ _)).
    + by rewrite (proj2 (addDefinition_graph _ _ _)).
  - by apply Hgoal.
Qed.

Lemma importTextLines_state (ld : bool) (lines : list string) (n : Z)
  (e : WordEngine) :
  countsGraph e →
  countsGraph (snd (foldl (importTextLine ld) (n, e) lines))
  ∧ graph (snd (foldl (importTextLine ld) (n, e) lines))
    = list_to_set (omap lineWord lines) ∪ graph e.
Proof.
  revert n e. induction lines as [|buffer lines IH]; intros n e Hinv.
  - simpl. split; [done|]. set_solver.
  - cbn [foldl].
    pose proof (importTextLine_counts ld n e buffer Hinv) as Hinv'.
    pose proof (importTextLine_graph ld n e buffer) as Hg.
    destruct (importTextLine ld (n, e) buffer) as [n' e'].
    simpl in Hinv', Hg.
    destruct (IH n' e' Hinv') as [Hc Hgr].
    split; [done|]. rewrite Hgr, Hg.
    change (omap lineWord (buffer :: lines))
      with (match lineWord buffer with
            | Some word => word :: omap lineWord lines
            | None => omap lineWord lines
            end).
    destruct (lineWord buffer) as [word|]; [|reflexivity].
    unfold addWord. rewrite list_to_set_cons.
    by rewrite (assoc_L (∪)), (comm_L (∪) _ {[ word ]}).
Qed.

Lemma importTextFile_state (file : File) (lexName : string) (ld : bool)
  (e : WordEngine) :
  countsGraph e →
  countsGraph (snd (importTextFile file lexName ld e))
  ∧ graph (snd (importTextFile file lexName ld e))
    = list_to_set (wordsOfFile file) ∪ graph e.
Proof.
  intros Hinv. unfold importTextFile, wordsOfFile.
  destruct file as [lines|].
  - destruct (importTextLines_state ld lines 0 e Hinv) as [Hc Hg].
    destruct (foldl _ _ _) as [n' e']. simpl in *. by split.
  - simpl. split; [done|]. set_solver.
Qed.

Lemma runImports_state (imports : list TextImport) (e : WordEngine) :
  countsGraph e →
  countsGraph (runImports imports e)
  ∧ graph (runImports imports e)
    = importedWords (map tiFile imports) ∪ graph e.
Proof.
  revert e. induction imports as [|i imports IH]; intros e Hinv.
  - split; [done|]. unfold importedWords. set_solver.
  - unfold runImports. cbn [foldl].
    destruct (importTextFile_state (tiFile i) (tiLexName i)
                (tiLoadDefinitions i) e Hinv) as [Hc Hg].
    destruct (IH _ Hc) as [Hc' Hg']. unfold runImports in Hc', Hg'.
    split; [done|]. rewrite Hg', Hg. unfold importedWords.
    cbn [map concat]. rewrite list_to_set_app_L. set_solver.
Qed.

(** C4: after any sequence of [importTextFile] calls on a new engine,
    [numAnagrams w] is the number of distinct imported words that have the
    alphagram of [w]; it is 0 when no imported word has it. *)
Theorem numAnagrams_counts_imported (imports : list TextImport) (w : string) :
  let e := runImports imports emptyEngine in
  let sharing :=
    withAlphagram (getAlphagram w) (importedWords (map tiFile imports)) in
  numAnagrams e w = Z.of_nat (size sharing)
  ∧ (sharing = ∅ → numAnagrams e w = 0).
Proof.
  intros e sharing.
  assert (Hinv0 : countsGraph emptyEngine).
  { intros alpha. unfold withAlphagram. simpl.
    rewrite lookup_empty, filter_empty_L, size_empty;
      [reflexivity | apply _]. }
  destruct (runImports_state imports emptyEngine Hinv0) as [Hc Hg].
  fold e in Hc, Hg.
  assert (Hnum : numAnagrams e w = Z.of_nat (size sharing)).
  { unfold numAnagrams. specialize (Hc (getAlphagram w)).
    subst sharing. rewrite Hg in Hc. simpl in Hc.
    rewrite (right_id_L ∅ (∪)) in Hc. rewrite <- Hc.
    by destruct (numAnagramsMap e !! getAlphagram w). }
  split; [done|]. intros Hempty. rewrite Hnum, Hempty. done.
Qed.

(** *** The set-algebra search *)

Lemma acceptableWords_fold (e : WordEngine) (l : list string)
  (acc : gset string) :
  foldl (λ wordSet w, if isAcceptable e w then {[ w ]} ∪ wordSet else wordSet)
        acc l
  = filter (λ w, w ∈ graph e) (list_to_set l) ∪ acc.
Proof.
  revert acc. induction l as [|w l IH]; intros acc; cbn [foldl].
  - set_solver.
  - rewrite IH. unfold isAcceptable, containsWord.
    destruct (bool_decide_reflect (w ∈ graph e)); set_solver.
Qed.

Lemma acceptableWords_listed (e : WordEngine) (payload : string) :
  acceptableWords e payload = listedAcceptable e payload.
Proof.
  unfold acceptableWords, listedAcceptable.
  rewrite acceptableWords_fold. set_solver.
Qed.

Lemma filter_elem_of_inter (X Y : gset string) :
  filter (λ w, w ∈ X) Y = X ∩ Y.
Proof. set_solver. Qed.

(** The set-algebra search of two word lists is their intersection under
    conjunction and their union otherwise, negated or not. *)
Lemma nonGraphSearch_two_word_lists (e : WordEngine) (spec : SearchSpec)
  (cA cB : SearchCondition) :
  conditions spec = [cA; cB] →
  type cA = InWordList → type cB = InWordList →
  list_to_set (nonGraphSearch e spec)
  = (if conjunction spec
     then listedAcceptable e (stringValue cA)
          ∩ listedAcceptable e (stringValue cB)
     else listedAcceptable e (stringValue cA)
          ∪ listedAcceptable e (stringValue cB))
  ∧ NoDup (nonGraphSearch e spec).
Proof.
  intros Hc HA HB. unfold nonGraphSearch. rewrite Hc.
  cbn [nonGraphLoop]. rewrite HA, HB.
  rewrite !decide_False by discriminate.
  rewrite !bool_decide_eq_true_2 by reflexivity.
  cbn [negb]. rewrite !acceptableWords_listed.
  change (0 =? 0) with true. change (0 + 1 =? 0) with false. cbv iota.
  set (LA := listedAcceptable e (stringValue cA)).
  set (LB := listedAcceptable e (stringValue cB)).
  destruct (conjunction spec).
  - rewrite filter_elem_of_inter.
    destruct (decide (LA ∩ LB = ∅)) as [Hempty|Hne].
    + split; [|constructor]. rewrite Hempty. set_solver.
    + cbn [finalWordSet minAnagrams maxAnagrams].
      change (0 <? 0) with false. change (MAX_ANAGRAMS <? MAX_ANAGRAMS)
        with false.
      rewrite andb_false_r.
      split; [apply list_to_set_setToList | apply NoDup_setToList].
  - rewrite insertAll_union.
    cbn [finalWordSet minAnagrams maxAnagrams].
    change (0 <? 0) with false. change (MAX_ANAGRAMS <? MAX_ANAGRAMS)
      with false.
    rewrite andb_false_r.
    split; [|apply NoDup_setToList].
    rewrite list_to_set_setToList. set_solver.
Qed.

(** *** The dispatch of [search] *)

Lemma classify_keepsOffGraph (st : Classified) (c : SearchCondition) :
  keepsOffGraph c →
  mustSearchGraph (classify st c) = mustSearchGraph st
  ∧ clConditions (classify st c) = clConditions st
  ∧ wordListCondition (classify st c)
    = wordListCondition st || bool_decide (type c = InWordList).
Proof.
  intros [[Ht Hn]|[Ht|Ht]]; unfold classify; rewrite Ht; cbn.
  - rewrite Hn. by rewrite orb_true_r.
  - by rewrite orb_false_r.
  - by rewrite orb_false_r.
Qed.

Lemma classify_fold_keepsOffGraph (conds : list SearchCondition)
  (st : Classified) :
  Forall keepsOffGraph conds →
  mustSearchGraph (foldl classify st conds) = mustSearchGraph st
  ∧ clConditions (foldl classify st conds) = clConditions st
  ∧ wordListCondition (foldl classify st conds)
    = wordListCondition st
      || existsb (λ c, bool_decide (type c = InWordList)) conds.
Proof.
  intros Hall. revert st.
  induction Hall as [|c conds Hc _ IH]; intros st; cbn [foldl existsb].
  - by rewrite orb_false_r.
  - destruct (classify_keepsOffGraph st c Hc) as (Hm & Hl & Hw).
    destruct (IH (classify st c)) as (Hm' & Hl' & Hw').
    rewrite Hm', Hl', Hw', Hm, Hl, Hw. by rewrite orb_assoc.
Qed.

(** The classifying loop sends a spec of such conditions, one of them a
    word list, to [nonGraphSearch]. *)
Lemma search_dispatch `{!GraphOps, !SpecOps, !LetterBag}
  (e : WordEngine) (spec : SearchSpec) (allCaps : bool) :
  Forall keepsOffGraph (conditions (optimize spec)) →
  Exists (λ c, type c = InWordList) (conditions (optimize spec)) →
  search e spec allCaps = nonGraphSearch e (optimize spec).
Proof.
  intros Hall Hex. unfold search, classifyAll.
  destruct (classify_fold_keepsOffGraph (conditions (optimize spec))
              {| mustSearchGraph := false; wordListCondition := false;
                 probRangeMin := 0; probRangeMax := 0; clIndex := 0%nat;
                 clConditions := conditions (optimize spec) |} Hall)
    as (Hm & Hl & Hw).
  rewrite Hm, Hl, Hw. cbn [mustSearchGraph wordListCondition clConditions].
  assert (Hsome : existsb (λ c, bool_decide (type c = InWordList))
                          (conditions (optimize spec)) = true).
  { apply existsb_exists. apply Exists_exists in Hex as (c & Hin & Ht).
    exists c. split; [by apply list_elem_of_In|].
    by apply bool_decide_eq_true_2. }
  rewrite Hsome. cbn [orb andb negb].
  by destruct (optimize spec).
Qed.

Lemma setAlgebraCondition_keepsOffGraph (c : SearchCondition) :
  setAlgebraCondition c → keepsOffGraph c.
Proof. intros [H1|H2]; [by left|by right; left]. Qed.

(** C2, as the code has it: when every condition of the optimized spec
    is a word list that is not negated or an anagram-count range, and one
    of them is a word list, [search] returns what [nonGraphSearch] returns
    on the optimized spec, and returns the same with any other graph search
    in place. *)
Theorem search_set_algebra_path `{!GraphOps, !SpecOps, !LetterBag}
  (e : WordEngine) (spec : SearchSpec) (allCaps : bool) :
  Forall setAlgebraCondition (conditions (optimize spec)) →
  Exists (λ c, type c = InWordList) (conditions (optimize spec)) →
  search e spec allCaps = nonGraphSearch e (optimize spec)
  ∧ ∀ otherGraph : GraphOps,
      @search _ _ otherGraph _ _ e spec allCaps = search e spec allCaps.
Proof.
  intros Hall Hex.
  assert (Hoff : Forall keepsOffGraph (conditions (optimize spec))).
  { eapply Forall_impl; [exact Hall|].
    apply setAlgebraCondition_keepsOffGraph. }
  split; [by apply search_dispatch|].
  intros otherGraph. by rewrite !search_dispatch.
Qed.

(** C1, as the code has it: when the optimized spec consists of two word
    lists, neither negated, [search] returns, without repetition, the
    acceptable words listed in both under conjunction and the acceptable
    words listed in either otherwise. *)
Theorem search_two_word_lists `{!GraphOps, !SpecOps, !LetterBag}
  (e : WordEngine) (spec : SearchSpec) (cA cB : SearchCondition)
  (allCaps : bool) :
  conditions (optimize spec) = [cA; cB] →
  type cA = InWordList → type cB = InWordList →
  negated cA = false → negated cB = false →
  list_to_set (search e spec allCaps)
  = (if conjunction (optimize spec)
     then listedAcceptable e (stringValue cA)
          ∩ listedAcceptable e (stringValue cB)
     else listedAcceptable e (stringValue cA)
          ∪ listedAcceptable e (stringValue cB))
  ∧ NoDup (search e spec allCaps).
Proof.
  intros Hc HA HB HnA HnB.
  rewrite search_dispatch.
  - by apply nonGraphSearch_two_word_lists.
  - rewrite Hc. constructor; [by left|]. constructor; [by left|]. constructor.
  - rewrite Hc. by constructor.
Qed.

(** *** The graph path *)

Lemma elem_of_mid {A} (pos alength : Z) (l : list A) (x : A) :
  x ∈ mid pos alength l → x ∈ l.
Proof.
  unfold mid. intros Hin.
  apply (subseteq_drop (Z.to_nat pos) l).
  by apply (subseteq_take _ _ _ Hin).
Qed.

Lemma qmapInsert_values (k v : string) (m : list (string * string))
  (x : string) :
  x ∈ map snd (qmapInsert k v m) → x = v ∨ x ∈ map snd m.
Proof.
  induction m as [|[k' v'] m IH]; cbn [qmapInsert map snd].
  - intros Hin. left. by apply list_elem_of_singleton in Hin.
  - destruct (String.ltb k k').
    + cbn [map snd]. intros [->|Hin]%elem_of_cons; [by left|by right].
    + destruct (String.eqb k k'); cbn [map snd].
      * intros [->|Hin]%elem_of_cons; [by left|].
        right. by apply elem_of_cons; right.
      * intros [->|Hin]%elem_of_cons.
        -- right. by apply elem_of_cons; left.
        -- destruct (IH Hin) as [->|Hin']; [by left|].
           right. by apply elem_of_cons; right.
Qed.

Lemma probMap_values `{!LetterBag} (wordList : list string)
  (acc : list (string * string)) (x : string) :
  x ∈ map snd (foldl (λ probMap word, qmapInsert (radixOf word) word probMap)
                     acc wordList) →
  x ∈ wordList ∨ x ∈ map snd acc.
Proof.
  revert acc. induction wordList as [|w wl IH]; intros acc; cbn [foldl].
  - by right.
  - intros Hin. destruct (IH _ Hin) as [Hin'|Hin'].
    + left. by apply elem_of_cons; right.
    + destruct (qmapInsert_values _ _ _ _ Hin') as [->|Hacc].
      * left. by apply elem_of_cons; left.
      * by right.
Qed.

(** Whatever the graph search returns, a word [search] returns on the graph
    path (capitals not forced) passes [matchesConditions]. *)
Lemma afterGraphSearch_matches `{!LetterBag} (e : WordEngine)
  (conds : list SearchCondition) (pmin pmax : Z) (found : list string)
  (w : string) :
  w ∈ afterGraphSearch e conds pmin pmax false found →
  matchesConditions e w conds = true.
Proof.
  unfold afterGraphSearch.
  assert (Hfilter : ∀ x,
            x ∈ List.filter (λ w, matchesConditions e w conds) found →
            matchesConditions e x conds = true).
  { intros x Hx. apply list_elem_of_In, filter_In in Hx. tauto. }
  destruct (0 <? pmax); cbn [andb].
  - destruct (_ <? pmin); [by intros ?%elem_of_nil|].
    intros Hin%elem_of_mid.
    destruct (probMap_values _ [] _ Hin) as [Hw|Hnil]; [by apply Hfilter|].
    by apply elem_of_nil in Hnil.
  - apply Hfilter.
Qed.

Lemma classify_graph_kept (st : Classified) (c : SearchCondition) :
  mustSearchGraph st = true → mustSearchGraph (classify st c) = true.
Proof.
  intros Hm. unfold classify.
  destruct (type c); cbn; try done.
  - by destruct (decide _).
  - by destruct (negated c).
Qed.

Lemma classify_fold_graph_kept (conds : list SearchCondition)
  (st : Classified) :
  mustSearchGraph st = true → mustSearchGraph (foldl classify st conds) = true.
Proof.
  revert st. induction conds as [|c conds IH]; intros st Hm; [done|].
  cbn [foldl]. by apply IH, classify_graph_kept.
Qed.

Lemma classify_fold_negated (conds : list SearchCondition) (st : Classified) :
  Exists (λ c, type c = InWordList ∧ negated c = true) conds →
  mustSearchGraph (foldl classify st conds) = true.
Proof.
  intros Hex. revert st.
  induction Hex as [c conds [Ht Hn]|c conds _ IH]; intros st; cbn [foldl].
  - apply classify_fold_graph_kept. unfold classify. rewrite Ht, Hn. done.
  - apply IH.
Qed.

Lemma classify_fold_conditions (conds : list SearchCondition)
  (st : Classified) :
  Forall (λ c, type c ≠ BelongToGroup) conds →
  clConditions (foldl classify st conds) = clConditions st.
Proof.
  intros Hall. revert st.
  induction Hall as [|c conds Hc _ IH]; intros st; [done|].
  cbn [foldl]. rewrite IH. unfold classify. by destruct (type c).
Qed.

Lemma matchesLoop_word_list (e : WordEngine) (wordUpper : string)
  (conds : list SearchCondition) (c : SearchCondition) :
  matchesLoop e wordUpper conds = true →
  c ∈ conds → type c = InWordList →
  containsWordExpression wordUpper (stringValue c) = negb (negated c).
Proof.
  induction conds as [|d conds IH]; intros Hm Hin Ht;
    [by apply elem_of_nil in Hin|].
  assert (Hrest : matchesLoop e wordUpper conds = true).
  { cbn [matchesLoop] in Hm.
    destruct (type d); try done;
      repeat match type of Hm with
             | (if ?b then _ else _) = true => destruct b; try done
             end. }
  apply elem_of_cons in Hin as [->|Hin]; [|by apply IH].
  cbn [matchesLoop] in Hm. rewrite Ht in Hm.
  destruct (containsWordExpression wordUpper (stringValue d)), (negated d);
    done.
Qed.

(** A negated word list sends [search] to the graph, and no word of the
    list comes back, whatever the graph search, the optimization and the
    letter bag are (the spec having no group condition, whose rewriting
    is another matter). *)
Lemma search_negated_word_list `{!GraphOps, !SpecOps, !LetterBag}
  (e : WordEngine) (spec : SearchSpec) (c : SearchCondition) (w : string) :
  Forall (λ c, type c ≠ BelongToGroup) (conditions (optimize spec)) →
  c ∈ conditions (optimize spec) →
  type c = InWordList → negated c = true →
  w ∈ search e spec false →
  containsWordExpression (QStr.toUpper w) (stringValue c) = false.
Proof.
  intros Hng Hin Ht Hn. unfold search, classifyAll.
  rewrite classify_fold_negated, classify_fold_conditions; [|done|].
  - rewrite andb_false_r. cbn [conditions clConditions].
    intros Hw%afterGraphSearch_matches.
    rewrite (matchesLoop_word_list e _ _ c Hw Hin Ht). by rewrite Hn.
  - apply Exists_exists. by exists c.
Qed.

(** [nonGraphSearch] does not look at the flag: it returns the acceptable
    words of a negated list. *)
Lemma nonGraphSearch_negated_word_list (e : WordEngine) (payload : string)
  (conj : bool) :
  list_to_set (nonGraphSearch e {| conditions := [wordList payload true];
                                   conjunction := conj |})
  = listedAcceptable e payload.
Proof.
  unfold nonGraphSearch, wordList.
  cbn [conditions conjunction nonGraphLoop type stringValue].
  rewrite decide_False by discriminate.
  rewrite bool_decide_eq_true_2 by reflexivity.
  cbn [negb]. change (0 =? 0) with true. cbv iota.
  cbn [finalWordSet minAnagrams maxAnagrams].
  change (0 <? 0) with false.
  change (MAX_ANAGRAMS <? MAX_ANAGRAMS) with false.
  rewrite andb_false_r, acceptableWords_listed.
  apply list_to_set_setToList.
Qed.

(** What [search] returns when the classifying loop does not choose the
    set-algebra path. *)
Lemma search_graph_path `{!GraphOps, !SpecOps, !LetterBag}
  (e : WordEngine) (spec : SearchSpec) (allCaps : bool) :
  let cl := classifyAll (conditions (optimize spec)) in
  let optimizedSpec := {| conditions := clConditions cl;
                          conjunction := conjunction (optimize spec) |} in
  wordListCondition cl && negb (mustSearchGraph cl) = false →
  search e spec allCaps
  = afterGraphSearch e (clConditions cl) (probRangeMin cl) (probRangeMax cl)
                     allCaps (graphSearch (graph e) optimizedSpec).
Proof. intros cl optimizedSpec Hpath. unfold search. fold cl. by rewrite Hpath. Qed.

(** *** Type-one eights *)

Lemma alignment_missing_mono (agram stem : string) (missing : Z) :
  missing ≤ snd (alignment agram stem missing).
Proof.
  revert stem missing.
  induction agram as [|a agram IH]; intros stem missing; [simpl; lia|].
  destruct stem as [|b stem]; [simpl; lia|]. cbn [alignment].
  destruct (Ascii.eqb a b); [apply IH|].
  specialize (IH (String b stem) (missing + 1)). lia.
Qed.

(** The loop of the code leaves early only with more than two letters
    missing, so it agrees with the alignment on "at most two". *)
Lemma missingLetters_alignment (agram stem : string) (missing : Z) :
  missingLetters agram stem missing ≤ 2
  ↔ snd (alignment agram stem missing) ≤ 2.
Proof.
  revert stem missing.
  induction agram as [|a agram IH]; intros stem missing; [done|].
  destruct stem as [|b stem]; [done|]. cbn [missingLetters alignment].
  destruct (Ascii.eqb a b); [apply IH|].
  destruct (Z.ltb_spec 2 (missing + 1)) as [Hgt|Hle]; [|apply IH].
  pose proof (alignment_missing_mono agram (String b stem) (missing + 1)).
  lia.
Qed.

(** Every step of the alignment uses one letter of the alphagram; the
    walk stops at the end of the stem or of the alphagram. *)
Lemma alignment_steps (agram stem : string) (missing : Z) :
  let rest := fst (alignment agram stem missing) in
  let missing' := snd (alignment agram stem missing) in
  QStr.size rest ≤ QStr.size stem
  ∧ (rest = ""
     ∨ missing' - missing + (QStr.size stem - QStr.size rest)
       = QStr.size agram).
Proof.
  unfold QStr.size. revert stem missing.
  induction agram as [|a agram IH]; intros stem missing.
  - simpl. destruct stem; simpl; lia.
  - destruct stem as [|b stem]; [simpl; split; [lia|by left]|].
    cbn [alignment]. destruct (Ascii.eqb a b).
    + specialize (IH stem missing). cbn zeta in IH.
      cbn [String.length]. destruct IH as [Hle [Hend|Hcount]].
      * split; [lia|by left].
      * split; [lia|right; lia].
    + specialize (IH (String b stem) (missing + 1)). cbn zeta in IH.
      cbn [String.length] in *. destruct IH as [Hle [Hend|Hcount]].
      * split; [lia|by left].
      * split; [lia|right; lia].
Qed.

Lemma missingLetters_alignsWithinTwo (agram stem : string) :
  QStr.size stem + 2 ≤ QStr.size agram →
  missingLetters agram stem 0 ≤ 2 ↔ alignsWithinTwo agram stem.
Proof.
  intros Hsize. rewrite missingLetters_alignment. unfold alignsWithinTwo.
  split; [|tauto]. intros Hle. split; [|done].
  destruct (alignment_steps agram stem 0) as [Hrest [Hend|Hcount]]; [done|].
  destruct (fst (alignment agram stem 0)) as [|c rest] eqn:Hfst; [done|].
  unfold QStr.size in *. cbn [String.length] in *. lia.
Qed.

(** C7: with alphagrams as long as their words and stem buckets that
    hold alphagrams of their own length, a word is in [SetTypeOneEights] iff
    it has eight letters, the bucket of length six exists, and one of its
    alphagrams is walked to its end by the alignment with the alphagram
    of the word, at most two letters missing. *)
Theorem isSetMember_typeOneEights (e : WordEngine) (w : string) :
  (∀ u, QStr.size (getAlphagram u) = QStr.size u) →
  stemBucketsSized e →
  isSetMember e w SetTypeOneEights = true
  ↔ QStr.size w = 8
    ∧ ∃ alphaset,
        stemAlphagrams e !! 6 = Some alphaset
        ∧ ∃ s, s ∈ alphaset ∧ alignsWithinTwo (getAlphagram w) s.
Proof.
  intros Hlen Hsized. cbn [isSetMember].
  destruct (Z.eqb_spec (QStr.size w) 8) as [H8|Hn8]; cbn [negb].
  - rewrite H8. change (8 - 2) with 6.
    destruct (stemAlphagrams e !! 6) as [alphaset|] eqn:Hbucket.
    + assert (Hiff : ∀ s, s ∈ alphaset →
                (missingLetters (getAlphagram w) s 0 <=? 2) = true
                ↔ alignsWithinTwo (getAlphagram w) s).
      { intros s Hs. rewrite Z.leb_le.
        apply missingLetters_alignsWithinTwo.
        rewrite (Hsized 6 alphaset s Hbucket Hs), Hlen, H8. lia. }
      rewrite existsb_exists. split.
      * intros (s & Hin & Hm). split; [done|]. exists alphaset.
        split; [done|]. apply list_elem_of_In, elem_of_setToList in Hin.
        exists s. split; [done|]. by apply Hiff.
      * intros (_ & alphaset' & [= <-] & s & Hs & Ha).
        exists s. split; [|by apply Hiff].
        by apply list_elem_of_In, elem_of_setToList.
    + split; [done|]. by intros (_ & alphaset & ? & _).
  - split; [done|]. by intros [? _].
Qed.

Lemma rev_string_startsSolid (cur acc : string) :
  allSolid cur → (cur = "" → startsSolid acc) → (cur ≠ "" ∨ startsSolid acc) →
  startsSolid (QStr.rev_string acc cur).
Proof.
  revert acc. induction cur as [|c cur IH]; intros acc Hall Hacc Hne.
  - simpl. by apply Hacc.
  - cbn [QStr.rev_string]. destruct Hall as [Hc Hall].
    apply IH; [done| |by right]. by intros _.
Qed.

Lemma tokens_aux_startSolid (s cur : string) :
  allSolid cur → Forall startsSolid (QStr.tokens_aux cur s).
Proof.
  revert cur. induction s as [|c s IH]; intros cur Hcur.
  - simpl. destruct cur as [|d cur]; [constructor|].
    constructor; [|constructor].
    apply rev_string_startsSolid; [done|done|by left].
  - cbn [QStr.tokens_aux]. destruct (QStr.isSpace c) eqn:Hsp.
    + destruct cur as [|d cur]; [by apply IH|].
      constructor; [|by apply IH].
      apply rev_string_startsSolid; [done|done|by left].
    + apply IH. by split.
Qed.

(** A line the import loops keep starts with a word that is not empty. *)
Lemma kept_line_word (buffer : string) :
  skipLine (QStr.simplified buffer) = false →
  QStr.size (QStr.sectionFirst (QStr.simplified buffer)) ≠ 0.
Proof.
  unfold skipLine, QStr.simplified.
  pose proof (tokens_aux_startSolid buffer "" I) as Htok.
  destruct (QStr.tokens_aux "" buffer) as [|t ts]; [done|].
  apply Forall_cons in Htok as [Ht _].
  destruct t as [|c t]; [done|]. simpl in Ht.
  intros _.
  assert (Hc : Ascii.eqb c " " = false).
  { apply Ascii.eqb_neq. intros ->. discriminate. }
  destruct ts as [|t2 ts]; simpl; rewrite Hc; unfold QStr.size;
    cbn [String.length]; lia.
Qed.

Lemma scanStems_sized (lines : list string) (st : StemScan) :
  (∀ u, QStr.size (getAlphagram u) = QStr.size u) →
  (∀ a, a ∈ scAlphagrams st → QStr.size a = scLength st) →
  (scLength st = 0 → scAlphagrams st = ∅) →
  let st' := foldl importStemLine st lines in
  (∀ a, a ∈ scAlphagrams st' → QStr.size a = scLength st')
  ∧ (scLength st' = 0 → scAlphagrams st' = ∅).
Proof.
  intros Hlen. revert st.
  induction lines as [|buffer lines IH]; intros st Hst H0; [done|].
  cbn [foldl]. apply IH.
  - unfold importStemLine. destruct (skipLine _); [done|].
    set (word := QStr.sectionFirst _).
    destruct (Z.eqb_spec (scLength st) 0) as [Hz|Hnz].
    + rewrite Z.eqb_refl. cbn [negb scAlphagrams scLength].
      intros a Ha. rewrite (H0 Hz) in Ha.
      assert (a = getAlphagram word) as -> by set_solver. apply Hlen.
    + destruct (Z.eqb_spec (scLength st) (QStr.size word)) as [Heq|Hne];
        cbn [negb scAlphagrams scLength]; [|done].
      intros a [->%elem_of_singleton|Ha]%elem_of_union; [|by apply Hst].
      by rewrite Hlen.
  - unfold importStemLine. destruct (skipLine _) eqn:Hskip; [done|].
    pose proof (kept_line_word buffer Hskip) as Hword.
    set (word := QStr.sectionFirst _) in *.
    destruct (Z.eqb_spec (scLength st) 0) as [Hz|Hnz].
    + rewrite Z.eqb_refl. cbn [negb scAlphagrams scLength].
      intros Hw. done.
    + destruct (Z.eqb_spec (scLength st) (QStr.size word)) as [Heq|Hne];
        cbn [negb scAlphagrams scLength]; done.
Qed.

(** [importStems] keeps the buckets sized. *)
Lemma importStems_sized (file : File) (e : WordEngine) :
  (∀ u, QStr.size (getAlphagram u) = QStr.size u) →
  stemBucketsSized e → stemBucketsSized (snd (importStems file e)).
Proof.
  intros Hlen Hsized. destruct file as [lines|]; [|done].
  unfold importStems.
  destruct (scanStems_sized lines
              {| scWords := []; scAlphagrams := ∅; scImported := 0;
                 scLength := 0 |} Hlen) as [Hscan _]; [set_solver|done|].
  fold (scanStems lines) in Hscan.
  set (sc := scanStems lines) in *.
  intros L alphaset a.
  destruct (stems e !! scLength sc) as [old|]; cbn [snd stemAlphagrams].
  - destruct (stemAlphagrams e !! scLength sc) as [olda|] eqn:Holda;
      [|apply Hsized].
    destruct (decide (L = scLength sc)) as [->|Hne].
    + rewrite lookup_insert_eq. intros [= <-].
      rewrite insertAll_union.
      intros [Ha|Ha]%elem_of_union; [by apply Hscan|].
      by apply (Hsized _ olda).
    + rewrite lookup_insert_ne by done. apply Hsized.
  - unfold mapInsertNew.
    destruct (stemAlphagrams e !! scLength sc) as [olda|] eqn:Holda;
      [apply Hsized|].
    destruct (decide (L = scLength sc)) as [->|Hne].
    + rewrite lookup_insert_eq. intros [= <-]. apply Hscan.
    + rewrite lookup_insert_ne by done. apply Hsized.
Qed.

Lemma stemLineWord_skipped (buffer : string) (lines : list string) :
  skipLine (QStr.simplified buffer) = true →
  omap stemLineWord (buffer :: lines) = omap stemLineWord lines.
Proof.
  intros Hskip.
  change (omap stemLineWord (buffer :: lines))
    with (match stemLineWord buffer with
          | Some w => w :: omap stemLineWord lines
          | None => omap stemLineWord lines
          end).
  unfold stemLineWord. by rewrite Hskip.
Qed.

Lemma stemLineWord_kept (buffer : string) (lines : list string) :
  skipLine (QStr.simplified buffer) = false →
  omap stemLineWord (buffer :: lines)
  = QStr.sectionFirst (QStr.simplified buffer) :: omap stemLineWord lines.
Proof.
  intros Hskip.
  change (omap stemLineWord (buffer :: lines))
    with (match stemLineWord buffer with
          | Some w => w :: omap stemLineWord lines
          | None => omap stemLineWord lines
          end).
  unfold stemLineWord. by rewrite Hskip.
Qed.

(** The loop of [importStems] once the length is set: the words of that
    length are kept, in their order, with their alphagrams. *)
Lemma scanStems_from (lines : list string) (st : StemScan) :
  scLength st ≠ 0 →
  let kept := List.filter (λ u, QStr.size u =? scLength st)
                          (omap stemLineWord lines) in
  scWords (foldl importStemLine st lines) = (scWords st ++ kept)%list
  ∧ scAlphagrams (foldl importStemLine st lines)
    = scAlphagrams st ∪ alphagramSet kept
  ∧ scImported (foldl importStemLine st lines)
    = scImported st + Z.of_nat (length kept)
  ∧ scLength (foldl importStemLine st lines) = scLength st.
Proof.
  revert st. induction lines as [|buffer lines IH]; intros st Hne kept.
  - subst kept. cbn. rewrite app_nil_r.
    split; [done|]. split; [set_solver|]. split; [lia|done].
  - cbn [foldl]. subst kept.
    destruct (skipLine (QStr.simplified buffer)) eqn:Hskip.
    + rewrite stemLineWord_skipped by done.
      replace (importStemLine st buffer) with st
        by (unfold importStemLine; by rewrite Hskip).
      by apply IH.
    + rewrite stemLineWord_kept by done. cbn [List.filter].
      set (word := QStr.sectionFirst (QStr.simplified buffer)).
      assert (Hstep : importStemLine st buffer
                      = if scLength st =? QStr.size word
                        then {| scWords := (scWords st ++ [word])%list;
                                scAlphagrams := {[ getAlphagram word ]}
                                                ∪ scAlphagrams st;
                                scImported := scImported st + 1;
                                scLength := scLength st |}
                        else {| scWords := scWords st;
                                scAlphagrams := scAlphagrams st;
                                scImported := scImported st;
                                scLength := scLength st |}).
      { unfold importStemLine. rewrite Hskip. fold word.
        destruct (Z.eqb_spec (scLength st) 0) as [?|_]; [done|].
        by destruct (scLength st =? QStr.size word). }
      rewrite Hstep, (Z.eqb_sym (QStr.size word)).
      destruct (scLength st =? QStr.size word).
      * match goal with
        | |- context [foldl importStemLine ?st' lines] =>
            destruct (IH st' Hne) as (-> & -> & -> & ->)
        end.
        cbn [scWords scAlphagrams scImported scLength length].
        rewrite <- app_assoc. split; [done|].
        split; [unfold alphagramSet; cbn [map]; set_solver|].
        split; [lia|done].
      * match goal with
        | |- context [foldl importStemLine ?st' lines] =>
            destruct (IH st' Hne) as (-> & -> & -> & ->)
        end.
        done.
Qed.

(** The loop of [importStems] keeps the stems of the file and records
    their alphagrams, their number and their length. *)
Lemma scanStems_stemsOfFile (lines : list string) :
  scWords (scanStems lines) = stemsOfFile lines
  ∧ scAlphagrams (scanStems lines) = alphagramSet (stemsOfFile lines)
  ∧ scImported (scanStems lines) = Z.of_nat (length (stemsOfFile lines))
  ∧ scLength (scanStems lines) = stemLengthOfFile lines.
Proof.
  unfold scanStems, stemsOfFile, stemLengthOfFile.
  induction lines as [|buffer lines IH]; [done|].
  cbn [foldl]. destruct (skipLine (QStr.simplified buffer)) eqn:Hskip.
  - rewrite stemLineWord_skipped by done.
    replace (importStemLine _ buffer)
      with {| scWords := []; scAlphagrams := ∅; scImported := 0;
              scLength := 0 |}
      by (unfold importStemLine; by rewrite Hskip).
    exact IH.
  - rewrite stemLineWord_kept by done.
    pose proof (kept_line_word buffer Hskip) as Hsize.
    set (word := QStr.sectionFirst (QStr.simplified buffer)) in *.
    replace (importStemLine _ buffer)
      with {| scWords := [word]; scAlphagrams := {[ getAlphagram word ]} ∪ ∅;
              scImported := 0 + 1; scLength := QStr.size word |}.
    2:{ unfold importStemLine. rewrite Hskip. fold word.
        cbn [scLength scWords scAlphagrams scImported].
        change (0 =? 0) with true. cbv iota.
        by rewrite Z.eqb_refl. }
    match goal with
    | |- context [foldl importStemLine ?st' lines] =>
        destruct (scanStems_from lines st' Hsize) as (-> & -> & -> & ->)
    end.
    cbn [scWords scAlphagrams scImported scLength length app].
    split; [done|].
    split; [unfold alphagramSet; cbn [map]; set_solver|].
    split; [lia|done].
Qed.

(** C10: when both maps hold a bucket for the length of the stems of the
    file, [importStems] appends those stems to the stem list of that
    length and unions their alphagrams into its alphagram set; what was in
    the bucket stays, and the buckets of other lengths are unchanged. *)
Theorem importStems_existing_bucket (lines : list string) (e : WordEngine)
  (old : list string) (olda : gset string) :
  let L := stemLengthOfFile lines in
  let e' := snd (importStems (Some lines) e) in
  stems e !! L = Some old →
  stemAlphagrams e !! L = Some olda →
  stems e' !! L = Some (old ++ stemsOfFile lines)%list
  ∧ stemAlphagrams e' !! L = Some (olda ∪ alphagramSet (stemsOfFile lines))
  ∧ (∀ w, w ∈ old → ∃ ws, stems e' !! L = Some ws ∧ w ∈ ws)
  ∧ (∀ a, a ∈ olda → ∃ s, stemAlphagrams e' !! L = Some s ∧ a ∈ s)
  ∧ (∀ L', L' ≠ L →
       stems e' !! L' = stems e !! L'
       ∧ stemAlphagrams e' !! L' = stemAlphagrams e !! L').
Proof.
  intros L e' Hs Ha. subst L e'. unfold importStems.
  destruct (scanStems_stemsOfFile lines) as (-> & -> & _ & ->).
  rewrite Hs, Ha. cbn [snd stems stemAlphagrams].
  rewrite !lookup_insert_eq, insertAll_union.
  assert (Hu : alphagramSet (stemsOfFile lines) ∪ olda
               = olda ∪ alphagramSet (stemsOfFile lines)) by set_solver.
  rewrite Hu. split; [done|]. split; [done|]. split; [|split].
  - intros w Hw. eexists. split; [reflexivity|]. set_solver.
  - intros a Hin. eexists. split; [reflexivity|]. set_solver.
  - intros L' Hne. by rewrite !lookup_insert_ne.
Qed.

(** *** The probability order on the graph path *)

Lemma ascii_compare_trans (a b c : ascii) :
  Ascii.compare a b = Lt → Ascii.compare b c = Lt → Ascii.compare a c = Lt.
Proof.
  unfold Ascii.compare. rewrite !N.compare_lt_iff. lia.
Qed.

Lemma string_compare_trans (a b c : string) :
  String.compare a b = Lt → String.compare b c = Lt → String.compare a c = Lt.
Proof.
  revert b c. induction a as [|x a IH]; intros [|y b] [|z c]; simpl;
    try done.
  destruct (Ascii.compare x y) eqn:Hxy; [|intros _|done].
  - apply Ascii.compare_eq_iff in Hxy as ->.
    destruct (Ascii.compare y z); [apply IH|done|done].
  - destruct (Ascii.compare y z) eqn:Hyz; [|intros _|done].
    + apply Ascii.compare_eq_iff in Hyz as <-. by rewrite Hxy.
    + by rewrite (ascii_compare_trans x y z).
Qed.

Lemma keyLt_trans (a b c : string) : keyLt a b → keyLt b c → keyLt a c.
Proof.
  unfold keyLt, String.ltb. intros Hab Hbc.
  destruct (String.compare a b) eqn:H1; try done.
  destruct (String.compare b c) eqn:H2; try done.
  by rewrite (string_compare_trans a b c).
Qed.

Lemma keyLt_total (a b : string) :
  String.ltb a b = false → String.eqb a b = false → keyLt b a.
Proof.
  unfold keyLt, String.ltb. intros Hlt Hne.
  rewrite String.compare_antisym.
  destruct (String.compare a b) eqn:Hc; try done.
  apply String.compare_eq_iff in Hc as ->.
  by rewrite String.eqb_refl in Hne.
Qed.

Lemma qmapInsert_keys (k v : string) (m : list (string * string))
  (x : string) :
  x ∈ map fst (qmapInsert k v m) → x = k ∨ x ∈ map fst m.
Proof.
  induction m as [|[k' v'] m IH]; cbn [qmapInsert map fst].
  - intros Hin. left. by apply list_elem_of_singleton in Hin.
  - destruct (String.ltb k k').
    + cbn [map fst]. intros [->|Hin]%elem_of_cons; [by left|by right].
    + destruct (String.eqb_spec k k') as [<-|Hne]; cbn [map fst].
      * intros [->|Hin]%elem_of_cons; [by left|].
        right. by apply elem_of_cons; right.
      * intros [->|Hin]%elem_of_cons.
        -- right. by apply elem_of_cons; left.
        -- destruct (IH Hin) as [->|Hin']; [by left|].
           right. by apply elem_of_cons; right.
Qed.

Lemma qmapInsert_sorted (k v : string) (m : list (string * string)) :
  StronglySorted keyLt (map fst m) →
  StronglySorted keyLt (map fst (qmapInsert k v m)).
Proof.
  induction m as [|[k' v'] m IH]; cbn [qmapInsert map fst]; intros Hs.
  - repeat constructor.
  - apply StronglySorted_inv in Hs as [Hs Hall].
    destruct (String.ltb k k') eqn:Hlt.
    + cbn [map fst]. constructor; [by constructor|].
      constructor; [done|].
      eapply Forall_impl; [exact Hall|]. intros y Hy.
      by apply (keyLt_trans k k' y).
    + destruct (String.eqb_spec k k') as [<-|Hne]; cbn [map fst].
      * by constructor.
      * constructor; [by apply IH|].
        apply Forall_forall. intros y Hy.
        destruct (qmapInsert_keys _ _ _ _ Hy) as [->|Hin].
        -- apply keyLt_total; [done|]. by apply String.eqb_neq.
        -- rewrite Forall_forall in Hall. by apply Hall.
Qed.

Lemma qmapInsert_new (k v : string) (m : list (string * string)) :
  k ∉ map fst m → qmapInsert k v m ≡ₚ (k, v) :: m.
Proof.
  induction m as [|[k' v'] m IH]; cbn [qmapInsert map fst]; intros Hnew.
  - done.
  - apply not_elem_of_cons in Hnew as [Hne Hnew].
    destruct (String.ltb k k'); [done|].
    destruct (String.eqb_spec k k') as [->|_]; [done|].
    rewrite (IH Hnew). apply Permutation_swap.
Qed.

(** The map of the loop over the word list: its keys ascend, every entry
    pairs a word with its key, and when the keys of the words differ it
    holds the words of the list, each once. *)
Lemma probMap_fold `{!LetterBag} (wordList : list string)
  (acc : list (string * string)) :
  StronglySorted keyLt (map fst acc) →
  Forall (λ kv, fst kv = radixOf (snd kv)) acc →
  NoDup (map radixOf wordList ++ map fst acc) →
  let probMap :=
    foldl (λ probMap word, qmapInsert (radixOf word) word probMap)
          acc wordList in
  StronglySorted keyLt (map fst probMap)
  ∧ Forall (λ kv, fst kv = radixOf (snd kv)) probMap
  ∧ probMap ≡ₚ (map (λ w, (radixOf w, w)) wordList ++ acc)%list.
Proof.
  revert acc. induction wordList as [|w wl IH]; intros acc Hs Hk Hnd;
    cbn [foldl].
  - done.
  - cbn [map app] in Hnd. apply NoDup_cons in Hnd as [Hw Hnd].
    assert (Hnew : radixOf w ∉ map fst acc).
    { intros Hin. apply Hw, elem_of_app. by right. }
    pose proof (qmapInsert_new (radixOf w) w acc Hnew) as Hperm.
    destruct (IH (qmapInsert (radixOf w) w acc)) as (Hs' & Hk' & Hp').
    + by apply qmapInsert_sorted.
    + rewrite Hperm. by constructor.
    + assert (Hfst : map fst (qmapInsert (radixOf w) w acc)
                     ≡ₚ radixOf w :: map fst acc).
      { change (map fst (qmapInsert (radixOf w) w acc))
          with (fst <$> qmapInsert (radixOf w) w acc).
        by rewrite Hperm. }
      rewrite Hfst.
      apply NoDup_app. apply NoDup_app in Hnd as (Hn1 & Hn2 & Hn3).
      split; [done|]. split.
      * intros x Hx [->|Hin]%elem_of_cons.
        -- apply Hw, elem_of_app. by left.
        -- by apply (Hn2 x).
      * by apply NoDup_cons.
    + split; [done|]. split; [done|].
      rewrite Hp', Hperm. cbn [map app].
      by rewrite Permutation_middle.
Qed.

Lemma mid_slice {A} (pos alength : Z) (l : list A) :
  0 ≤ pos → 0 ≤ alength →
  mid pos alength l = take (Z.to_nat alength) (drop (Z.to_nat pos) l).
Proof.
  intros Hpos Hlen. unfold mid.
  destruct (Z.ltb_spec alength 0) as [|_]; [lia|].
  destruct (Z.ltb_spec (Z.of_nat (length l)) (pos + alength)) as [Hover|];
    [|done].
  rewrite !take_ge; [done| |]; rewrite length_drop; lia.
Qed.

(** On the graph path, a probability-order range with a positive upper
    bound is served as the claim C3 says, as long as the keys of the
    surviving words differ and the range is not upside down: the survivors
    are put in ascending key order and the words at the places [max 1 min]
    to [max] are returned; nothing is returned when [min] is beyond the
    number of survivors. *)
Lemma afterGraphSearch_probability_slice `{!LetterBag} (e : WordEngine)
  (conds : list SearchCondition) (pmin pmax : Z) (found : list string) :
  let survivors := List.filter (λ w, matchesConditions e w conds) found in
  0 < pmax → Z.max pmin 1 ≤ pmax + 1 →
  NoDup (map radixOf survivors) →
  ∃ ordered,
    ordered ≡ₚ survivors
    ∧ StronglySorted keyLt (map radixOf ordered)
    ∧ afterGraphSearch e conds pmin pmax false found
      = if Z.of_nat (length survivors) <? pmin then []
        else take (Z.to_nat (pmax - Z.max pmin 1 + 1))
                  (drop (Z.to_nat (Z.max pmin 1 - 1)) ordered).
Proof.
  intros survivors Hmax Hrange Hnd.
  destruct (probMap_fold survivors []) as (Hs & Hk & Hp).
  { constructor. } { constructor. } { by rewrite app_nil_r. }
  fold (probMapOf survivors) in Hs, Hk, Hp. rewrite app_nil_r in Hp.
  exists (map snd (probMapOf survivors)).
  assert (Hkeys : map radixOf (map snd (probMapOf survivors))
                  = map fst (probMapOf survivors)).
  { clear -Hk. induction Hk as [|[k v] m Hkv _ IH]; [done|].
    cbn [map fst snd] in *. by rewrite IH, Hkv. }
  split; [|split].
  - change (map snd (probMapOf survivors))
      with (snd <$> probMapOf survivors).
    rewrite Hp. clear. induction survivors as [|w l IH]; [done|].
    cbn. by rewrite IH.
  - by rewrite Hkeys.
  - unfold afterGraphSearch. fold survivors.
    destruct (Z.ltb_spec 0 pmax) as [_|]; [|lia]. cbn [andb].
    destruct (Z.ltb_spec (Z.of_nat (length survivors)) pmin); [done|].
    assert (Hm : (if pmin <=? 0 then 1 else pmin) = Z.max pmin 1).
    { destruct (Z.leb_spec pmin 0); lia. }
    rewrite Hm. apply mid_slice; lia.
Qed.

(** *** Definition links *)

Lemma replaceLinks_steps (e : WordEngine) (maxDepth : nat)
  (definition : string) (useFollow : bool) :
  (length (snd (replaceLinks e maxDepth definition useFollow)) ≤ S maxDepth)%nat
  ∧ (expansions (snd (replaceLinks e maxDepth definition useFollow))
     ≤ maxDepth)%nat.
Proof.
  revert definition useFollow.
  induction maxDepth as [|d IH]; intros definition useFollow;
    cbn [replaceLinks].
  - destruct (linkIndexIn "{" "}" 0 definition) as [m|].
    + cbn. lia.
    + destruct (linkIndexIn "<" ">" 0 definition) as [m|]; cbn; lia.
  - assert (Hstep : ∀ modified uf word,
              let r := replaceLinks e d modified uf in
              (length (snd (let '(result, steps) := r in
                            (result, Expanded word :: steps))) ≤ S (S d))%nat
              ∧ (expansions (snd (let '(result, steps) := r in
                                  (result, Expanded word :: steps)))
                 ≤ S d)%nat).
    { intros modified uf word r. destruct (IH modified uf) as [Hl He].
      fold r in Hl, He. destruct r as [result steps].
      unfold expansions in *. cbn in *. lia. }
    destruct (linkIndexIn "{" "}" 0 definition) as [m|].
    + apply Hstep.
    + destruct (linkIndexIn "<" ">" 0 definition) as [m|].
      * apply Hstep.
      * cbn. lia.
Qed.

Lemma replaceLinks_spendsDepth (e : WordEngine) (maxDepth : nat)
  (definition : string) (useFollow : bool) :
  spendsDepth maxDepth (snd (replaceLinks e maxDepth definition useFollow)).
Proof.
  revert definition useFollow.
  induction maxDepth as [|d IH]; intros definition useFollow;
    cbn [replaceLinks].
  - destruct (linkIndexIn "{" "}" 0 definition) as [m|].
    + exists []. right. by eexists.
    + destruct (linkIndexIn "<" ">" 0 definition) as [m|].
      * exists []. right. by eexists.
      * exists []. by left.
  - assert (Hstep : ∀ modified uf word,
              let r := replaceLinks e d modified uf in
              spendsDepth (S d)
                (snd (let '(result, steps) := r in
                      (result, Expanded word :: steps)))).
    { intros modified uf word r. pose proof (IH modified uf) as Hr.
      fold r in Hr. destruct r as [result steps]. cbn [snd] in *.
      destruct Hr as [words [[-> Hlen]|(w & -> & Hlen)]];
        exists (word :: words).
      - left. split; [done|]. cbn [length]. lia.
      - right. exists w. split; [done|]. cbn [length]. lia. }
    destruct (linkIndexIn "{" "}" 0 definition) as [m|].
    + apply Hstep.
    + destruct (linkIndexIn "<" ">" 0 definition) as [m|].
      * apply Hstep.
      * exists []. left. split; [done|]. cbn [length]. lia.
Qed.

Lemma expansions_strips_app (words : list string) (rest : list LinkStep) :
  expansions (map Expanded words ++ rest)%list
  = (length words + expansions rest)%nat
  ∧ strips (map Expanded words ++ rest)%list = strips rest.
Proof.
  unfold expansions, strips.
  induction words as [|w words [IHe IHs]]; [done|].
  cbn [map app List.filter length]. by rewrite IHe, IHs.
Qed.

(** C8, as the code has it: the resolution of a stored sense, started
    by [getDefinition] with depth [MAX_DEFINITION_LINKS], makes at most four
    replacements: at most three that splice a sub-definition in, and at
    most one more that puts the bare word for the link, made only when
    the depth is used up, that is as the fourth and last replacement
    after three of the first kind; the recursion is on the depth, whatever
    the definition table holds. *)
Theorem replaceDefinitionLinks_bounded (e : WordEngine)
  (definition : string) (useFollow : bool) :
  let steps :=
    snd (replaceLinks e MAX_DEFINITION_LINKS definition useFollow) in
  (length steps ≤ 4)%nat ∧ (expansions steps ≤ 3)%nat
  ∧ (strips steps ≤ 1)%nat
  ∧ length steps = (expansions steps + strips steps)%nat
  ∧ (∀ word, Stripped word ∈ steps →
       ∃ words, length words = 3%nat
                ∧ steps = (map Expanded words ++ [Stripped word])%list).
Proof.
  intros steps.
  destruct (replaceLinks_steps e MAX_DEFINITION_LINKS definition useFollow)
    as [Hlen Hexp].
  fold steps in Hlen, Hexp. split; [done|]. split; [done|].
  destruct (replaceLinks_spendsDepth e MAX_DEFINITION_LINKS definition
              useFollow) as [words Hshape].
  fold steps in Hshape. clearbody steps.
  destruct Hshape as [[-> Hwords]|(w & -> & Hwords)].
  - destruct (expansions_strips_app words []) as [Hexps Hstrips].
    rewrite app_nil_r in Hexps, Hstrips. rewrite Hexps, Hstrips.
    rewrite length_map. cbn. split; [lia|]. split; [lia|].
    intros word Hin. apply list_elem_of_fmap in Hin as (u & Hu & _).
    discriminate.
  - destruct (expansions_strips_app words [Stripped w]) as [Hexps Hstrips].
    rewrite Hexps, Hstrips, length_app, length_map. cbn.
    split; [lia|]. split; [lia|].
    intros word Hin. apply elem_of_app in Hin as [Hin|Hin].
    + apply list_elem_of_fmap in Hin as (u & Hu & _). discriminate.
    + apply list_elem_of_singleton in Hin as [= ->]. by exists words.
Qed.

End Properties.

(** C10 at an engine that holds the stem CAT, importing DOG and PIG, with
    a longer word between them that is passed over. *)
Lemma importStems_existing_bucket_witness :
  let e := snd (@importStems plainAuxil (Some ["CAT"]) emptyEngine) in
  let e' := snd (@importStems plainAuxil (Some ["DOG"; "HORSE"; "PIG"]) e) in
  stems e' !! 3 = Some ["CAT"; "DOG"; "PIG"]
  ∧ stemAlphagrams e' !! 3 = Some {[ "ACT"; "DGO"; "GIP" ]}.
Proof.
  intros e e'.
  pose proof (@importStems_existing_bucket plainAuxil
                ["DOG"; "HORSE"; "PIG"] e ["CAT"] {[ "ACT" ]}) as H.
  cbv zeta in H.
  destruct H as (Hstems & Halpha & _);
    [vm_compute; reflexivity | vm_compute; reflexivity |].
  split; [exact Hstems|]. vm_compute in Halpha. vm_compute. exact Halpha.
Defined.

(** C6 as the claim words it fails at CAT in the lexicon CAT, AT: the word
    is in [SetFrontHooks], and CA, the word without its last letter, is
    not acceptable. *)
Lemma isSetMember_hooks_swapped_counterexample :
  let e := lexicon ["CAT"; "AT"] in
  isAcceptable e "CAT" = true
  ∧ ¬ (@isSetMember plainAuxil e "CAT" SetFrontHooks = true
       ↔ isAcceptable e (removeLast "CAT") = true).
Proof.
  split; [vm_compute; reflexivity|].
  intros [Hl _]. specialize (Hl ltac:(vm_compute; reflexivity)).
  vm_compute in Hl. discriminate.
Qed.

(** C2 as the claim words it fails at one negated word list: the lexicon
    is CAT, DOG, ACT, the list is DOG CAT BIRD.  [search] goes to the graph
    and keeps the word that is not listed; [nonGraphSearch] returns the
    listed words. *)
Lemma search_set_algebra_negated_counterexample :
  let e := lexicon ["CAT"; "DOG"; "ACT"] in
  let spec := {| conditions := [wordList "DOG CAT BIRD" true];
                 conjunction := true |} in
  @search plainAuxil noOperators wholeGraph noRewrite flatBag e spec false = ["ACT"]
  ∧ @nonGraphSearch plainAuxil e (@optimize noRewrite spec) = ["CAT"; "DOG"].
Proof. split; vm_compute; reflexivity. Qed.

(** C2 at the lexicon CAT, DOG, ACT and the list DOG CAT BIRD. *)
Lemma search_set_algebra_path_witness :
  let e := lexicon ["CAT"; "DOG"; "ACT"] in
  let spec := {| conditions := [wordList "DOG CAT BIRD" false];
                 conjunction := true |} in
  @search plainAuxil noOperators wholeGraph noRewrite flatBag e spec false
  = @nonGraphSearch plainAuxil e spec.
Proof.
  intros e spec.
  apply (@search_set_algebra_path plainAuxil noOperators wholeGraph noRewrite flatBag
           e spec false).
  - constructor; [|constructor]. left. split; reflexivity.
  - constructor. reflexivity.
Defined.

(** C3 fails on the set-algebra path: with CAT and DOG acceptable, the
    word list CAT DOG and the probability-order range 1 to 1, [search]
    returns both words instead of one, whatever the graph search, the
    letter bag and the regular expressions are. *)
Theorem search_probability_order_skipped (R : RegExpOps) (G : GraphOps)
  (L : LetterBag) :
  let e := lexicon ["CAT"; "DOG"] in
  let spec := {| conditions := [wordList "CAT DOG" false;
                                rangeCondition ProbabilityOrder 1 1];
                 conjunction := true |} in
  @search plainAuxil R G noRewrite L e spec false = ["CAT"; "DOG"].
Proof.
  intros e spec.
  rewrite (@search_dispatch plainAuxil R G noRewrite L e spec false).
  - vm_compute. reflexivity.
  - constructor; [left; split; reflexivity|].
    constructor; [right; right; reflexivity|constructor].
  - constructor. reflexivity.
Qed.

(** C5 fails at two anagram-count ranges: CAT is the only word with its
    alphagram, the ranges are 2 to 5 and then 1 to 5, whose intersection is
    2 to 5; [nonGraphSearch] keeps the later range and returns CAT. *)
Theorem nonGraphSearch_range_overwritten :
  let e := lexicon ["CAT"] in
  let spec := {| conditions := [wordList "CAT" false;
                                rangeCondition NumAnagrams 2 5;
                                rangeCondition NumAnagrams 1 5];
                 conjunction := true |} in
  @numAnagrams plainAuxil e "CAT" = 1
  ∧ @nonGraphSearch plainAuxil e spec = ["CAT"].
Proof. split; vm_compute; reflexivity. Qed.

(** An empty intersection gets through as well: the ranges 3 to 4, 1 to 5,
    5 to 6 and 2 to 5 have no count in common, each overlaps the one before
    it, the last one is kept, and CAT, which has two anagrams, is returned. *)
Lemma nonGraphSearch_range_last_wins :
  let e := lexicon ["CAT"; "ACT"] in
  let spec := {| conditions := [wordList "CAT" false;
                                rangeCondition NumAnagrams 3 4;
                                rangeCondition NumAnagrams 1 5;
                                rangeCondition NumAnagrams 5 6;
                                rangeCondition NumAnagrams 2 5];
                 conjunction := true |} in
  @numAnagrams plainAuxil e "CAT" = 2
  ∧ @nonGraphSearch plainAuxil e spec = ["CAT"].
Proof. split; vm_compute; reflexivity. Qed.

(** C1 as the claim words it fails when the first list is negated: with
    CAT acceptable and both lists CAT, [search] returns nothing, and CAT
    is in the intersection. *)
Lemma search_two_word_lists_negated_counterexample :
  let e := lexicon ["CAT"] in
  let spec := {| conditions := [wordList "CAT" true; wordList "CAT" false];
                 conjunction := true |} in
  @search plainAuxil noOperators wholeGraph noRewrite flatBag e spec false = []
  ∧ "CAT" ∈ listedAcceptable e "CAT" ∩ listedAcceptable e "CAT".
Proof.
  split; [vm_compute; reflexivity|].
  assert (Hl : listedAcceptable (lexicon ["CAT"]) "CAT" = {[ "CAT" ]}).
  { unfold listedAcceptable. change (QStr.split " " "CAT") with ["CAT"].
    assert (Hg : "CAT" ∈ graph (lexicon ["CAT"])).
    { apply (bool_decide_unpack _). vm_compute. exact I. }
    set_solver. }
  rewrite Hl. set_solver.
Qed.

(** C1 at the lexicon CAT, DOG and the lists CAT DOG and DOG BIRD. *)
Lemma search_two_word_lists_witness :
  let e := lexicon ["CAT"; "DOG"] in
  let spec := {| conditions := [wordList "CAT DOG" false;
                                wordList "DOG BIRD" false];
                 conjunction := true |} in
  list_to_set (@search plainAuxil noOperators wholeGraph noRewrite flatBag e spec false)
  = listedAcceptable e "CAT DOG" ∩ listedAcceptable e "DOG BIRD".
Proof.
  intros e spec.
  exact (proj1 (@search_two_word_lists plainAuxil noOperators wholeGraph noRewrite
                  flatBag e spec (wordList "CAT DOG" false)
                  (wordList "DOG BIRD" false) false
                  eq_refl eq_refl eq_refl eq_refl eq_refl)).
Defined.

Lemma sortLetters_size (u : string) :
  QStr.size (sortLetters u) = QStr.size u.
Proof.
  unfold QStr.size. f_equal.
  assert (Hins : ∀ c s, String.length (insertLetter c s)
                        = S (String.length s)).
  { intros c s. induction s as [|d s IH]; [done|]. cbn [insertLetter].
    destruct (_ <=? _)%nat; cbn [String.length]; [done|]. by rewrite IH. }
  induction u as [|c u IH]; [done|].
  cbn [sortLetters String.length]. by rewrite Hins, IH.
Qed.

(** C4 at the word list CAT, CATS, ACT, with CAT a second time: CAT has
    two anagrams. *)
Lemma numAnagrams_counts_imported_witness :
  @numAnagrams plainAuxil
    (@runImports plainAuxil
       [{| tiFile := Some ["CAT"; "CATS"; "ACT"; "cat"];
           tiLexName := "lexicon"; tiLoadDefinitions := false |}]
       emptyEngine)
    "CAT"
  = Z.of_nat
      (size (@withAlphagram plainAuxil (sortLetters "CAT")
               (importedWords [Some ["CAT"; "CATS"; "ACT"; "cat"]]))).
Proof.
  exact (proj1 (@numAnagrams_counts_imported plainAuxil
                  [{| tiFile := Some ["CAT"; "CATS"; "ACT"; "cat"];
                      tiLexName := "lexicon";
                      tiLoadDefinitions := false |}] "CAT")).
Defined.

(** C7 at the stem SATIRE and the word NOTARIES. *)
Lemma isSetMember_typeOneEights_witness :
  let e := snd (@importStems plainAuxil (Some ["SATIRE"]) emptyEngine) in
  ∃ alphaset,
    stemAlphagrams e !! 6 = Some alphaset
    ∧ ∃ s, s ∈ alphaset ∧ alignsWithinTwo (sortLetters "NOTARIES") s.
Proof.
  intros e.
  apply (proj1 (@isSetMember_typeOneEights plainAuxil e "NOTARIES"
                  sortLetters_size
                  (@importStems_sized plainAuxil (Some ["SATIRE"]) emptyEngine
                     sortLetters_size
                     ltac:(intros L alphaset a Hl; vm_compute in Hl;
                           discriminate)))
               ltac:(vm_compute; reflexivity)).
Defined.

(** C8 as the claim words it fails at two definitions that refer to each
    other: the resolution of the sense of AB makes four replacements. *)
Lemma replaceDefinitionLinks_four_counterexample :
  @getDefinition cyclicDefinitions "AB" = "to BA (to AB (to BA (to AB))) [v]"
  ∧ snd (@replaceLinks cyclicDefinitions MAX_DEFINITION_LINKS
           "to {BA=v} [v]" false)
    = [Expanded "BA"; Expanded "AB"; Expanded "BA"; Stripped "AB"]
  ∧ ¬ (length (snd (@replaceLinks cyclicDefinitions MAX_DEFINITION_LINKS
                      "to {BA=v} [v]" false)) ≤ 3)%nat.
Proof.
  split; [vm_compute; reflexivity|]. split; [vm_compute; reflexivity|].
  vm_compute. lia.
Qed.

(** ** Further properties of the engine *)

Section Imports.
Context `{!Auxil} {regExp : RegExpOps}.

(** *** Word lists *)

Lemma importTextLine_frame (ld : bool) (n : Z) (e : WordEngine)
  (buffer : string) :
  let r := importTextLine ld (n, e) buffer in
  fst r = n + match lineWord buffer with Some _ => 1 | None => 0 end
  ∧ stems (snd r) = stems e
  ∧ stemAlphagrams (snd r) = stemAlphagrams e
  ∧ lexiconName (snd r) = lexiconName e
  ∧ (∀ w d, definitions e !! w = Some d → definitions (snd r) !! w = Some d)
  ∧ (ld = false → definitions (snd r) = definitions e).
Proof.
  unfold importTextLine, lineWord.
  destruct (skipLine _); cbn [fst snd].
  { repeat split; try done. lia. }
  set (word := QStr.toUpper _).
  destruct ld; cbn [fst snd]; [|by repeat split].
  unfold addDefinition. destruct (_ || _); cbn; [by repeat split|].
  repeat split; try done.
  intros w d Hw. unfold mapInsertNew.
  destruct (definitions e !! word) as [old|] eqn:Hold; [done|].
  rewrite lookup_insert_ne; [done|]. intros <-. congruence.
Qed.

Lemma importTextLines_frame (ld : bool) (lines : list string) (n : Z)
  (e : WordEngine) :
  let r := foldl (importTextLine ld) (n, e) lines in
  fst r = n + Z.of_nat (length (omap lineWord lines))
  ∧ graph (snd r) = list_to_set (omap lineWord lines) ∪ graph e
  ∧ stems (snd r) = stems e
  ∧ stemAlphagrams (snd r) = stemAlphagrams e
  ∧ lexiconName (snd r) = lexiconName e
  ∧ (∀ w d, definitions e !! w = Some d → definitions (snd r) !! w = Some d)
  ∧ (ld = false → definitions (snd r) = definitions e).
Proof.
  revert n e. induction lines as [|buffer lines IH]; intros n e.
  - cbn. repeat split; try done; [lia|set_solver].
  - cbn [foldl].
    pose proof (importTextLine_frame ld n e buffer) as Hline.
    pose proof (importTextLine_graph ld n e buffer) as Hg.
    destruct (importTextLine ld (n, e) buffer) as [n' e'].
    cbn zeta in Hline. cbn [fst snd] in Hline, Hg.
    destruct Hline as (Hn & Hs & Ha & Hl & Hd & Hd').
    destruct (IH n' e') as (IHn & IHg & IHs & IHa & IHl & IHd & IHd').
    change (omap lineWord (buffer :: lines))
      with (match lineWord buffer with
            | Some word => word :: omap lineWord lines
            | None => omap lineWord lines
            end).
    repeat split.
    + rewrite IHn, Hn. destruct (lineWord buffer); cbn [length]; lia.
    + rewrite IHg, Hg. destruct (lineWord buffer); [|done].
      unfold addWord. set_solver.
    + congruence.
    + congruence.
    + congruence.
    + intros w d Hw. by apply IHd, Hd.
    + intros Hld. rewrite IHd', Hd'; done.
Qed.

(** X1: [importTextFile] returns the number of lines it kept, a word that
    comes twice counted twice, and sets the lexicon name, also when the
    file holds no word; when the file cannot be opened it returns 0 and
    the engine is as before. *)
Theorem importTextFile_returns (file : File) (lexName : string) (ld : bool)
  (e : WordEngine) :
  fst (importTextFile file lexName ld e) = Z.of_nat (length (wordsOfFile file))
  ∧ lexiconName (snd (importTextFile file lexName ld e))
    = match file with Some _ => lexName | None => lexiconName e end
  ∧ (file = None → snd (importTextFile file lexName ld e) = e).
Proof.
  unfold importTextFile, wordsOfFile. destruct file as [lines|].
  - destruct (importTextLines_frame ld lines 0 e) as (Hn & _).
    destruct (foldl _ _ _) as [n' e']. cbn [fst snd] in *.
    repeat split; [lia|done].
  - by repeat split.
Qed.

(** X2: after [importTextFile] a word is acceptable iff the file holds it
    (in capitals, as the first word of a kept line) or it was acceptable
    before. *)
Theorem importTextFile_acceptable (file : File) (lexName : string)
  (ld : bool) (e : WordEngine) (w : string) :
  isAcceptable (snd (importTextFile file lexName ld e)) w = true
  ↔ w ∈ wordsOfFile file ∨ isAcceptable e w = true.
Proof.
  unfold isAcceptable, containsWord. rewrite !bool_decide_eq_true.
  unfold importTextFile, wordsOfFile. destruct file as [lines|].
  - destruct (importTextLines_frame ld lines 0 e) as (_ & Hg & _).
    destruct (foldl _ _ _) as [n' e']. cbn [fst snd graph] in *.
    rewrite Hg. set_solver.
  - cbn [snd]. split; [by right|]. intros [Hin|Hin]; [|done].
    by apply elem_of_nil in Hin.
Qed.

Lemma importTextLine_known (ld : bool) (n : Z) (e : WordEngine)
  (buffer : string) :
  (∀ word, lineWord buffer = Some word → word ∈ graph e) →
  graph (snd (importTextLine ld (n, e) buffer)) = graph e
  ∧ numAnagramsMap (snd (importTextLine ld (n, e) buffer))
    = numAnagramsMap e.
Proof.
  unfold importTextLine, lineWord. intros Hknown.
  destruct (skipLine _); [done|].
  set (word := QStr.toUpper _) in *.
  specialize (Hknown word eq_refl).
  assert (Hc : containsWord (graph e) word = true)
    by by apply bool_decide_eq_true_2.
  rewrite Hc. cbn [negb].
  assert (Hg : addWord (graph e) word = graph e)
    by (unfold addWord; set_solver).
  destruct ld; cbn [snd].
  - rewrite (proj1 (addDefinition_graph _ _ _)),
      (proj2 (addDefinition_graph _ _ _)). by cbn.
  - by cbn.
Qed.

Lemma importTextLines_known (ld : bool) (lines : list string) (n : Z)
  (e : WordEngine) :
  (∀ word, word ∈ omap lineWord lines → word ∈ graph e) →
  graph (snd (foldl (importTextLine ld) (n, e) lines)) = graph e
  ∧ numAnagramsMap (snd (foldl (importTextLine ld) (n, e) lines))
    = numAnagramsMap e.
Proof.
  revert n e. induction lines as [|buffer lines IH]; intros n e Hknown;
    [done|].
  cbn [foldl].
  change (omap lineWord (buffer :: lines))
    with (match lineWord buffer with
          | Some word => word :: omap lineWord lines
          | None => omap lineWord lines
          end) in Hknown.
  destruct (importTextLine_known ld n e buffer) as [Hg Hc].
  { intros word Hw. apply Hknown. rewrite Hw. by apply elem_of_cons; left. }
  destruct (importTextLine ld (n, e) buffer) as [n' e'].
  cbn [snd] in Hg, Hc.
  destruct (IH n' e') as [IHg IHc].
  { intros word Hw. rewrite Hg. apply Hknown.
    destruct (lineWord buffer); [by apply elem_of_cons; right|done]. }
  split; congruence.
Qed.

(** X3: importing a word list a second time changes neither the set of
    acceptable words nor any anagram count, whatever the names and the
    definition flags of the two calls. *)
Theorem importTextFile_again (file : File) (name1 name2 : string)
  (ld1 ld2 : bool) (e : WordEngine) :
  let e1 := snd (importTextFile file name1 ld1 e) in
  let e2 := snd (importTextFile file name2 ld2 e1) in
  graph e2 = graph e1 ∧ numAnagramsMap e2 = numAnagramsMap e1.
Proof.
  intros e1 e2. subst e2. destruct file as [lines|]; [|done].
  assert (Hknown : ∀ word, word ∈ omap lineWord lines → word ∈ graph e1).
  { intros word Hw. subst e1. unfold importTextFile.
    destruct (importTextLines_frame ld1 lines 0 e) as (_ & Hg & _).
    destruct (foldl _ _ _) as [n' e']. cbn [fst snd graph] in *.
    rewrite Hg. set_solver. }
  unfold importTextFile.
  destruct (importTextLines_known ld2 lines 0 e1 Hknown) as [Hg Hc].
  destruct (foldl (importTextLine ld2) _ _) as [n' e']. by cbn in *.
Qed.

(** X4: [importTextFile] leaves the stem index alone and never replaces a
    stored definition: a word that has one keeps it, and without the
    definition flag the table is unchanged. *)
Theorem importTextFile_keeps (file : File) (lexName : string) (ld : bool)
  (e : WordEngine) :
  let e' := snd (importTextFile file lexName ld e) in
  stems e' = stems e
  ∧ stemAlphagrams e' = stemAlphagrams e
  ∧ (∀ w d, definitions e !! w = Some d → definitions e' !! w = Some d)
  ∧ (ld = false → definitions e' = definitions e).
Proof.
  unfold importTextFile. destruct file as [lines|]; [|done].
  destruct (importTextLines_frame ld lines 0 e)
    as (_ & _ & Hs & Ha & _ & Hd & Hd').
  destruct (foldl _ _ _) as [n' e']. by cbn in *.
Qed.

(** *** Stems *)

Lemma importStemLine_consistent (st : StemScan) (buffer : string) :
  scanConsistent st → scanConsistent (importStemLine st buffer).
Proof.
  intros (Hn & Hsz & H0 & Ha). unfold importStemLine.
  destruct (skipLine _) eqn:Hskip; [done|].
  pose proof (kept_line_word buffer Hskip) as Hword.
  set (word := QStr.sectionFirst _) in *.
  destruct (Z.eqb_spec (scLength st) 0) as [Hz|Hnz].
  - rewrite Z.eqb_refl. cbn [negb]. destruct (H0 Hz) as [Hw0 Ha0].
    unfold scanConsistent. cbn [scImported scWords scLength scAlphagrams].
    rewrite Hw0, Ha0. cbn [app]. repeat split.
    + rewrite Hn, Hw0. cbn. lia.
    + by repeat constructor.
    + done.
    + done.
    + intros Hin. exists word. split; [by apply list_elem_of_singleton|].
      set_solver.
    + intros (w & Hw%list_elem_of_singleton & ->). set_solver.
  - destruct (Z.eqb_spec (scLength st) (QStr.size word)) as [Heq|Hne];
      cbn [negb]; [|done].
    unfold scanConsistent. cbn [scImported scWords scLength scAlphagrams].
    repeat split; try done.
    + rewrite Hn, length_app. cbn. lia.
    + apply Forall_app. split; [done|]. by repeat constructor.
    + rewrite elem_of_union, elem_of_singleton, Ha.
      intros [->|(w & Hw & ->)].
      * exists word. split; [|done]. apply elem_of_app. right.
        by apply list_elem_of_singleton.
      * exists w. split; [|done]. apply elem_of_app. by left.
    + rewrite elem_of_union, elem_of_singleton, Ha.
      intros (w & [Hw|Hw%list_elem_of_singleton]%elem_of_app & ->).
      * right. by exists w.
      * left. by rewrite Hw.
Qed.

Lemma scanStems_facts (lines : list string) :
  scImported (scanStems lines) = Z.of_nat (length (scWords (scanStems lines)))
  ∧ Forall (λ w, QStr.size w = scLength (scanStems lines))
           (scWords (scanStems lines))
  ∧ (∀ a, a ∈ scAlphagrams (scanStems lines)
          ↔ ∃ w, w ∈ scWords (scanStems lines) ∧ a = getAlphagram w).
Proof.
  assert (Hgen : ∀ st, scanConsistent st →
                       scanConsistent (foldl importStemLine st lines)).
  { induction lines as [|buffer lines IH]; intros st Hst; [done|].
    cbn [foldl]. by apply IH, importStemLine_consistent. }
  destruct (Hgen {| scWords := []; scAlphagrams := ∅; scImported := 0;
                    scLength := 0 |}) as (Hn & Hsz & _ & Ha); [|done].
  unfold scanConsistent. cbn. repeat split; try done.
  intros (w & Hw & _). by apply elem_of_nil in Hw.
Qed.

(** X5: [importStems] returns -1 and changes nothing when the file cannot
    be opened; otherwise it returns the number of stems it kept, all of
    which have the length of the first, and it touches only the stem
    index. *)
Theorem importStems_returns (lines : list string) (e : WordEngine) :
  let sc := scanStems lines in
  let e' := snd (importStems (Some lines) e) in
  importStems None e = (-1, e)
  ∧ fst (importStems (Some lines) e) = Z.of_nat (length (scWords sc))
  ∧ Forall (λ w, QStr.size w = scLength sc) (scWords sc)
  ∧ graph e' = graph e ∧ numAnagramsMap e' = numAnagramsMap e
  ∧ definitions e' = definitions e ∧ lexiconName e' = lexiconName e.
Proof.
  intros sc e'. destruct (scanStems_facts lines) as (Hn & Hsz & _).
  subst e'. unfold importStems. fold sc.
  destruct (stems e !! scLength sc); by repeat split.
Qed.

(** X6: when no bucket exists for the length of the stems of the file,
    [importStems] makes one that holds those stems, the first word of the
    file and the words after it that are as long, and the set of their
    alphagrams; the buckets of other lengths are unchanged. *)
Theorem importStems_new_bucket (lines : list string) (e : WordEngine) :
  let L := stemLengthOfFile lines in
  let e' := snd (importStems (Some lines) e) in
  stems e !! L = None →
  stemAlphagrams e !! L = None →
  stems e' !! L = Some (stemsOfFile lines)
  ∧ stemAlphagrams e' !! L = Some (alphagramSet (stemsOfFile lines))
  ∧ (∀ a, (∃ s, stemAlphagrams e' !! L = Some s ∧ a ∈ s)
          ↔ ∃ w, w ∈ stemsOfFile lines ∧ a = getAlphagram w)
  ∧ (∀ L', L' ≠ L →
       stems e' !! L' = stems e !! L'
       ∧ stemAlphagrams e' !! L' = stemAlphagrams e !! L').
Proof.
  intros L e' Hs Ha. subst L e'. unfold importStems.
  destruct (scanStems_stemsOfFile lines) as (-> & -> & _ & ->).
  rewrite Hs. unfold mapInsertNew. rewrite Ha. cbn [snd stems stemAlphagrams].
  rewrite !lookup_insert_eq. split; [done|]. split; [done|]. split.
  - intros a. unfold alphagramSet. split.
    + intros (s & [= <-] & Hin). apply elem_of_list_to_set in Hin.
      apply list_elem_of_fmap in Hin as (w & -> & Hw). by exists w.
    + intros (w & Hw & ->). eexists. split; [reflexivity|].
      apply elem_of_list_to_set, list_elem_of_fmap. by exists w.
  - intros L' Hne. by rewrite !lookup_insert_ne.
Qed.

Lemma importStems_wordsSized (file : File) (e : WordEngine) :
  stemWordsSized e → stemWordsSized (snd (importStems file e)).
Proof.
  intros Hsized. destruct file as [lines|]; [|done].
  destruct (scanStems_facts lines) as (_ & Hsz & _).
  unfold importStems. set (sc := scanStems lines) in *. intros L ws w.
  rewrite Forall_forall in Hsz.
  destruct (stems e !! scLength sc) as [old|] eqn:Hold; cbn [snd stems].
  - destruct (decide (L = scLength sc)) as [->|Hne].
    + rewrite lookup_insert_eq. intros [= <-].
      intros [Hw|Hw]%elem_of_app; [by apply (Hsized _ old)|by apply Hsz].
    + rewrite lookup_insert_ne by done. apply Hsized.
  - destruct (decide (L = scLength sc)) as [->|Hne].
    + rewrite lookup_insert_eq. intros [= <-]. apply Hsz.
    + rewrite lookup_insert_ne by done. apply Hsized.
Qed.

Lemma importStems_alphagramsOfStems (file : File) (e : WordEngine) :
  stemKeysAgree e → stemAlphagramsOfStems e →
  stemAlphagramsOfStems (snd (importStems file e)).
Proof.
  intros Hkeys Hinv. destruct file as [lines|]; [|done].
  destruct (scanStems_facts lines) as (_ & _ & Hsc).
  unfold importStems. set (sc := scanStems lines) in *. intros L a.
  destruct (stems e !! scLength sc) as [old|] eqn:Hold;
    cbn [snd stems stemAlphagrams].
  - destruct (proj1 (Hkeys (scLength sc))) as [olda Holda]; [by eexists|].
    rewrite Holda.
    destruct (decide (L = scLength sc)) as [->|Hne].
    + rewrite !lookup_insert_eq, insertAll_union. split.
      * intros (alphaset & [= <-] & [Ha|Ha]%elem_of_union).
        -- apply Hsc in Ha as (w & Hw & ->).
           exists (old ++ scWords sc)%list, w.
           split; [done|]. split; [|done]. apply elem_of_app. by right.
        -- destruct (proj1 (Hinv (scLength sc) a)) as (ws & w & Hws & Hw & ->).
           { by exists olda. }
           rewrite Hold in Hws. injection Hws as <-.
           exists (old ++ scWords sc)%list, w.
           split; [done|]. split; [|done]. apply elem_of_app. by left.
      * intros (ws & w & [= <-] & [Hw|Hw]%elem_of_app & ->).
        -- eexists. split; [done|]. apply elem_of_union. right.
           destruct (proj2 (Hinv (scLength sc) (getAlphagram w)))
             as (alphaset & Hal & Hin).
           { by exists old, w. }
           rewrite Holda in Hal. by injection Hal as <-.
        -- eexists. split; [done|]. apply elem_of_union. left.
           apply Hsc. by exists w.
    + rewrite !lookup_insert_ne by done. apply Hinv.
  - unfold mapInsertNew.
    destruct (stemAlphagrams e !! scLength sc) as [olda|] eqn:Holda.
    { destruct (proj2 (Hkeys (scLength sc))) as [old Hold']; [by eexists|].
      congruence. }
    destruct (decide (L = scLength sc)) as [->|Hne].
    + rewrite !lookup_insert_eq. split.
      * intros (alphaset & [= <-] & Ha).
        apply Hsc in Ha as (w & Hw & ->). by exists (scWords sc), w.
      * intros (ws & w & [= <-] & Hw & ->).
        eexists. split; [done|]. apply Hsc. by exists w.
    + rewrite !lookup_insert_ne by done. apply Hinv.
Qed.

Lemma runStemImports_consistent (files : list File) :
  stemKeysAgree (runStemImports files emptyEngine)
  ∧ stemWordsSized (runStemImports files emptyEngine)
  ∧ stemAlphagramsOfStems (runStemImports files emptyEngine).
Proof.
  unfold runStemImports.
  assert (Hgen : ∀ e, stemKeysAgree e ∧ stemWordsSized e
                      ∧ stemAlphagramsOfStems e →
            stemKeysAgree (foldl (λ e file, snd (importStems file e)) e files)
            ∧ stemWordsSized
                (foldl (λ e file, snd (importStems file e)) e files)
            ∧ stemAlphagramsOfStems
                (foldl (λ e file, snd (importStems file e)) e files)).
  { induction files as [|file files IH]; intros e (Hk & Hw & Ha); [done|].
    cbn [foldl]. apply IH. split; [|split].
    - by apply importStems_stemKeysAgree.
    - by apply importStems_wordsSized.
    - by apply importStems_alphagramsOfStems. }
  apply Hgen. split; [|split].
  - intros L. split; intros [x Hx]; simpl in Hx;
      by rewrite lookup_empty in Hx.
  - intros L ws w Hl. simpl in Hl. by rewrite lookup_empty in Hl.
  - intros L a. split.
    + intros (alphaset & Hl & _). simpl in Hl. by rewrite lookup_empty in Hl.
    + intros (ws & w & Hl & _). simpl in Hl. by rewrite lookup_empty in Hl.
Qed.

(** X7: the stem index of an engine filled by [importStems] alone is
    consistent: its two maps have the same keys, every stem of the bucket
    of length [L] has length [L], and the alphagram set of a bucket holds
    exactly the alphagrams of the stems of the bucket. *)
Theorem importStems_index_consistent (files : list File) :
  let e := runStemImports files emptyEngine in
  stemKeysAgree e ∧ stemWordsSized e ∧ stemAlphagramsOfStems e.
Proof. apply runStemImports_consistent. Qed.

(** *** Anagram counts and compiled graphs *)

Lemma importNumAnagramsLine_countLine (counts : gmap string Z)
  (buffer : string) :
  importNumAnagramsLine counts buffer
  = match countLine buffer with
    | Some p => <[ fst p := snd p ]> counts
    | None => counts
    end.
Proof.
  unfold importNumAnagramsLine, countLine. by destruct (skipLine _).
Qed.

Lemma importNumAnagramsLines_lookup (lines : list string)
  (counts : gmap string Z) (alpha : string) :
  foldl importNumAnagramsLine counts lines !! alpha
  = match last (filter (λ p, fst p = alpha) (omap countLine lines)) with
    | Some p => Some (snd p)
    | None => counts !! alpha
    end.
Proof.
  revert counts. induction lines as [|buffer lines IH]; intros counts;
    [done|].
  cbn [foldl]. rewrite IH, importNumAnagramsLine_countLine.
  change (omap countLine (buffer :: lines))
    with (match countLine buffer with
          | Some p => p :: omap countLine lines
          | None => omap countLine lines
          end).
  destruct (countLine buffer) as [[a n]|]; [|done].
  rewrite filter_cons. cbn [fst snd].
  destruct (decide (a = alpha)) as [Heq|Hne]; cbv iota beta.
  - subst alpha. rewrite lookup_insert_eq.
    destruct (filter _ (omap countLine lines)) as [|q l] eqn:Hf;
      [reflexivity|].
    rewrite last_cons_cons.
    destruct (last (q :: l)) eqn:Hl; [done|]. by apply last_None in Hl.
  - by rewrite lookup_insert_ne.
Qed.

(** X8: [importNumAnagrams] changes only the anagram index, and there the
    last kept line that names an alphagram decides its count; an alphagram
    no kept line names keeps the count it had, and a file that cannot be
    opened changes nothing. *)
Theorem importNumAnagrams_last_wins (lines : list string) (e : WordEngine)
  (alpha : string) :
  let e' := importNumAnagrams (Some lines) e in
  numAnagramsMap e' !! alpha
  = match last (filter (λ p, fst p = alpha) (omap countLine lines)) with
    | Some p => Some (snd p)
    | None => numAnagramsMap e !! alpha
    end
  ∧ graph e' = graph e ∧ stems e' = stems e
  ∧ stemAlphagrams e' = stemAlphagrams e
  ∧ definitions e' = definitions e ∧ lexiconName e' = lexiconName e
  ∧ importNumAnagrams None e = e.
Proof.
  cbn zeta. unfold importNumAnagrams. cbn.
  rewrite importNumAnagramsLines_lookup. by repeat split.
Qed.

End Imports.

Section SetAlgebra.
Context `{!Auxil} {regExp : RegExpOps}.

(** *** The set-algebra search on any number of conditions *)

Lemma inEveryList_cons (e : WordEngine) (d : SearchCondition)
  (conds : list SearchCondition) (w : string) :
  inEveryList e (d :: conds) w
  ↔ (type d = InWordList → w ∈ listedAcceptable e (stringValue d))
    ∧ inEveryList e conds w.
Proof.
  unfold inEveryList. split.
  - intros Hall. split.
    + apply Hall. by apply elem_of_cons; left.
    + intros c Hc. apply Hall. by apply elem_of_cons; right.
  - intros [Hd Hall] c [->|Hc]%elem_of_cons; [done|by apply Hall].
Qed.

Lemma inSomeList_cons (e : WordEngine) (d : SearchCondition)
  (conds : list SearchCondition) (w : string) :
  inSomeList e (d :: conds) w
  ↔ (type d = InWordList ∧ w ∈ listedAcceptable e (stringValue d))
    ∨ inSomeList e conds w.
Proof.
  unfold inSomeList. split.
  - intros (c & [->|Hc]%elem_of_cons & Ht & Hw); [by left|].
    right. by exists c.
  - intros [[Ht Hw]|(c & Hc & Ht & Hw)].
    + exists d. split; [by apply elem_of_cons; left|done].
    + exists c. split; [by apply elem_of_cons; right|done].
Qed.

(** One turn of the loop on a condition that is no word list: the word
    set and the counter go on as they are. *)
Lemma nonGraphLoop_skip (e : WordEngine) (conj : bool) (d : SearchCondition)
  (rest : list SearchCondition) (F : gset string) (n lo hi : Z) :
  type d ≠ InWordList →
  nonGraphLoop e conj (d :: rest) F n lo hi
  = if decide (type d = NumAnagrams)
    then if (hi <? minValue d) || (maxValue d <? lo) then None
         else nonGraphLoop e conj rest F n (minValue d) (maxValue d)
    else nonGraphLoop e conj rest F n lo hi.
Proof.
  intros Hd. cbn [nonGraphLoop].
  rewrite (bool_decide_eq_false_2 _ Hd). cbn [negb].
  destruct (decide (type d = NumAnagrams)); [|done].
  by destruct (_ || _).
Qed.

(** One turn of the loop on a word list. *)
Lemma nonGraphLoop_list (e : WordEngine) (conj : bool) (d : SearchCondition)
  (rest : list SearchCondition) (F : gset string) (n lo hi : Z) :
  type d = InWordList →
  nonGraphLoop e conj (d :: rest) F n lo hi
  = if n =? 0
    then nonGraphLoop e conj rest (listedAcceptable e (stringValue d))
                      (n + 1) lo hi
    else if conj
    then if decide (F ∩ listedAcceptable e (stringValue d) = ∅) then None
         else nonGraphLoop e conj rest
                (F ∩ listedAcceptable e (stringValue d)) (n + 1) lo hi
    else nonGraphLoop e conj rest
           (listedAcceptable e (stringValue d) ∪ F) (n + 1) lo hi.
Proof.
  intros Hd. cbn [nonGraphLoop]. rewrite Hd.
  rewrite decide_False by discriminate.
  rewrite bool_decide_eq_true_2 by reflexivity. cbn [negb].
  rewrite acceptableWords_listed, filter_elem_of_inter, insertAll_union.
  done.
Qed.

Lemma nonGraphLoop_members (e : WordEngine) (conj : bool)
  (conds : list SearchCondition) (F : gset string) (n lo hi : Z)
  (r : Narrowed) (w : string) :
  0 < n →
  nonGraphLoop e conj conds F n lo hi = Some r →
  w ∈ finalWordSet r
  ↔ if conj then w ∈ F ∧ inEveryList e conds w
    else w ∈ F ∨ inSomeList e conds w.
Proof.
  revert F n lo hi.
  induction conds as [|d rest IH]; intros F n lo hi Hn Hloop.
  - injection Hloop as <-. cbn [finalWordSet].
    destruct conj.
    + split; [|tauto]. intros Hw. split; [done|].
      intros c Hc. by apply elem_of_nil in Hc.
    + split; [tauto|]. intros [Hw|(c & Hc & _)]; [done|].
      by apply elem_of_nil in Hc.
  - destruct (decide (type d = InWordList)) as [Hd|Hd].
    + rewrite nonGraphLoop_list in Hloop by done.
      destruct (Z.eqb_spec n 0) as [|_]; [lia|].
      destruct conj.
      * destruct (decide _) as [|Hne]; [done|].
        rewrite (IH _ (n + 1) _ _ ltac:(lia) Hloop), inEveryList_cons.
        set_solver.
      * rewrite (IH _ (n + 1) _ _ ltac:(lia) Hloop), inSomeList_cons.
        set_solver.
    + rewrite nonGraphLoop_skip in Hloop by done.
      assert (Hrest : ∃ lo' hi', nonGraphLoop e conj rest F n lo' hi' = Some r).
      { destruct (decide (type d = NumAnagrams)); [|by eexists _, _].
        destruct (_ || _); [done|]. by eexists _, _. }
      destruct Hrest as (lo' & hi' & Hrest).
      rewrite (IH _ _ _ _ Hn Hrest).
      destruct conj.
      * rewrite inEveryList_cons. tauto.
      * rewrite inSomeList_cons. tauto.
Qed.

Lemma nonGraphLoop_members_first (e : WordEngine) (conj : bool)
  (conds : list SearchCondition) (lo hi : Z) (r : Narrowed) :
  nonGraphLoop e conj conds ∅ 0 lo hi = Some r →
  (Exists (λ c, type c = InWordList) conds →
   ∀ w, w ∈ finalWordSet r
        ↔ if conj then inEveryList e conds w else inSomeList e conds w)
  ∧ (Forall (λ c, type c ≠ InWordList) conds → finalWordSet r = ∅).
Proof.
  revert lo hi. induction conds as [|d rest IH]; intros lo hi Hloop.
  - injection Hloop as <-. split; [|done].
    intros Hex. by apply Exists_nil in Hex.
  - destruct (decide (type d = InWordList)) as [Hd|Hd].
    + rewrite nonGraphLoop_list in Hloop by done.
      change (0 =? 0) with true in Hloop. cbv iota in Hloop. split.
      * intros _ w.
        rewrite (nonGraphLoop_members _ _ _ _ (0 + 1) _ _ _ w ltac:(lia)
                   Hloop).
        destruct conj.
        -- rewrite inEveryList_cons. tauto.
        -- rewrite inSomeList_cons. tauto.
      * intros Hall. by apply Forall_cons in Hall as [? _].
    + rewrite nonGraphLoop_skip in Hloop by done.
      assert (Hrest : ∃ lo' hi', nonGraphLoop e conj rest ∅ 0 lo' hi' = Some r).
      { destruct (decide (type d = NumAnagrams)); [|by eexists _, _].
        destruct (_ || _); [done|]. by eexists _, _. }
      destruct Hrest as (lo' & hi' & Hrest).
      destruct (IH _ _ Hrest) as [IHe IHn]. split.
      * intros [?|Hex]%Exists_cons; [done|]. intros w.
        rewrite (IHe Hex).
        destruct conj.
        -- rewrite inEveryList_cons. tauto.
        -- rewrite inSomeList_cons. tauto.
      * intros Hall. apply Forall_cons in Hall as [_ Hall]. by apply IHn.
Qed.

(** Without range conditions the loop gives up only under conjunction,
    on an empty intersection. *)
Lemma nonGraphLoop_none (e : WordEngine) (conj : bool)
  (conds : list SearchCondition) (F : gset string) (n lo hi : Z) (w : string) :
  0 ≤ n →
  Forall (λ c, type c ≠ NumAnagrams) conds →
  nonGraphLoop e conj conds F n lo hi = None →
  conj = true
  ∧ ¬ ((n ≠ 0 → w ∈ F) ∧ inEveryList e conds w).
Proof.
  revert F n lo hi.
  induction conds as [|d rest IH]; intros F n lo hi Hn Hall Hloop; [done|].
  apply Forall_cons in Hall as [Hd Hall].
  destruct (decide (type d = InWordList)) as [Hl|Hl].
  - rewrite nonGraphLoop_list in Hloop by done.
    destruct (Z.eqb_spec n 0) as [->|Hn0].
    + destruct (IH _ (0 + 1) _ _ ltac:(lia) Hall Hloop) as [-> Hno].
      split; [done|]. rewrite inEveryList_cons. intros [_ [Hw Hrest]].
      apply Hno. split; [intros _; by apply Hw|done].
    + destruct conj.
      * split; [done|]. rewrite inEveryList_cons.
        intros [HF [Hw Hrest]]. specialize (HF Hn0). specialize (Hw Hl).
        destruct (decide _) as [Hempty|Hne]; [set_solver|].
        destruct (IH _ (n + 1) _ _ ltac:(lia) Hall Hloop) as [_ Hno].
        apply Hno. split; [intros _; set_solver|done].
      * by destruct (IH _ (n + 1) _ _ ltac:(lia) Hall Hloop) as [? _].
  - rewrite nonGraphLoop_skip in Hloop by done.
    rewrite decide_False in Hloop by done.
    destruct (IH _ _ _ _ Hn Hall Hloop) as [-> Hno]. split; [done|].
    rewrite inEveryList_cons. intros [HF [_ Hrest]]. by apply Hno.
Qed.

Lemma nonGraphLoop_range_kept (e : WordEngine) (conj : bool)
  (conds : list SearchCondition) (F : gset string) (n lo hi : Z)
  (r : Narrowed) :
  Forall (λ c, type c ≠ NumAnagrams) conds →
  nonGraphLoop e conj conds F n lo hi = Some r →
  minAnagrams r = lo ∧ maxAnagrams r = hi.
Proof.
  revert F n. induction conds as [|d rest IH]; intros F n Hall Hloop.
  - by injection Hloop as <-.
  - apply Forall_cons in Hall as [Hd Hall].
    destruct (decide (type d = InWordList)) as [Hl|Hl].
    + rewrite nonGraphLoop_list in Hloop by done.
      destruct (n =? 0); [by eapply IH|].
      destruct conj; [|by eapply IH].
      destruct (decide _); [done|by eapply IH].
    + rewrite nonGraphLoop_skip in Hloop by done.
      rewrite decide_False in Hloop by done. by eapply IH.
Qed.

Lemma setToList_empty : setToList ∅ = [].
Proof.
  destruct (setToList ∅) as [|w l] eqn:Hl; [done|].
  assert (Hw : w ∈ setToList ∅) by (rewrite Hl; by apply elem_of_cons; left).
  apply elem_of_setToList in Hw. set_solver.
Qed.

(** X9: [nonGraphSearch] returns its words in ascending order, each
    once. *)
Theorem nonGraphSearch_ordered (e : WordEngine) (spec : SearchSpec) :
  Sorted string_le (nonGraphSearch e spec) ∧ NoDup (nonGraphSearch e spec).
Proof.
  unfold nonGraphSearch.
  destruct (nonGraphLoop _ _ _ _ _ _ _) as [r|].
  - split; [apply setToList_sorted|apply NoDup_setToList].
  - split; constructor.
Qed.

(** X10: a spec without a word list gets nothing from [nonGraphSearch],
    whatever its other conditions are: the words are never drawn from the
    anagram index. *)
Theorem nonGraphSearch_needs_word_list (e : WordEngine) (spec : SearchSpec) :
  Forall (λ c, type c ≠ InWordList) (conditions spec) →
  nonGraphSearch e spec = [].
Proof.
  intros Hall. unfold nonGraphSearch.
  destruct (nonGraphLoop _ _ _ _ _ _ _) as [r|] eqn:Hloop; [|done].
  destruct (nonGraphLoop_members_first _ _ _ _ _ _ Hloop) as [_ Hempty].
  rewrite (Hempty Hall). rewrite bool_decide_eq_true_2 by done.
  cbn [negb andb]. apply setToList_empty.
Qed.

(** X11: on a spec with word lists and no anagram-count range,
    [nonGraphSearch] returns exactly the acceptable words that every list
    holds, under conjunction, and that some list holds otherwise; where the
    other conditions stand among the lists makes no difference. *)
Theorem nonGraphSearch_word_lists (e : WordEngine) (spec : SearchSpec)
  (w : string) :
  Forall (λ c, type c ≠ NumAnagrams) (conditions spec) →
  Exists (λ c, type c = InWordList) (conditions spec) →
  w ∈ nonGraphSearch e spec ↔ inWordLists e spec w.
Proof.
  intros Hall Hex. unfold nonGraphSearch, inWordLists.
  destruct (nonGraphLoop _ _ _ _ _ _ _) as [r|] eqn:Hloop.
  - destruct (nonGraphLoop_range_kept _ _ _ _ _ _ _ _ Hall Hloop) as [-> ->].
    destruct (nonGraphLoop_members_first _ _ _ _ _ _ Hloop) as [Hmem _].
    change (0 <? 0) with false.
    change (MAX_ANAGRAMS <? MAX_ANAGRAMS) with false.
    rewrite andb_false_r, elem_of_setToList. by apply Hmem.
  - destruct (nonGraphLoop_none _ _ _ _ 0 _ _ w ltac:(lia) Hall Hloop)
      as [-> Hno].
    split; [by intros ?%elem_of_nil|]. intros Hin. destruct Hno. by split.
Qed.






End SetAlgebra.


Section GraphPath.
Context `{!Auxil} {regExp : RegExpOps} `{!GraphOps, !SpecOps, !LetterBag}.

(** *** The choice between the two paths *)

Lemma classify_flags (st : Classified) (c : SearchCondition) :
  (mustSearchGraph (classify st c) = true
   ↔ mustSearchGraph st = true ∨ forcesGraph c)
  ∧ (wordListCondition (classify st c) = true
     ↔ wordListCondition st = true ∨ countsAsWordList c)
  ∧ clIndex (classify st c) = S (clIndex st)
  ∧ length (clConditions (classify st c)) = length (clConditions st).
Proof.
  unfold classify, forcesGraph, countsAsWordList.
  destruct (type c) eqn:Ht; cbn;
    try (repeat split; try done; try tauto;
         try (intros [?|[?|[? _]]]; done); fail).
  - destruct (decide _) as [Hs|Hs]; cbn.
    + rewrite length_insert. repeat split; try done; try tauto.
    + repeat split; try done; try tauto.
      intros [?|[?|[_ ?]]]; done.
  - destruct (negated c); cbn; repeat split; try done; try tauto.
    intros [?|?]; done.
Qed.

Lemma classify_fold_flags (conds : list SearchCondition) (st : Classified) :
  (mustSearchGraph (foldl classify st conds) = true
   ↔ mustSearchGraph st = true ∨ Exists forcesGraph conds)
  ∧ (wordListCondition (foldl classify st conds) = true
     ↔ wordListCondition st = true ∨ Exists countsAsWordList conds).
Proof.
  revert st. induction conds as [|c conds IH]; intros st; cbn [foldl].
  - rewrite !Exists_nil. tauto.
  - destruct (IH (classify st c)) as [IHm IHw].
    destruct (classify_flags st c) as (Hm & Hw & _).
    rewrite IHm, IHw, Hm, Hw, !Exists_cons. tauto.
Qed.

(** X13: [search] takes the set-algebra path exactly when some condition
    of the optimized spec counts as a word list and none sends it to the
    graph. *)
Theorem search_path_choice (e : WordEngine) (spec : SearchSpec)
  (allCaps : bool) :
  let cl := classifyAll (conditions (optimize spec)) in
  (wordListCondition cl && negb (mustSearchGraph cl) = true
   ↔ Exists countsAsWordList (conditions (optimize spec))
     ∧ ¬ Exists forcesGraph (conditions (optimize spec)))
  ∧ (wordListCondition cl && negb (mustSearchGraph cl) = true →
     search e spec allCaps
     = nonGraphSearch e {| conditions := clConditions cl;
                           conjunction := conjunction (optimize spec) |}).
Proof.
  intros cl. split.
  - subst cl. unfold classifyAll.
    destruct (classify_fold_flags (conditions (optimize spec))
                {| mustSearchGraph := false; wordListCondition := false;
                   probRangeMin := 0; probRangeMax := 0; clIndex := 0%nat;
                   clConditions := conditions (optimize spec) |})
      as [Hm Hw].
    cbn [mustSearchGraph wordListCondition] in Hm, Hw.
    rewrite andb_true_iff, negb_true_iff, Hw.
    destruct (mustSearchGraph (foldl _ _ _)) eqn:Hg.
    + split; [intros [_ ?]; done|]. intros [_ Hno]. destruct Hno.
      destruct (proj1 Hm eq_refl) as [?|?]; done.
    + split.
      * intros [[?|Hex] _]; [done|]. split; [done|]. intros Hf.
        assert (false = true) by (apply Hm; by right). done.
      * intros [Hex _]. split; [by right|done].
  - intros Hpath. unfold search. fold cl. by rewrite Hpath.
Qed.

(** *** What the graph path returns *)

Lemma afterGraphSearch_found (e : WordEngine)
  (conds : list SearchCondition) (pmin pmax : Z) (found : list string)
  (w : string) :
  w ∈ afterGraphSearch e conds pmin pmax false found → w ∈ found.
Proof.
  unfold afterGraphSearch.
  assert (Hfilter : ∀ x,
            x ∈ List.filter (λ w, matchesConditions e w conds) found →
            x ∈ found).
  { intros x Hx. apply list_elem_of_In, filter_In in Hx.
    apply list_elem_of_In. tauto. }
  destruct (0 <? pmax); cbn [andb].
  - destruct (_ <? pmin); [by intros ?%elem_of_nil|].
    intros Hin%elem_of_mid.
    destruct (probMap_values _ [] _ Hin) as [Hw|Hnil]; [by apply Hfilter|].
    by apply elem_of_nil in Hnil.
  - apply Hfilter.
Qed.

(** X14: on the graph path [search] invents nothing: a word it returns
    (capitals not forced) is one the graph search found, and it passes
    [matchesConditions]. *)
Theorem search_graph_words (e : WordEngine) (spec : SearchSpec) (w : string) :
  let cl := classifyAll (conditions (optimize spec)) in
  wordListCondition cl && negb (mustSearchGraph cl) = false →
  w ∈ search e spec false →
  w ∈ graphSearch (graph e)
        {| conditions := clConditions cl;
           conjunction := conjunction (optimize spec) |}
  ∧ matchesConditions e w (clConditions cl) = true.
Proof.
  intros cl Hpath. unfold search. fold cl. rewrite Hpath.
  cbn [conditions]. intros Hw. split.
  - by apply afterGraphSearch_found in Hw.
  - by apply afterGraphSearch_matches in Hw.
Qed.

Lemma classify_fold_kept (rest seen : list SearchCondition)
  (st : Classified) :
  clIndex st = length seen →
  (∀ i c, (seen ++ rest)%list !! i = Some c → type c ≠ BelongToGroup →
          clConditions st !! i = Some c) →
  ∀ i c, (seen ++ rest)%list !! i = Some c → type c ≠ BelongToGroup →
         clConditions (foldl classify st rest) !! i = Some c.
Proof.
  revert seen st. induction rest as [|d rest IH]; intros seen st Hidx Hinv;
    [done|].
  cbn [foldl]. intros i c Hi Hc.
  assert (Happ : (seen ++ d :: rest)%list = ((seen ++ [d]) ++ rest)%list)
    by by rewrite <- app_assoc.
  rewrite Happ in Hi.
  apply (IH (seen ++ [d])%list (classify st d)); [| |done|done].
  - destruct (classify_flags st d) as (_ & _ & -> & _).
    rewrite Hidx, length_app. cbn. lia.
  - intros j c' Hj Hc'. rewrite <- Happ in Hj.
    specialize (Hinv j c' Hj Hc').
    unfold classify. destruct (type d) eqn:Hd; cbn; try done.
    destruct (decide _); cbn; [|done].
    destruct (decide (j = clIndex st)) as [->|Hne].
    + rewrite Hidx in Hj. rewrite list_lookup_middle in Hj by done.
      injection Hj as <-. congruence.
    + by rewrite list_lookup_insert_ne.
Qed.

Lemma classifyAll_kept (conds : list SearchCondition) (c : SearchCondition) :
  c ∈ conds → type c ≠ BelongToGroup → c ∈ clConditions (classifyAll conds).
Proof.
  intros [i Hi]%list_elem_of_lookup Hc.
  apply list_elem_of_lookup. exists i.
  unfold classifyAll.
  apply (classify_fold_kept conds []); [done| |done|done].
  intros j c' Hj _. exact Hj.
Qed.

(** X15: a negated word list keeps its words out of the result of
    [search] (capitals not forced), whatever the other conditions, the
    graph search and the optimization are: the expression built from a
    word that is returned finds nothing in the list, and so a returned
    word of letters, digits and underscores, which the expression takes
    as it is, does not stand in the list as a whole word. *)
Theorem search_excludes_negated_list (e : WordEngine) (spec : SearchSpec)
  (c : SearchCondition) (w : string) :
  c ∈ conditions (optimize spec) →
  type c = InWordList → negated c = true →
  w ∈ search e spec false →
  containsWordExpression (QStr.toUpper w) (stringValue c) = false
  ∧ (isLiteralWord (QStr.toUpper w) = true →
     containsWholeWord (QStr.toUpper w) (stringValue c) = false).
Proof.
  intros Hin Ht Hn Hfound.
  assert (Hexpr : containsWordExpression (QStr.toUpper w) (stringValue c)
                  = false).
  { revert Hfound. unfold search.
    assert (Hg : mustSearchGraph (classifyAll (conditions (optimize spec)))
                 = true).
    { apply classify_fold_negated, Exists_exists. by exists c. }
    rewrite Hg, andb_false_r. cbn [conditions].
    intros Hw%afterGraphSearch_matches.
    assert (Hc : c ∈ clConditions
                       (classifyAll (conditions (optimize spec)))).
    { apply classifyAll_kept; [done|]. rewrite Ht. discriminate. }
    rewrite (matchesLoop_word_list e _ _ c Hw Hc Ht). by rewrite Hn. }
  split; [done|]. intros Hliteral.
  unfold containsWordExpression in Hexpr. by rewrite Hliteral in Hexpr.
Qed.

(** X16: on the graph path, a probability-order range with a positive
    upper bound, not upside down, over survivors whose keys differ: the
    survivors are put in ascending key order, the words at the places
    [max 1 min] to [max] of that order are returned (none when [min] is
    beyond the number of survivors), and never more than the range
    holds. *)
Theorem search_probability_slice (e : WordEngine) (spec : SearchSpec) :
  let cl := classifyAll (conditions (optimize spec)) in
  let survivors :=
    List.filter (λ w, matchesConditions e w (clConditions cl))
      (graphSearch (graph e)
         {| conditions := clConditions cl;
            conjunction := conjunction (optimize spec) |}) in
  let first := Z.max (probRangeMin cl) 1 in
  wordListCondition cl && negb (mustSearchGraph cl) = false →
  0 < probRangeMax cl → first ≤ probRangeMax cl + 1 →
  NoDup (map radixOf survivors) →
  ∃ ordered,
    ordered ≡ₚ survivors
    ∧ StronglySorted keyLt (map radixOf ordered)
    ∧ search e spec false
      = (if Z.of_nat (length survivors) <? probRangeMin cl then []
         else take (Z.to_nat (probRangeMax cl - first + 1))
                   (drop (Z.to_nat (first - 1)) ordered))
    ∧ (length (search e spec false)
       ≤ Z.to_nat (probRangeMax cl - first + 1))%nat.
Proof.
  intros cl survivors first Hpath Hmax Hrange Hnd.
  destruct (afterGraphSearch_probability_slice e (clConditions cl)
              (probRangeMin cl) (probRangeMax cl)
              (graphSearch (graph e)
                 {| conditions := clConditions cl;
                    conjunction := conjunction (optimize spec) |})
              Hmax Hrange Hnd) as (ordered & Hperm & Hsorted & Heq).
  exists ordered. split; [done|]. split; [done|].
  assert (Hsearch : search e spec false
                    = afterGraphSearch e (clConditions cl) (probRangeMin cl)
                        (probRangeMax cl) false
                        (graphSearch (graph e)
                           {| conditions := clConditions cl;
                              conjunction := conjunction (optimize spec) |})).
  { unfold search. fold cl. by rewrite Hpath. }
  rewrite Hsearch, Heq. fold survivors first. split; [done|].
  destruct (_ <? _); [cbn; lia|].
  rewrite length_take. lia.
Qed.

Lemma classify_fold_range (conds : list SearchCondition) (st : Classified) :
  (probRangeMin (foldl classify st conds),
   probRangeMax (foldl classify st conds))
  = match last (List.filter
                  (λ c, bool_decide (type c = ProbabilityOrder)) conds) with
    | Some c => (minValue c, maxValue c)
    | None => (probRangeMin st, probRangeMax st)
    end.
Proof.
  revert st. induction conds as [|d conds IH]; intros st; [done|].
  cbn [foldl List.filter]. rewrite IH.
  destruct (bool_decide_reflect (type d = ProbabilityOrder)) as [Hd|Hd].
  - destruct (List.filter _ conds) as [|q l] eqn:Hf.
    + cbn [last]. unfold classify. by rewrite Hd.
    + rewrite last_cons_cons.
      destruct (last (q :: l)) eqn:Hl; [done|]. by apply last_None in Hl.
  - destruct (last _); [done|].
    unfold classify. destruct (type d); try done.
    by destruct (decide _).
Qed.

(** X17: the probability-order range [search] works with is that of the
    last [ProbabilityOrder] condition of the optimized spec, and 0 to 0,
    which asks for nothing, when there is none. *)
Theorem search_probability_range (spec : SearchSpec) :
  let cl := classifyAll (conditions (optimize spec)) in
  (probRangeMin cl, probRangeMax cl)
  = match last (List.filter
                  (λ c, bool_decide (type c = ProbabilityOrder))
                  (conditions (optimize spec))) with
    | Some c => (minValue c, maxValue c)
    | None => (0, 0)
    end.
Proof. cbn zeta. unfold classifyAll. by rewrite classify_fold_range. Qed.

Lemma upperChar_idem (c : ascii) :
  QStr.upperChar (QStr.upperChar c) = QStr.upperChar c.
Proof. by destruct c as [[] [] [] [] [] [] [] []]. Qed.

Lemma toUpper_idem (s : string) :
  QStr.toUpper (QStr.toUpper s) = QStr.toUpper s.
Proof.
  induction s as [|c s IH]; [done|].
  cbn [QStr.toUpper]. by rewrite upperChar_idem, IH.
Qed.

(** X18: the capitals flag acts on the graph path only: there every word
    returned with the flag is in capitals, while on the set-algebra path
    the flag changes nothing and the words come back as listed. *)
Theorem search_allCaps (e : WordEngine) (spec : SearchSpec) :
  let cl := classifyAll (conditions (optimize spec)) in
  (wordListCondition cl && negb (mustSearchGraph cl) = false →
   Forall (λ w, QStr.toUpper w = w) (search e spec true))
  ∧ (wordListCondition cl && negb (mustSearchGraph cl) = true →
     search e spec true = search e spec false).
Proof.
  intros cl. unfold search. fold cl. split; intros ->; [|done].
  unfold afterGraphSearch.
  destruct (_ && _); [constructor|].
  apply Forall_forall. intros w Hw.
  apply list_elem_of_In, in_map_iff in Hw as (u & <- & _).
  apply toUpper_idem.
Qed.

Lemma nonGraphSearch_single_list (e : WordEngine) (spec : SearchSpec)
  (c : SearchCondition) (w : string) :
  conditions spec = [c] → type c = InWordList →
  w ∈ nonGraphSearch e spec ↔ w ∈ listedAcceptable e (stringValue c).
Proof.
  intros Hc Ht. unfold nonGraphSearch. rewrite Hc.
  rewrite nonGraphLoop_list by done.
  change (0 =? 0) with true. cbv iota. cbn [nonGraphLoop].
  cbn [finalWordSet minAnagrams maxAnagrams].
  change (0 <? 0) with false.
  change (MAX_ANAGRAMS <? MAX_ANAGRAMS) with false.
  rewrite andb_false_r. apply elem_of_setToList.
Qed.

(** X19: a spec whose one condition, once optimized, is the group of the
    new OWL2 words is served from the word file of that group: [search]
    returns the acceptable words the file lists, whether the condition is
    negated or not. *)
Theorem search_new_in_owl2 (e : WordEngine) (spec : SearchSpec)
  (c : SearchCondition) (allCaps : bool) (w : string) :
  conditions (optimize spec) = [c] →
  type c = BelongToGroup →
  stringToSearchSet (stringValue c) = SetNewInOwl2 →
  w ∈ search e spec allCaps ↔ w ∈ listedAcceptable e getNewInOwl2String.
Proof.
  intros Hc Ht Hs. unfold search, classifyAll. rewrite Hc.
  cbn [foldl]. unfold classify at 1 2 3. rewrite Ht. rewrite decide_True by done.
  cbn [wordListCondition mustSearchGraph clConditions clIndex andb negb].
  cbn [list_insert insert].
  match goal with
  | |- _ ∈ nonGraphSearch _ ?sp ↔ _ =>
      apply (nonGraphSearch_single_list e sp
               {| type := InWordList; stringValue := getNewInOwl2String;
                  minValue := minValue c; maxValue := maxValue c;
                  negated := negated c |} w); done
  end.
Qed.

(** *** The post-conditions *)

Lemma matchesLoop_cons (e : WordEngine) (wordUpper : string)
  (c : SearchCondition) (rest : list SearchCondition) :
  matchesLoop e wordUpper (c :: rest)
  = matchesLoop e wordUpper [c] && matchesLoop e wordUpper rest.
Proof.
  cbn [matchesLoop].
  destruct (type c); try done;
    repeat match goal with
           | |- context [if ?b then _ else _] => destruct b; try done
           end.
Qed.

Lemma matchesLoop_tested (e : WordEngine) (wordUpper : string)
  (conds : list SearchCondition) :
  matchesLoop e wordUpper conds
  = matchesLoop e wordUpper (List.filter isTested conds).
Proof.
  induction conds as [|c l IH]; [done|].
  cbn [List.filter]. unfold isTested at 1.
  destruct (type c) eqn:Ht; cbn [negb];
    try (rewrite (matchesLoop_cons _ _ c l),
           (matchesLoop_cons _ _ c (List.filter _ _)), IH; done);
    try (cbn [matchesLoop]; rewrite Ht; exact IH).
  destruct (bool_decide_reflect
              (stringToSearchSet (stringValue c) = UnknownSearchSet))
    as [Hu|Hu]; cbn [negb].
  - cbn [matchesLoop]. rewrite Ht. rewrite decide_True by done. exact IH.
  - by rewrite (matchesLoop_cons _ _ c l),
      (matchesLoop_cons _ _ c (List.filter _ _)), IH.
Qed.

(** X20: [matchesConditions] is the conjunction of its tests: the order of
    the conditions does not matter, and the conditions it does not test
    (patterns, probability order, kinds it does not name, groups of an
    unknown name) can be left out. *)
Theorem matchesConditions_conjunction (e : WordEngine) (w : string)
  (conds conds' : list SearchCondition) :
  conds ≡ₚ conds' →
  matchesConditions e w conds = matchesConditions e w conds'
  ∧ matchesConditions e w conds
    = matchesConditions e w (List.filter isTested conds).
Proof.
  unfold matchesConditions. intros Hperm. split; [|apply matchesLoop_tested].
  induction Hperm as [|c l l' _ IH|c d l|l l' l'' _ IH1 _ IH2].
  - done.
  - by rewrite (matchesLoop_cons _ _ c l), (matchesLoop_cons _ _ c l'), IH.
  - rewrite (matchesLoop_cons _ _ d (c :: l)), (matchesLoop_cons _ _ c l),
      (matchesLoop_cons _ _ c (d :: l)), (matchesLoop_cons _ _ d l).
    rewrite !andb_assoc. f_equal. apply andb_comm.
  - congruence.
Qed.

Lemma classify_fold_untested (conds : list SearchCondition)
  (st : Classified) :
  Forall (λ c, isTested c = false ∧ type c ≠ ProbabilityOrder) conds →
  wordListCondition (foldl classify st conds) = wordListCondition st
  ∧ probRangeMin (foldl classify st conds) = probRangeMin st
  ∧ probRangeMax (foldl classify st conds) = probRangeMax st
  ∧ clConditions (foldl classify st conds) = clConditions st.
Proof.
  revert st. induction conds as [|c l IH]; intros st Hall; [done|].
  apply Forall_cons in Hall as [[Hc Hp] Hall].
  cbn [foldl]. destruct (IH (classify st c) Hall) as (-> & -> & -> & ->).
  unfold isTested in Hc. unfold classify.
  destruct (type c) eqn:Ht; try done.
  apply negb_false_iff, bool_decide_eq_true in Hc.
  rewrite decide_False; [done|]. by rewrite Hc.
Qed.

(** X21: a spec whose optimized conditions are all of kinds that are
    neither tested after the graph search nor a probability-order range
    (patterns and the like) is answered by the graph alone: [search]
    returns the words of the graph search, in their order, in capitals
    when asked. *)
Theorem search_graph_only (e : WordEngine) (spec : SearchSpec) :
  Forall (λ c, isTested c = false ∧ type c ≠ ProbabilityOrder)
         (conditions (optimize spec)) →
  search e spec false = graphSearch (graph e) (optimize spec)
  ∧ search e spec true
    = map QStr.toUpper (graphSearch (graph e) (optimize spec)).
Proof.
  intros Hall.
  destruct (classify_fold_untested (conditions (optimize spec))
              {| mustSearchGraph := false; wordListCondition := false;
                 probRangeMin := 0; probRangeMax := 0; clIndex := 0%nat;
                 clConditions := conditions (optimize spec) |} Hall)
    as (Hw & Hmin & Hmax & Hconds).
  cbn [wordListCondition probRangeMin probRangeMax clConditions] in *.
  assert (Hmatch : ∀ w, matchesConditions e w (conditions (optimize spec))
                        = true).
  { intros w. unfold matchesConditions. rewrite matchesLoop_tested.
    replace (List.filter isTested (conditions (optimize spec)))
      with (@nil SearchCondition); [done|].
    symmetry. clear -Hall.
    induction (conditions (optimize spec)) as [|c l IH]; [done|].
    apply Forall_cons in Hall as [[Hc _] Hall].
    cbn [List.filter]. rewrite Hc. by apply IH. }
  assert (Hfilter : ∀ l : list string,
             List.filter (λ w, matchesConditions e w
                                 (conditions (optimize spec))) l = l).
  { induction l as [|w l IH]; [done|].
    cbn [List.filter]. by rewrite Hmatch, IH. }
  unfold search, classifyAll. rewrite Hw, Hmin, Hmax, Hconds.
  cbn [andb conditions]. unfold afterGraphSearch. rewrite Hfilter.
  change (0 <? 0) with false. cbn [andb].
  by destruct (optimize spec).
Qed.

End GraphPath.

Section Lookups.
Context `{!Auxil} {regExp : RegExpOps} `{!GraphOps, !SpecOps, !LetterBag}.

(** *** Alphagrams *)

Lemma alphagrams_fold_elem (strings : list string) (seen : gset string)
  (a : string) :
  a ∈ foldl (λ seen w, {[ getAlphagram w ]} ∪ seen) seen strings
  ↔ a ∈ seen ∨ ∃ w, w ∈ strings ∧ a = getAlphagram w.
Proof.
  revert seen. induction strings as [|w l IH]; intros seen; cbn [foldl].
  - split; [by left|]. intros [?|(w & Hw & _)]; [done|].
    by apply elem_of_nil in Hw.
  - rewrite IH. split.
    + intros [Ha|(u & Hu & ->)].
      * apply elem_of_union in Ha as [Ha|Ha]; [|by left].
        apply elem_of_singleton in Ha as ->. right. exists w.
        split; [by left|done].
      * right. exists u. split; [by right|done].
    + intros [Ha|(u & Hu & ->)].
      * left. set_solver.
      * apply elem_of_cons in Hu as [->|Hu].
        -- left. set_solver.
        -- right. by exists u.
Qed.

Lemma alphagrams_fold_size (strings : list string) (seen : gset string) :
  (size (foldl (λ seen w, {[ getAlphagram w ]} ∪ seen) seen strings)
   ≤ size seen + length strings)%nat.
Proof.
  revert seen. induction strings as [|w l IH]; intros seen; cbn [foldl length].
  - lia.
  - etrans; [apply IH|].
    rewrite size_union_alt, size_singleton.
    assert (size (seen ∖ {[ getAlphagram w ]}) ≤ size seen)%nat
      by (apply subseteq_size; set_solver).
    lia.
Qed.

(** X22: [alphagrams] returns each alphagram of the strings once, in
    ascending order, so never more entries than there are strings. *)
Theorem alphagrams_distinct (strings : list string) :
  Sorted string_le (alphagrams strings)
  ∧ NoDup (alphagrams strings)
  ∧ (∀ a, a ∈ alphagrams strings ↔ ∃ w, w ∈ strings ∧ a = getAlphagram w)
  ∧ (length (alphagrams strings) ≤ length strings)%nat.
Proof.
  unfold alphagrams. split; [apply setToList_sorted|].
  split; [apply NoDup_setToList|]. split.
  - intros a. rewrite elem_of_setToList, alphagrams_fold_elem.
    split; [intros [Ha|Ha]; [set_solver|done]|by right].
  - rewrite (Permutation_length (setToList_perm _)).
    pose proof (alphagrams_fold_size strings ∅) as Hsize.
    rewrite size_empty in Hsize. exact Hsize.
Qed.

(** *** Hook letters *)

Lemma letterInsert_elem (c : ascii) (letters : string) (x : ascii) :
  x ∈ list_ascii_of_string (letterInsert c letters)
  ↔ x = c ∨ x ∈ list_ascii_of_string letters.
Proof.
  induction letters as [|d letters IH];
    cbn [letterInsert list_ascii_of_string].
  - set_solver.
  - destruct (_ <? _)%nat; [cbn [list_ascii_of_string]; set_solver|].
    destruct (Ascii.eqb_spec c d) as [->|Hne];
      cbn [list_ascii_of_string]; set_solver.
Qed.

Lemma letterInsert_sorted (c : ascii) (letters : string) :
  StronglySorted charLt (list_ascii_of_string letters) →
  StronglySorted charLt (list_ascii_of_string (letterInsert c letters)).
Proof.
  induction letters as [|d letters IH];
    cbn [letterInsert list_ascii_of_string]; intros Hs.
  - repeat constructor.
  - apply StronglySorted_inv in Hs as [Hs Hall].
    destruct (Nat.ltb_spec (nat_of_ascii c) (nat_of_ascii d)) as [Hlt|Hge].
    + cbn [list_ascii_of_string]. constructor; [by constructor|].
      constructor; [done|]. eapply Forall_impl; [exact Hall|].
      intros y Hy. unfold charLt in *. lia.
    + destruct (Ascii.eqb_spec c d) as [->|Hne]; cbn [list_ascii_of_string].
      * by constructor.
      * constructor; [by apply IH|]. apply Forall_forall. intros y Hy.
        apply letterInsert_elem in Hy as [->|Hy].
        -- unfold charLt.
           assert (nat_of_ascii c ≠ nat_of_ascii d).
           { intros Heq. apply Hne.
             rewrite <- (ascii_nat_embedding c), <- (ascii_nat_embedding d).
             by rewrite Heq. }
           lia.
        -- by eapply Forall_forall in Hall.
Qed.

Lemma hookLetters_spec (pick : string → option ascii) (words : list string)
  (letters : string) :
  StronglySorted charLt (list_ascii_of_string letters) →
  match hookLetters pick words letters with
  | Some r =>
      StronglySorted charLt (list_ascii_of_string r)
      ∧ ∀ x, x ∈ list_ascii_of_string r
             ↔ x ∈ list_ascii_of_string letters
               ∨ ∃ w c, w ∈ words ∧ pick w = Some c ∧ x = QStr.lowerChar c
  | None => ∃ w, w ∈ words ∧ pick w = None
  end.
Proof.
  revert letters. induction words as [|w l IH]; intros letters Hs;
    cbn [hookLetters].
  - split; [done|]. intros x. split; [by left|].
    intros [?|(w & c & Hw & _)]; [done|]. by apply elem_of_nil in Hw.
  - destruct (pick w) as [c|] eqn:Hpick.
    + specialize (IH _ (letterInsert_sorted (QStr.lowerChar c) _ Hs)).
      destruct (hookLetters pick l _) as [r|].
      * destruct IH as [Hr Hmem]. split; [done|]. intros x.
        rewrite Hmem, letterInsert_elem. split.
        -- intros [[->|Hx]|(u & d & Hu & Hd & ->)].
           ++ right. exists w, c. split; [by left|done].
           ++ by left.
           ++ right. exists u, d. split; [by right|done].
        -- intros [Hx|(u & d & Hu & Hd & ->)]; [by left; right|].
           apply elem_of_cons in Hu as [->|Hu].
           ++ left. left. congruence.
           ++ right. by exists u, d.
      * destruct IH as (u & Hu & Hd). exists u. split; [by right|done].
    + exists w. split; [by left|done].
Qed.

Lemma lastChar_None (s : string) : QStr.lastChar s = None → s = "".
Proof.
  induction s as [|c s IH]; [done|].
  cbn [QStr.lastChar]. destruct s as [|d s]; [done|].
  intros Hl. by specialize (IH Hl).
Qed.

(** X23: the front hook letters of a word are the first letters, in lower
    case, of the words [search] finds for the pattern [?word]: each once,
    in ascending order.  When an empty word is among those found, the code
    reads outside it, and the model gives no result. *)
Theorem getFrontHookLetters_letters (e : WordEngine) (word : string) :
  let words := search e (patternSpec ("?" +:+ word)) true in
  match getFrontHookLetters e word with
  | Some letters =>
      StronglySorted charLt (list_ascii_of_string letters)
      ∧ ∀ x, x ∈ list_ascii_of_string letters
             ↔ ∃ w c, w ∈ words ∧ firstChar w = Some c
                      ∧ x = QStr.lowerChar c
  | None => "" ∈ words
  end.
Proof.
  intros words. unfold getFrontHookLetters. fold words.
  pose proof (hookLetters_spec firstChar words ""
                ltac:(constructor)) as Hspec.
  destruct (hookLetters firstChar words "") as [r|].
  - destruct Hspec as [Hs Hmem]. split; [done|]. intros x. rewrite Hmem.
    split; [intros [Hx|Hx]; [by apply elem_of_nil in Hx|done]|by right].
  - destruct Hspec as (w & Hw & Hf). by destruct w.
Qed.

(** X24: the back hook letters of a word are the last letters, in lower
    case, of the words [search] finds for the pattern [word?]: each once,
    in ascending order.  When an empty word is among those found, the code
    reads outside it, and the model gives no result. *)
Theorem getBackHookLetters_letters (e : WordEngine) (word : string) :
  let words := search e (patternSpec (word +:+ "?")) true in
  match getBackHookLetters e word with
  | Some letters =>
      StronglySorted charLt (list_ascii_of_string letters)
      ∧ ∀ x, x ∈ list_ascii_of_string letters
             ↔ ∃ w c, w ∈ words ∧ QStr.lastChar w = Some c
                      ∧ x = QStr.lowerChar c
  | None => "" ∈ words
  end.
Proof.
  intros words. unfold getBackHookLetters. fold words.
  pose proof (hookLetters_spec QStr.lastChar words ""
                ltac:(constructor)) as Hspec.
  destruct (hookLetters QStr.lastChar words "") as [r|].
  - destruct Hspec as [Hs Hmem]. split; [done|]. intros x. rewrite Hmem.
    split; [intros [Hx|Hx]; [by apply elem_of_nil in Hx|done]|by right].
  - destruct Hspec as (w & Hw & Hf). by apply lastChar_None in Hf as ->.
Qed.

(** *** Words one letter off a stem *)

Lemma substring_whole (s : string) :
  String.substring 0 (String.length s) s = s.
Proof. induction s as [|c s IH]; [done|]. cbn. by rewrite IH. Qed.

Lemma substring_deleteAt (s : string) (i : nat) :
  (i < String.length s)%nat →
  String.substring 0 i s
  +:+ String.substring (S i) (String.length s - S i) s
  = deleteAt i s.
Proof.
  revert i. induction s as [|c s IH]; intros i Hi; [cbn in Hi; lia|].
  destruct i as [|i].
  - cbn. rewrite Nat.sub_0_r. apply substring_whole.
  - cbn [String.length] in *.
    change (S (String.length s) - S (S i))%nat
      with (String.length s - S i)%nat.
    cbn [String.substring deleteAt]. rewrite <- IH by lia. done.
Qed.

Lemma left_right_deleteAt (s : string) (i : nat) :
  (i < String.length s)%nat →
  QStr.left (Z.of_nat i) s +:+ QStr.right (QStr.size s - Z.of_nat i - 1) s
  = deleteAt i s.
Proof.
  intros Hi. unfold QStr.left, QStr.right, QStr.size.
  replace (Z.of_nat i <? 0) with false by lia.
  replace (Z.of_nat (String.length s) <=? Z.of_nat i) with false by lia.
  replace (Z.of_nat (String.length s) - Z.of_nat i - 1 <? 0)
    with false by lia.
  replace (Z.of_nat (String.length s)
           <=? Z.of_nat (String.length s) - Z.of_nat i - 1)
    with false by lia.
  cbn [orb]. rewrite Nat2Z.id.
  replace (Z.to_nat (Z.of_nat (String.length s) - Z.of_nat i - 1))
    with (String.length s - S i)%nat by lia.
  replace (String.length s - (String.length s - S i))%nat
    with (S i) by lia.
  by apply substring_deleteAt.
Qed.

Lemma oneLetterDeleted_deleteAt (alphaset : gset string) (agram : string) :
  oneLetterDeleted alphaset agram = true
  ↔ ∃ i, (i < String.length agram)%nat ∧ deleteAt i agram ∈ alphaset.
Proof.
  unfold oneLetterDeleted. rewrite existsb_exists. split.
  - intros (z & Hz & Hb). apply list_elem_of_In, elem_of_seqZ in Hz.
    unfold QStr.size in Hz. apply bool_decide_eq_true in Hb.
    exists (Z.to_nat z). split; [lia|].
    rewrite <- left_right_deleteAt by lia.
    by rewrite Z2Nat.id by lia.
  - intros (i & Hi & Hin). exists (Z.of_nat i). split.
    + apply list_elem_of_In, elem_of_seqZ. unfold QStr.size. lia.
    + apply bool_decide_eq_true. by rewrite left_right_deleteAt.
Qed.

Lemma oneLetterOff_stem (e : WordEngine) (word : string) (n : Z) :
  stemAlphagramsOfStems e →
  (if negb (QStr.size word =? n) then false
   else match stemAlphagrams e !! (QStr.size word - 1) with
        | None => false
        | Some alphaset => oneLetterDeleted alphaset (getAlphagram word)
        end) = true
  ↔ oneOffStem e n word.
Proof.
  intros Hinv. unfold oneOffStem.
  destruct (Z.eqb_spec (QStr.size word) n) as [Hn|Hn]; cbn [negb];
    [|split; [done|by intros [? _]]].
  rewrite Hn.
  destruct (stemAlphagrams e !! (n - 1)) as [alphaset|] eqn:Hl.
  - rewrite oneLetterDeleted_deleteAt. split.
    + intros (i & Hi & Hin). split; [done|].
      destruct (proj1 (Hinv (n - 1) _)
                  (ex_intro _ alphaset (conj Hl Hin)))
        as (ws & stem & Hws & Hstem & Heq).
      by exists ws, stem, i.
    + intros (_ & ws & stem & i & Hws & Hstem & Hi & Heq).
      destruct (proj2 (Hinv (n - 1) (getAlphagram stem)))
        as (alphaset' & Hl' & Hin); [by exists ws, stem|].
      exists i. split; [done|]. rewrite Heq. congruence.
  - split; [done|].
    intros (_ & ws & stem & i & Hws & Hstem & Hi & Heq).
    destruct (proj2 (Hinv (n - 1) (getAlphagram stem)))
      as (alphaset' & Hl' & Hin); [by exists ws, stem|]. congruence.
Qed.

(** X25: over a stem index whose alphagram sets hold the alphagrams of
    its stems, as [importStems] builds it, a word is a type-one seven
    exactly when it has seven letters and is a six-letter stem plus one
    letter, letters in any order; and an eight from a seven-letter stem
    exactly when it has eight letters and is a seven-letter stem plus one
    letter. *)
Theorem isSetMember_one_letter_off (e : WordEngine) (word : string) :
  stemAlphagramsOfStems e →
  (isSetMember e word SetTypeOneSevens = true ↔ oneOffStem e 7 word)
  ∧ (isSetMember e word SetEightsFromSevenLetterStems = true
     ↔ oneOffStem e 8 word).
Proof.
  intros Hinv. split.
  - exact (oneLetterOff_stem e word 7 Hinv).
  - exact (oneLetterOff_stem e word 8 Hinv).
Qed.

(** *** Definitions *)

(** X26: [addDefinition] keeps the first definition of a word: called
    for a word that has an entry, or with an empty word or an empty
    text, it leaves the engine as it is. *)
Theorem addDefinition_keeps_first (e : WordEngine) (word d : string) :
  word = "" ∨ d = "" ∨ is_Some (definitions e !! word) →
  addDefinition word d e = e.
Proof.
  intros Hcase. unfold addDefinition.
  destruct ((QStr.size word =? 0) || (QStr.size d =? 0)) eqn:Hempty; [done|].
  destruct Hcase as [->|[->|[m Hm]]].
  - done.
  - by rewrite orb_true_r in Hempty.
  - unfold mapInsertNew. rewrite Hm. by destruct e.
Qed.

Lemma rev_string_twice (s b acc : string) :
  QStr.rev_string acc (QStr.rev_string b s) = QStr.rev_string (s +:+ acc) b.
Proof.
  revert b acc. induction s as [|c s IH]; intros b acc; [done|].
  cbn [QStr.rev_string]. by rewrite IH.
Qed.

Lemma split_lacks (s cur : string) :
  lacks "/" s →
  QStr.split_aux " / " 0 cur s = [QStr.rev_string "" (QStr.rev_string cur s)].
Proof.
  revert cur. induction s as [|c s IH]; intros cur Hs; [done|].
  destruct Hs as [Hc Hs]. cbn [QStr.split_aux QStr.rev_string].
  assert (Hp : String.prefix " / " (String c s) = false).
  { cbn [String.prefix]. destruct (ascii_dec " " c); [|done].
    destruct s as [|d s]; [done|]. destruct Hs as [Hd _].
    cbn [String.prefix]. destruct (ascii_dec "/" d); [by subst|done]. }
  rewrite Hp. by apply IH.
Qed.

Lemma linkIndexIn_lacks (opening closing : ascii) (index : nat)
  (s : string) :
  lacks opening s → linkIndexIn opening closing index s = None.
Proof.
  revert index. induction s as [|c s IH]; intros index Hs; [done|].
  destruct Hs as [Hc Hs]. cbn [linkIndexIn linkHere].
  destruct (Ascii.eqb_spec c opening) as [?|_]; [done|]. by apply IH.
Qed.

(** X27: a definition added for a new word is read back as written when
    it is one sense without a link: the text has no slash, so it is not
    split into senses, and neither an opening brace nor an opening angle
    bracket, so nothing in it is taken for a link. *)
Theorem getDefinition_addDefinition (e : WordEngine) (word d : string) :
  word ≠ "" → d ≠ "" → definitions e !! word = None →
  lacks "/" d → lacks "{" d → lacks "<" d →
  getDefinition (addDefinition word d e) word = d.
Proof.
  intros Hw Hd Hnew Hslash Hbrace Hangle.
  unfold addDefinition.
  replace ((QStr.size word =? 0) || (QStr.size d =? 0)) with false.
  2:{ symmetry. apply orb_false_intro; apply Z.eqb_neq; unfold QStr.size.
      - destruct word; [done|]. cbn [String.length]. lia.
      - destruct d; [done|]. cbn [String.length]. lia. }
  unfold getDefinition. cbn [definitions]. unfold mapInsertNew.
  rewrite Hnew, lookup_insert_eq.
  unfold QStr.split. rewrite split_lacks by done.
  rewrite rev_string_twice. cbn [QStr.rev_string String.append foldl].
  replace (d +:+ "") with d.
  2:{ clear. induction d as [|c d IH]; [done|].
      change (String c d +:+ "") with (String c (d +:+ "")).
      by rewrite <- IH. }
  cbn [mmInsert foldl snd]. change (QStr.size "" =? 0) with true.
  cbn [negb String.append].
  unfold replaceDefinitionLinks, MAX_DEFINITION_LINKS. cbn [replaceLinks].
  by rewrite !linkIndexIn_lacks.
Qed.

Lemma replaceLinks_resolved (e : WordEngine) (maxDepth : nat)
  (definition : string) (useFollow : bool) :
  (length (snd (replaceLinks e maxDepth definition useFollow))
   ≤ maxDepth)%nat →
  linkIndexIn "{" "}" 0
    (fst (replaceLinks e maxDepth definition useFollow)) = None
  ∧ linkIndexIn "<" ">" 0
      (fst (replaceLinks e maxDepth definition useFollow)) = None.
Proof.
  revert definition useFollow.
  induction maxDepth as [|n IH]; intros definition useFollow;
    cbn [replaceLinks].
  - destruct (linkIndexIn "{" "}" 0 definition) as [m|] eqn:Hf;
      [cbn; lia|].
    destruct (linkIndexIn "<" ">" 0 definition) as [m|] eqn:Hr;
      [cbn; lia|done].
  - assert (Hstep : ∀ modified uf word,
              let r := replaceLinks e n modified uf in
              (length (snd (let '(result, steps) := r in
                            (result, Expanded word :: steps))) ≤ S n)%nat →
              linkIndexIn "{" "}" 0
                (fst (let '(result, steps) := r in
                      (result, Expanded word :: steps))) = None
              ∧ linkIndexIn "<" ">" 0
                  (fst (let '(result, steps) := r in
                        (result, Expanded word :: steps))) = None).
    { intros modified uf word r. pose proof (IH modified uf) as Hr.
      fold r in Hr. destruct r as [result steps]. cbn in *.
      intros Hlen. apply Hr. lia. }
    destruct (linkIndexIn "{" "}" 0 definition) as [m|] eqn:Hf.
    + apply Hstep.
    + destruct (linkIndexIn "<" ">" 0 definition) as [m|] eqn:Hr.
      * apply Hstep.
      * done.
Qed.

(** X28: when [replaceDefinitionLinks] makes no more replacements than
    its depth allows, the text it returns holds no link of either kind: a
    link is left in the result only when the depth was used up. *)
Theorem replaceDefinitionLinks_resolves (e : WordEngine) (maxDepth : nat)
  (definition : string) (useFollow : bool) :
  (length (snd (replaceLinks e maxDepth definition useFollow))
   ≤ maxDepth)%nat →
  linkIndexIn "{" "}" 0
    (replaceDefinitionLinks e definition maxDepth useFollow) = None
  ∧ linkIndexIn "<" ">" 0
      (replaceDefinitionLinks e definition maxDepth useFollow) = None.
Proof. apply replaceLinks_resolved. Qed.

(** *** Senses by part of speech *)

Lemma keyLt_irrefl (a : string) : String.ltb a a = false.
Proof.
  unfold String.ltb. pose proof (String.compare_antisym a a) as Hanti.
  by destruct (String.compare a a).
Qed.

Lemma keyLt_keyLe (a b c : string) : keyLt a b → keyLe b c → keyLt a c.
Proof.
  unfold keyLe. intros Hab Hbc.
  destruct (String.ltb a c) eqn:Hac; [done|].
  destruct (String.eqb a c) eqn:Heq.
  - apply String.eqb_eq in Heq as ->. unfold keyLt in Hab. congruence.
  - pose proof (keyLt_trans _ _ _ (keyLt_total _ _ Hac Heq) Hab) as Hcb.
    unfold keyLt in Hcb. congruence.
Qed.

Lemma mmFind_above (k : string) (m : list (string * string)) :
  Forall (keyLt k) (map fst m) → mmFind k m = None.
Proof.
  induction m as [|[k' v'] m IH]; cbn [map fst mmFind]; intros Hall; [done|].
  apply Forall_cons in Hall as [Hk Hall].
  destruct (String.eqb k k') eqn:Heq; [|by apply IH].
  apply String.eqb_eq in Heq as <-. unfold keyLt in Hk.
  by rewrite keyLt_irrefl in Hk.
Qed.

Lemma mmInsert_keys (k v : string) (m : list (string * string))
  (x : string) :
  x ∈ map fst (mmInsert k v m) → x = k ∨ x ∈ map fst m.
Proof.
  induction m as [|[k' v'] m IH]; cbn [mmInsert map fst].
  - set_solver.
  - destruct (String.ltb k k'); cbn [map fst]; set_solver.
Qed.

Lemma mmInsert_sorted (k v : string) (m : list (string * string)) :
  StronglySorted keyLe (map fst m) →
  StronglySorted keyLe (map fst (mmInsert k v m)).
Proof.
  induction m as [|[k' v'] m IH]; cbn [mmInsert map fst]; intros Hs.
  - repeat constructor.
  - pose proof Hs as Hs'. apply StronglySorted_inv in Hs' as [Hm Hall].
    destruct (String.ltb k k') eqn:Hlt; cbn [map fst].
    + constructor; [done|]. apply Forall_forall. intros x Hx.
      unfold keyLe. destruct (String.ltb x k) eqn:Hxk; [|done].
      assert (Hxk' : keyLt x k') by by eapply keyLt_trans.
      apply elem_of_cons in Hx as [->|Hx].
      * unfold keyLt in Hxk'. by rewrite keyLt_irrefl in Hxk'.
      * eapply Forall_forall in Hall; [|done]. unfold keyLe, keyLt in *.
        congruence.
    + constructor; [by apply IH|]. apply Forall_forall. intros x Hx.
      apply mmInsert_keys in Hx as [->|Hx]; [done|].
      by eapply Forall_forall in Hall.
Qed.

Lemma mmFind_mmInsert (k k' v : string) (m : list (string * string)) :
  StronglySorted keyLe (map fst m) →
  mmFind k (mmInsert k' v m)
  = match mmFind k m with
    | Some x => Some x
    | None => if String.eqb k k' then Some v else None
    end.
Proof.
  induction m as [|[k1 v1] m IH]; cbn [mmInsert map fst]; intros Hs.
  - done.
  - pose proof Hs as Hs'. apply StronglySorted_inv in Hs' as [Hm Hall].
    destruct (String.ltb k' k1) eqn:Hlt.
    + change (mmFind k ((k', v) :: (k1, v1) :: m))
        with (if String.eqb k k' then Some v
              else mmFind k ((k1, v1) :: m)).
      destruct (String.eqb k k') eqn:Heq;
        [|by destruct (mmFind k ((k1, v1) :: m))].
      apply String.eqb_eq in Heq as ->.
      rewrite mmFind_above; [done|].
      cbn [map fst]. constructor; [done|].
      eapply Forall_impl; [exact Hall|]. intros x Hx.
      by eapply keyLt_keyLe.
    + cbn [mmFind]. destruct (String.eqb k k1); [done|]. by apply IH.
Qed.

Lemma mmFind_senses (pos : string) (defs : list string)
  (m : list (string * string)) :
  StronglySorted keyLe (map fst m) →
  mmFind pos (foldl (λ m def, mmInsert (senseKey def) def m) m defs)
  = match mmFind pos m with
    | Some x => Some x
    | None => List.find (λ def, String.eqb pos (senseKey def)) defs
    end.
Proof.
  revert m. induction defs as [|def defs IH]; intros m Hs;
    cbn [foldl List.find].
  - by destruct (mmFind pos m).
  - rewrite IH by by apply mmInsert_sorted.
    rewrite mmFind_mmInsert by done.
    destruct (mmFind pos m); [done|].
    by destruct (String.eqb pos (senseKey def)).
Qed.

(** X29: the sub-definition of a word for a part of speech comes from the
    first sense, in the order the definition was written, that is filed
    under that part of speech; it is empty when there is none. *)
Theorem getSubDefinition_first_sense (e : WordEngine) (word d pos : string) :
  word ≠ "" → d ≠ "" → definitions e !! word = None →
  getSubDefinition (addDefinition word d e) word pos
  = match List.find (λ def, String.eqb pos (senseKey def))
                    (QStr.split " / " d) with
    | Some def => QStr.left (QStr.indexOf " [" def) def
    | None => ""
    end.
Proof.
  intros Hw Hd Hnew. unfold addDefinition.
  replace ((QStr.size word =? 0) || (QStr.size d =? 0)) with false.
  2:{ symmetry. apply orb_false_intro; apply Z.eqb_neq; unfold QStr.size.
      - destruct word; [done|]. cbn [String.length]. lia.
      - destruct d; [done|]. cbn [String.length]. lia. }
  unfold getSubDefinition. cbn [definitions]. unfold mapInsertNew.
  rewrite Hnew, lookup_insert_eq.
  change (foldl _ [] (QStr.split " / " d))
    with (foldl (λ m def, mmInsert (senseKey def) def m) []
                (QStr.split " / " d)).
  rewrite mmFind_senses by constructor. done.
Qed.

Lemma prefix_substring (s t : string) (n : nat) :
  String.prefix s (String.substring 0 n t) = true → String.prefix s t = true.
Proof.
  revert t n. induction s as [|a s IH]; intros t n; [by destruct t|].
  destruct n as [|n], t as [|c t]; try done.
  cbn [String.substring String.prefix].
  destruct (ascii_dec a c); [apply IH|done].
Qed.

Lemma index_substring (a : ascii) (s d : string) (i : nat) :
  String.index 0 (String a s) d = Some i →
  (i < String.length d)%nat
  ∧ String.index 0 (String a s) (String.substring 0 i d) = None.
Proof.
  revert i. induction d as [|b d IH]; intros i; [done|].
  cbn [String.index].
  destruct (String.prefix (String a s) (String b d)) eqn:Hp.
  - intros [= <-]. split; [cbn; lia|done].
  - destruct (String.index 0 (String a s) d) as [j|]; [|done].
    intros [= <-]. destruct (IH j eq_refl) as [Hj Hnone].
    split; [cbn; lia|].
    cbn [String.substring String.index].
    destruct (String.prefix (String a s) (String b (String.substring 0 j d)))
      eqn:Hp'.
    + apply (prefix_substring _ (String b d) (S j)) in Hp'. congruence.
    + by rewrite Hnone.
Qed.

(** X30: a sub-definition never holds the opening of a part-of-speech
    tag, a space followed by a bracket: the stored sense is cut at the
    first one, and returned whole only when it has none. *)
Theorem getSubDefinition_no_tag (e : WordEngine) (word pos : string) :
  QStr.indexOf " [" (getSubDefinition e word pos) = -1.
Proof.
  unfold getSubDefinition.
  destruct (definitions e !! word) as [mmap|]; [|done].
  destruct (mmFind pos mmap) as [d|]; [|done].
  unfold QStr.indexOf at 2.
  destruct (String.index 0 " [" d) as [i|] eqn:Hi.
  - destruct (index_substring _ _ _ _ Hi) as [Hlen Hnone].
    unfold QStr.left, QStr.size.
    replace (Z.of_nat i <? 0) with false by lia.
    replace (Z.of_nat (String.length d) <=? Z.of_nat i) with false by lia.
    cbn [orb]. rewrite Nat2Z.id. unfold QStr.indexOf. by rewrite Hnone.
  - change (QStr.left (-1) d) with d. unfold QStr.indexOf. by rewrite Hi.
Qed.

End Lookups.

(** ** The properties at concrete inputs *)

(** X6 at two six-letter stems, a shorter word between them, and an
    engine without stems. *)
Lemma importStems_new_bucket_witness :
  let lines := ["SATIRE"; "# a comment"; "CAT"; "RETINA"] in
  let e' := snd (@importStems plainAuxil (Some lines) emptyEngine) in
  stems e' !! 6 = Some ["SATIRE"; "RETINA"]
  ∧ stemAlphagrams e' !! 6 = Some {[ "AEINRT"; "AEIRST" ]}.
Proof.
  intros lines e'.
  pose proof (@importStems_new_bucket plainAuxil lines emptyEngine) as H.
  cbv zeta in H.
  destruct H as (Hstems & Halpha & _);
    [vm_compute; reflexivity | vm_compute; reflexivity |].
  split; [exact Hstems|]. vm_compute in Halpha. vm_compute. exact Halpha.
Defined.

(** X10 at a spec that holds an anagram-count range only. *)
Lemma nonGraphSearch_needs_word_list_witness :
  @nonGraphSearch plainAuxil (lexicon ["CAT"; "ACT"; "DOG"])
    {| conditions := [rangeCondition NumAnagrams 1 5];
       conjunction := true |} = [].
Proof.
  apply (@nonGraphSearch_needs_word_list plainAuxil).
  constructor; [discriminate|constructor].
Defined.

(** X11 at two word lists under disjunction. *)
Lemma nonGraphSearch_word_lists_witness :
  let e := lexicon ["CAT"; "DOG"] in
  let spec := {| conditions := [wordList "CAT" false;
                                wordList "DOG BIRD" false];
                 conjunction := false |} in
  "DOG" ∈ @nonGraphSearch plainAuxil e spec ↔ inWordLists e spec "DOG".
Proof.
  intros e spec.
  apply (@nonGraphSearch_word_lists plainAuxil e spec "DOG").
  - constructor; [discriminate|]. constructor; [discriminate|constructor].
  - left. reflexivity.
Defined.


(** X14 at a negated word list, which sends the search to the graph. *)
Lemma search_graph_words_witness :
  let e := lexicon ["CAT"; "DOG"] in
  let spec := {| conditions := [wordList "CAT" true];
                 conjunction := true |} in
  "DOG" ∈ @graphSearch wholeGraph (graph e)
            {| conditions := clConditions
                               (@classifyAll plainAuxil (conditions spec));
               conjunction := true |}
  ∧ @matchesConditions plainAuxil noOperators e "DOG"
      (clConditions (@classifyAll plainAuxil (conditions spec))) = true.
Proof.
  intros e spec.
  apply (@search_graph_words plainAuxil noOperators wholeGraph noRewrite flatBag e spec
           "DOG").
  - vm_compute. reflexivity.
  - apply (bool_decide_unpack _). vm_compute. exact I.
Defined.

(** X15 at the same search: DOG is returned, and the negated list does not
    hold it. *)
Lemma search_excludes_negated_list_witness :
  "DOG" ∈ @search plainAuxil noOperators wholeGraph noRewrite flatBag
            (lexicon ["CAT"; "DOG"])
            {| conditions := [wordList "CAT" true]; conjunction := true |}
            false
  ∧ isLiteralWord (QStr.toUpper "DOG") = true
  ∧ containsWholeWord (QStr.toUpper "DOG") "CAT" = false.
Proof.
  assert (Hin : "DOG" ∈ @search plainAuxil noOperators wholeGraph noRewrite
                          flatBag (lexicon ["CAT"; "DOG"])
                          {| conditions := [wordList "CAT" true];
                             conjunction := true |} false).
  { apply (bool_decide_unpack _). vm_compute. exact I. }
  split; [exact Hin|]. split; [reflexivity|].
  apply (@search_excludes_negated_list plainAuxil noOperators wholeGraph
           noRewrite flatBag (lexicon ["CAT"; "DOG"])
           {| conditions := [wordList "CAT" true]; conjunction := true |}
           (wordList "CAT" true) "DOG").
  - left.
  - reflexivity.
  - reflexivity.
  - exact Hin.
  - reflexivity.
Defined.

(** X16 at three words and the range 1 to 2. *)
Lemma search_probability_slice_witness :
  let e := lexicon ["CAT"; "DOG"; "BIRD"] in
  let spec := {| conditions := [rangeCondition PatternMatch 0 0;
                                rangeCondition ProbabilityOrder 1 2];
                 conjunction := true |} in
  ∃ ordered,
    ordered ≡ₚ ["BIRD"; "CAT"; "DOG"]
    ∧ StronglySorted keyLt (map (@radixOf flatBag) ordered)
    ∧ @search plainAuxil noOperators wholeGraph noRewrite flatBag e spec false
      = take 2 ordered
    ∧ (length (@search plainAuxil noOperators wholeGraph noRewrite flatBag e spec false)
       ≤ 2)%nat.
Proof.
  intros e spec.
  apply (@search_probability_slice plainAuxil noOperators wholeGraph noRewrite flatBag
           e spec).
  - vm_compute. reflexivity.
  - vm_compute. reflexivity.
  - vm_compute. discriminate.
  - apply (bool_decide_unpack _). vm_compute. exact I.
Defined.

(** X19 at a negated condition on the group of the new OWL2 words. *)
Lemma search_new_in_owl2_witness :
  let e := lexicon ["QI"; "ZA"; "CAT"] in
  let c := {| type := BelongToGroup; stringValue := "New in OWL2";
              minValue := 0; maxValue := 0; negated := true |} in
  "ZA" ∈ @search owl2Auxil noOperators wholeGraph noRewrite flatBag e
           {| conditions := [c]; conjunction := true |} false
  ↔ "ZA" ∈ listedAcceptable e (@getNewInOwl2String owl2Auxil).
Proof.
  intros e c.
  apply (@search_new_in_owl2 owl2Auxil noOperators wholeGraph noRewrite flatBag e
           {| conditions := [c]; conjunction := true |} c false "ZA");
    reflexivity.
Defined.

(** X20 at a word list and a pattern, in both orders. *)
Lemma matchesConditions_conjunction_witness :
  let e := lexicon ["CAT"; "DOG"] in
  let conds := [wordList "CAT" false; rangeCondition PatternMatch 0 0] in
  @matchesConditions plainAuxil noOperators e "cat" conds
  = @matchesConditions plainAuxil noOperators e "cat"
      [rangeCondition PatternMatch 0 0; wordList "CAT" false]
  ∧ @matchesConditions plainAuxil noOperators e "cat" conds
    = @matchesConditions plainAuxil noOperators e "cat"
        (List.filter (@isTested plainAuxil) conds).
Proof.
  intros e conds.
  apply (@matchesConditions_conjunction plainAuxil noOperators e "cat" conds).
  apply perm_swap.
Defined.

(** X21 at a spec of one pattern. *)
Lemma search_graph_only_witness :
  let e := lexicon ["CAT"; "DOG"] in
  @search plainAuxil noOperators wholeGraph noRewrite flatBag e (patternSpec "?AT") false
  = @graphSearch wholeGraph (graph e) (patternSpec "?AT")
  ∧ @search plainAuxil noOperators wholeGraph noRewrite flatBag e (patternSpec "?AT") true
    = map QStr.toUpper (@graphSearch wholeGraph (graph e) (patternSpec "?AT")).
Proof.
  intros e.
  apply (@search_graph_only plainAuxil noOperators wholeGraph noRewrite flatBag e
           (patternSpec "?AT")).
  constructor; [split; [reflexivity|discriminate]|constructor].
Defined.

(** X25 at the stem SATIRE and the word SATIRES. *)
Lemma isSetMember_one_letter_off_witness :
  let e := @runStemImports plainAuxil [Some ["SATIRE"]] emptyEngine in
  (@isSetMember plainAuxil e "SATIRES" SetTypeOneSevens = true
   ↔ @oneOffStem plainAuxil e 7 "SATIRES")
  ∧ (@isSetMember plainAuxil e "SATIRES" SetEightsFromSevenLetterStems = true
     ↔ @oneOffStem plainAuxil e 8 "SATIRES").
Proof.
  intros e.
  apply (@isSetMember_one_letter_off plainAuxil e "SATIRES").
  apply (@runStemImports_consistent plainAuxil [Some ["SATIRE"]]).
Defined.

(** X26 at a word that has a definition. *)
Lemma addDefinition_keeps_first_witness :
  let e := addDefinition "AB" "first [n]" emptyEngine in
  addDefinition "AB" "second [n]" e = e.
Proof.
  intros e. apply (addDefinition_keeps_first e "AB" "second [n]").
  right. right. eexists. vm_compute. reflexivity.
Defined.

(** X27 at a sense of CAT. *)
Lemma getDefinition_addDefinition_witness :
  getDefinition (addDefinition "CAT" "a feline [n]" emptyEngine) "CAT"
  = "a feline [n]".
Proof.
  apply (getDefinition_addDefinition emptyEngine "CAT" "a feline [n]").
  - discriminate.
  - discriminate.
  - reflexivity.
  - cbn. repeat (split; [discriminate|]). exact I.
  - cbn. repeat (split; [discriminate|]). exact I.
  - cbn. repeat (split; [discriminate|]). exact I.
Defined.

(** X28 at a link that one replacement resolves. *)
Lemma replaceDefinitionLinks_resolves_witness :
  let e := addDefinition "BA" "thing [n]" emptyEngine in
  linkIndexIn "{" "}" 0
    (replaceDefinitionLinks e "to {BA=n} [v]" MAX_DEFINITION_LINKS false)
  = None
  ∧ linkIndexIn "<" ">" 0
      (replaceDefinitionLinks e "to {BA=n} [v]" MAX_DEFINITION_LINKS false)
    = None.
Proof.
  intros e.
  apply (replaceDefinitionLinks_resolves e MAX_DEFINITION_LINKS
           "to {BA=n} [v]" false).
  vm_compute. lia.
Defined.

(** X29 at a definition of three senses, two of them verbs. *)
Lemma getSubDefinition_first_sense_witness :
  let d := "to x [v] / thing [n] / to y [v]" in
  getSubDefinition (addDefinition "AB" d emptyEngine) "AB" "v"
  = match List.find (λ def, String.eqb "v" (senseKey def))
                    (QStr.split " / " d) with
    | Some def => QStr.left (QStr.indexOf " [" def) def
    | None => ""
    end.
Proof.
  intros d. apply (getSubDefinition_first_sense emptyEngine "AB" d "v").
  - discriminate.
  - discriminate.
  - reflexivity.
Defined.
